(** * pyro.contrib.funsor.named_messenger: the dimension allocator

    A shallow embedding of [StackFrame], [DimStack] and the messengers that
    push and pop frames on the global [_DIM_STACK], followed by the
    properties of the allocator that are stated in the specification.

    Python objects that are mutated in place and shared between several
    owners (the two [OrderedDict]s of a frame are referenced from the stack,
    from the [parents] tuples of younger frames and from the saved frames of
    a [keep] messenger) live in an explicit store; a frame holds the address
    of its dictionaries. *)

From Stdlib Require Import ZArith Lia.
From stdpp Require Import base option list strings pretty relations.

Set Warnings "-register-all".
Local Open Scope Z_scope.

(** ** Exceptions *)

Inductive exn :=
| TypeError
| ValueError (msg : string)
| AssertionError
| IndexError.

Inductive result (A : Type) :=
| Ok (a : A)
| Raise (e : exn).
Arguments Ok {A} a.
Arguments Raise {A} e.

#[global] Instance result_ret : MRet result := λ A a, Ok a.
#[global] Instance result_bind : MBind result := λ A B f m,
  match m with
  | Ok a => f a
  | Raise e => Raise e
  end.

(** ** collections.OrderedDict

    An association list in insertion order.  Assigning to a key that is
    present keeps its position; a new key goes to the end. *)

Section OrderedDict.
Context {K V : Type} `{EqDecision K}.

Fixpoint od_get (d : list (K * V)) (k : K) : option V :=
  match d with
  | [] => None
  | (k', v) :: d' => if decide (k' = k) then Some v else od_get d' k
  end.

(** [k in d] *)
Definition od_mem (d : list (K * V)) (k : K) : bool :=
  match od_get d k with Some _ => true | None => false end.

(** [d[k] = v] *)
Fixpoint od_set (d : list (K * V)) (k : K) (v : V) : list (K * V) :=
  match d with
  | [] => [(k, v)]
  | (k', v') :: d' =>
      if decide (k' = k) then (k, v) :: d' else (k', v') :: od_set d' k v
  end.

(** [d.pop(k, None)] *)
Definition od_pop (d : list (K * V)) (k : K) : list (K * V) :=
  filter (λ kv, kv.1 ≠ k) d.
End OrderedDict.

(** ** StackFrame *)

(** Addresses of the store. *)
Abbreviation loc := nat (only parsing).

(** The pair of dictionaries of one frame.  [LocalNamedMessenger.__enter__]
    creates them together and [__exit__] hands them on together, so one
    store cell holds both. *)
Record Dicts := mkDicts {
  name_to_dim : list (string * Z);
  dim_to_name : list (Z * string);
}.

Definition empty_dicts : Dicts := mkDicts [] [].

Inductive StackFrame := mkStackFrame {
  dicts : loc;
  parents : list StackFrame;
  iter_parents : list StackFrame;
  keep : bool;
}.

Definition read (c : Dicts) (name : option string) (dim : option Z)
  : option string * option Z * bool :=
  let found_name :=
    match dim with
    | Some d => match od_get (dim_to_name c) d with Some n => Some n | None => name end
    | None => name
    end in
  let found_dim :=
    match name with
    | Some n => match od_get (name_to_dim c) n with Some d => Some d | None => dim end
    | None => dim
    end in
  let found :=
    match name with Some n => od_mem (name_to_dim c) n | None => false end
    || match dim with Some d => od_mem (dim_to_name c) d | None => false end in
  (found_name, found_dim, found).

Definition write (c : Dicts) (name : string) (dim : Z) : Dicts :=
  mkDicts (od_set (name_to_dim c) name dim) (od_set (dim_to_name c) dim name).

Definition free (c : Dicts) (name : string) (dim : Z) : Dicts :=
  mkDicts (od_pop (name_to_dim c) name) (od_pop (dim_to_name c) dim).

(** ** DimType, DimRequest, NameRequest *)

Inductive DimType := LOCAL | GLOBAL | VISIBLE.

#[global] Instance DimType_eq_dec : EqDecision DimType.
Proof. solve_decision. Defined.

Record DimRequest := mkDimRequest { dr_dim : option Z; dr_dim_type : DimType }.
Record NameRequest := mkNameRequest { nr_name : option string; nr_dim_type : DimType }.

(** The two arguments of [request]: a plain value (possibly [None]) or a
    request wrapper. *)
Inductive name_arg := NameVal (name : option string) | NameReq (r : NameRequest).
Inductive dim_arg := DimVal (dim : option Z) | DimReq (r : DimRequest).

(** ** DimStack

    [heap] is the store of the dictionaries the frames point to; the other
    fields are those of the Python object.  [outermost] holds the identity
    of the owning cleanup messenger. *)

Record DimStack := mkDimStack {
  heap : list Dicts;
  _stack : list StackFrame;
  _first_available_dim : option Z;
  outermost : option nat;
}.

Definition MAX_DIM : Z := -25.

(** The dictionaries of frame [f].  A frame always points at dictionaries
    that exist; for an address outside the store the model answers with
    empty dictionaries, and a write to it is lost. *)
Definition cell (h : list Dicts) (f : StackFrame) : Dicts :=
  default empty_dicts (h !! dicts f).

(** [DimStack()]: one global frame with empty dictionaries. *)
Definition DimStack_init : DimStack :=
  mkDimStack [empty_dicts] [mkStackFrame 0%nat [] [] false] (Some (-1)) None.

Definition set_heap (st : DimStack) (h : list Dicts) : DimStack :=
  mkDimStack h (_stack st) (_first_available_dim st) (outermost st).

Definition set_first_available_dim (st : DimStack) (dim : option Z)
  : result (option Z * DimStack) :=
  if bool_decide (dim = None)
     || match dim with Some d => bool_decide (MAX_DIM < d < 0) | None => false end
  then Ok (_first_available_dim st,
           mkDimStack (heap st) (_stack st) dim (outermost st))
  else Raise AssertionError.

Definition push (st : DimStack) (frame : StackFrame) : DimStack :=
  mkDimStack (heap st) (_stack st ++ [frame]) (_first_available_dim st) (outermost st).

Definition pop (st : DimStack) : result (StackFrame * DimStack) :=
  if bool_decide (1 < length (_stack st))%nat then
    match last (_stack st) with
    | Some f =>
        Ok (f, mkDimStack (heap st) (removelast (_stack st))
                 (_first_available_dim st) (outermost st))
    | None => Raise IndexError
    end
  else Raise AssertionError.

Definition current_frame (st : DimStack) : result StackFrame :=
  match last (_stack st) with Some f => Ok f | None => Raise IndexError end.

Definition global_frame (st : DimStack) : result StackFrame :=
  match _stack st with f :: _ => Ok f | [] => Raise IndexError end.

(** [any(fresh_dim in p.dim_to_name for p in conflict_frames)] *)
Definition dim_in_frames (h : list Dicts) (frames : list StackFrame) (d : Z) : bool :=
  existsb (λ p, od_mem (dim_to_name (cell h p)) d) frames.

(** The loop [while any(...): fresh_dim -= 1].  Every turn of the loop
    finds a key of some conflict frame at the candidate and moves below
    it, so the loop makes at most as many turns as the conflict frames hold
    keys; [search_fuel] is one more than that. *)
Fixpoint search_free (busy : Z → bool) (fuel : nat) (fresh_dim : Z) : Z :=
  match fuel with
  | O => fresh_dim
  | S fuel' =>
      if busy fresh_dim then search_free busy fuel' (fresh_dim - 1) else fresh_dim
  end.

Definition conflict_keys (h : list Dicts) (frames : list StackFrame) : list Z :=
  concat (map (λ p, map fst (dim_to_name (cell h p))) frames).

Definition search_fuel (h : list Dicts) (frames : list StackFrame) : nat :=
  S (length (conflict_keys h frames)).

Definition out_of_dims (fresh_name : string) : exn :=
  ValueError ("Ran out of free dims during allocation for " +:+ fresh_name).

Definition conflict_frames (st : DimStack) : result (list StackFrame) :=
  cur ← current_frame st;
  glob ← global_frame st;
  Ok ([cur; glob] ++ parents cur ++ iter_parents cur).

Definition _gendim (st : DimStack) (name_request : NameRequest) (dim_request : DimRequest)
  : result (string * Z) :=
  let dim_type := dr_dim_type dim_request in
  fresh_name ←
    match nr_name name_request with
    | None =>
        match dr_dim dim_request with
        | Some d => Ok ("_pyro_dim_" +:+ pretty (- d))
        | None => Raise TypeError
        end
    | Some n => Ok n
    end;
  frames ← conflict_frames st;
  let fresh_dim :=
    match dr_dim dim_request with
    | None =>
        let fresh_dim :=
          if bool_decide (dim_type ≠ VISIBLE) then _first_available_dim st
          else Some (-1) in
        let fresh_dim := default (-1) fresh_dim in
        search_free (dim_in_frames (heap st) frames)
          (search_fuel (heap st) frames) fresh_dim
    | Some d => d
    end in
  if bool_decide (fresh_dim < MAX_DIM) then Raise (out_of_dims fresh_name)
  else if dim_in_frames (heap st) frames fresh_dim then Raise (out_of_dims fresh_name)
  else if bool_decide (dim_type = VISIBLE) then
    match _first_available_dim st with
    | None => Raise TypeError
    | Some b =>
        if bool_decide (fresh_dim ≤ b) then Raise (out_of_dims fresh_name)
        else Ok (fresh_name, fresh_dim)
    end
  else Ok (fresh_name, fresh_dim).

(** The loop [for frame in read_frames: ...; if found: break]. *)
Fixpoint read_loop (h : list Dicts) (frames : list StackFrame)
    (name : option string) (dim : option Z) : option string * option Z * bool :=
  match frames with
  | [] => (name, dim, false)
  | frame :: frames' =>
      let '(name', dim', found) := read (cell h frame) name dim in
      if found then (name', dim', true) else read_loop h frames' name' dim'
  end.

Definition read_frames (st : DimStack) (dim_type : DimType) : result (list StackFrame) :=
  if bool_decide (dim_type ≠ LOCAL) then
    glob ← global_frame st; Ok [glob]
  else
    cur ← current_frame st;
    glob ← global_frame st;
    Ok ([cur] ++ parents cur ++ iter_parents cur ++ [glob]).

Definition write_frames (st : DimStack) (dim_type : DimType) : result (list StackFrame) :=
  if bool_decide (dim_type ≠ LOCAL) then
    glob ← global_frame st; Ok [glob]
  else
    cur ← current_frame st;
    Ok ([cur] ++ (if keep cur then parents cur else [])).

(** [frame.write(name, dim)] on the dictionaries of [frame] in the store. *)
Definition write_frame (name : string) (dim : Z) (h : list Dicts) (frame : StackFrame)
  : list Dicts :=
  alter (λ c, write c name dim) (dicts frame) h.

Definition free_frame (name : string) (dim : Z) (h : list Dicts) (frame : StackFrame)
  : list Dicts :=
  alter (λ c, free c name dim) (dicts frame) h.

(** The assertion and the unpacking that open [request]. *)
Definition unpack (name : name_arg) (dim : dim_arg)
  : result (option string * option Z * DimType) :=
  match name, dim with
  | NameVal n, DimReq r => Ok (n, dr_dim r, dr_dim_type r)
  | NameReq r, DimVal d => Ok (nr_name r, d, nr_dim_type r)
  | _, _ => Raise AssertionError
  end.

(** [request] up to the end of its read loop. *)
Definition request_read (st : DimStack) (name : name_arg) (dim : dim_arg)
  : result (option string * option Z * bool * DimType) :=
  '(name, dim, dim_type) ← unpack name dim;
  rframes ← read_frames st dim_type;
  let '(name, dim, found) := read_loop (heap st) rframes name dim in
  Ok (name, dim, found, dim_type).

Definition request (st : DimStack) (name : name_arg) (dim : dim_arg)
  : result (option string * option Z * DimStack) :=
  '(name, dim, found, dim_type) ← request_read st name dim;
  if found : bool then Ok (name, dim, st)
  else
    '(name, dim) ← _gendim st (mkNameRequest name dim_type) (mkDimRequest dim dim_type);
    wframes ← write_frames st dim_type;
    Ok (Some name, Some dim,
        set_heap st (foldl (write_frame name dim) (heap st) wframes)).

(** ** Messengers *)

(** [for x in xs: st = f(st, x)] where a turn may raise. *)
Fixpoint for_each {A S : Type} (f : S → A → result S) (xs : list A) (s : S) : result S :=
  match xs with
  | [] => Ok s
  | x :: xs' => s' ← f s x; for_each f xs' s'
  end.

(** [l[start:]] with Python's reading of a negative or too large start. *)
Definition py_slice_from {A : Type} (l : list A) (start : Z) : list A :=
  let n := Z.of_nat (length l) in
  let start := if bool_decide (start < 0) then Z.max 0 (start + n) else Z.min start n in
  drop (Z.to_nat start) l.

Module DimStackCleanupMessenger.

(** Modelled from the spec: the base class [ReentrantMessenger]
    (pyro.poutine.reentrant_messenger) is not among the sources.  The
    specification says that its ref-count tracks the nesting depth: an
    enter adds one to [_ref_count], an exit takes one away.  [ident]
    stands for the identity of the Python object, which is what
    [_DIM_STACK.outermost is self] compares. *)
Record t := mk {
  ident : nat;
  _ref_count : Z;
  _saved_dims : list (string * Z);
}.

Definition super__enter__ (self : t) : t :=
  mk (ident self) (_ref_count self + 1) (_saved_dims self).

Definition super__exit__ (self : t) : t :=
  mk (ident self) (_ref_count self - 1) (_saved_dims self).

Definition __init__ (id : nat) : t := mk id 0 [].

Definition __enter__ (self : t) (st : DimStack) : result (t * DimStack) :=
  if bool_decide (_ref_count self = 0) && bool_decide (outermost st = None) then
    let st := mkDimStack (heap st) (_stack st) (_first_available_dim st)
                (Some (ident self)) in
    h ← for_each (λ h '(name, dim),
                    glob ← global_frame st; Ok (write_frame name dim h glob))
           (_saved_dims self) (heap st);
    Ok (super__enter__ (mk (ident self) (_ref_count self) []), set_heap st h)
  else Ok (super__enter__ self, st).

Definition __exit__ (self : t) (st : DimStack) : result (t * DimStack) :=
  if bool_decide (_ref_count self = 1) && bool_decide (outermost st = Some (ident self)) then
    let st := mkDimStack (heap st) (_stack st) (_first_available_dim st) None in
    glob ← global_frame st;
    let items := reverse (name_to_dim (cell (heap st) glob)) in
    let '(saved, h) :=
      foldl (λ '(saved, h) '(name, dim),
               (saved ++ [(name, dim)], free_frame name dim h glob))
        (_saved_dims self, heap st) items in
    Ok (super__exit__ (mk (ident self) (_ref_count self) saved), set_heap st h)
  else Ok (super__exit__ self, st).

End DimStackCleanupMessenger.

Module LocalNamedMessenger.

Record t := mk {
  base : DimStackCleanupMessenger.t;
  history : Z;
  keep : bool;
  _saved_frames : list StackFrame;
  _iter_parents : list StackFrame;
}.

Definition __init__ (id : nat) (history : Z) (keep : bool) : t :=
  mk (DimStackCleanupMessenger.__init__ id) history keep [] [].

Definition set_base (self : t) (b : DimStackCleanupMessenger.t) : t :=
  mk b (history self) (keep self) (_saved_frames self) (_iter_parents self).

(** One turn of [while frontier: ...] replaces the frontier by the
    iteration parents of its members. *)
Definition next_frontier (frontier : list StackFrame) : list StackFrame :=
  concat (map iter_parents frontier).

Fixpoint iter_parents_loop (fuel : nat) (iter_parents frontier : list StackFrame)
  : list StackFrame :=
  match fuel, frontier with
  | S fuel', _ :: _ =>
      let frontier := next_frontier frontier in
      iter_parents_loop fuel' (iter_parents ++ frontier) frontier
  | _, _ => iter_parents
  end.

(** The length of the longest chain of iteration parents that starts at
    [f]: frames are immutable tuples, so chains are finite, and the
    frontier is empty after that many turns. *)
Fixpoint iter_depth (f : StackFrame) : nat :=
  match f with
  | mkStackFrame _ _ ips _ => S (foldr (λ p n, Nat.max (iter_depth p) n) O ips)
  end.

Definition _get_iter_parents (frame : StackFrame) : list StackFrame :=
  iter_parents_loop (iter_depth frame) [frame] [frame].

Definition __enter__ (self : t) (st : DimStack) : result (t * DimStack) :=
  let '(self, cellloc, h) :=
    match keep self, last (_saved_frames self) with
    | true, Some saved_frame =>
        (mk (base self) (history self) (keep self)
            (removelast (_saved_frames self)) (_iter_parents self),
         dicts saved_frame, heap st)
    | _, _ => (self, length (heap st), heap st ++ [empty_dicts])
    end in
  let frame :=
    mkStackFrame cellloc
      (reverse (py_slice_from (_stack st) (Z.of_nat (length (_stack st)) - history self)))
      (_iter_parents self)
      (keep self) in
  let st := push (set_heap st h) frame in
  '(b, st) ← DimStackCleanupMessenger.__enter__ (base self) st;
  Ok (set_base self b, st).

Definition __exit__ (self : t) (st : DimStack) : result (t * DimStack) :=
  '(self, st) ←
    (if keep self then
       '(old_frame, st) ← pop st;
       let saved_frame := mkStackFrame (dicts old_frame) [] [] (keep self) in
       Ok (mk (base self) (history self) (keep self)
             (_saved_frames self ++ [saved_frame]) (_iter_parents self), st)
     else
       '(_, st) ← pop st; Ok (self, st));
  '(b, st) ← DimStackCleanupMessenger.__exit__ (base self) st;
  Ok (set_base self b, st).

(** [__iter__] up to its loop: the iteration parents are recorded. *)
Definition iter_begin (self : t) (st : DimStack) : result t :=
  cur ← current_frame st;
  Ok (mk (base self) (history self) (keep self) (_saved_frames self)
        (_get_iter_parents cur)).

(** The loop of [__iter__], up to the [yield] that follows the bodies of
    the earlier steps: each step enters [self] through the [ExitStack],
    which exits nothing before the loop is over; [bodies] are what the
    consumer does to the allocator between two steps. *)
Fixpoint iter_steps (self : t) (st : DimStack)
    (bodies : list (DimStack → result DimStack)) : result (t * DimStack) :=
  match bodies with
  | [] => __enter__ self st
  | body :: bodies' =>
      '(self, st) ← __enter__ self st;
      st ← body st;
      iter_steps self st bodies'
  end.

Definition __iter__ (self : t) (st : DimStack)
    (bodies : list (DimStack → result DimStack)) : result (t * DimStack) :=
  self ← iter_begin self st;
  iter_steps self st bodies.

End LocalNamedMessenger.

(** ** NamedMessenger *)

Module NamedMessenger.

(** [_get_name_to_dim].  The values of the dictionary are dimensions,
    [None] or [DimRequest]s, which is what [dim_arg] holds.  The second
    loop walks the items while it assigns to the keys it visits; no key
    is added, so it walks the items as they are when the loop starts. *)
Definition _get_name_to_dim (st : DimStack) (batch_names : list string)
    (name_to_dim : option (list (string * dim_arg))) (dim_type : DimType)
  : result (list (string * dim_arg) * DimStack) :=
  let name_to_dim := default [] name_to_dim in
  let name_to_dim :=
    foldl (λ name_to_dim name,
             let dim := od_get name_to_dim name in
             od_set name_to_dim name
               match dim with
               | Some (DimReq r) => DimReq r
               | Some (DimVal d) => DimReq (mkDimRequest d dim_type)
               | None => DimReq (mkDimRequest None dim_type)
               end)
      name_to_dim batch_names in
  for_each (λ '(name_to_dim, st) '(name, dim_request),
              '(_, dim, st) ← request st (NameVal (Some name)) dim_request;
              Ok (od_set name_to_dim name (DimVal dim), st))
    name_to_dim (name_to_dim, st).

(** [range(-batch_dim, 0)] paired with [batch_shape[dim]]. *)
Definition batch_dims (batch_shape : list Z) : list (Z * Z) :=
  imap (λ i size, (Z.of_nat i - Z.of_nat (length batch_shape), size)) batch_shape.

Definition _get_dim_to_name (st : DimStack) (batch_shape : list Z)
    (dim_to_name : option (list (Z * name_arg))) (dim_type : DimType)
  : result (list (Z * name_arg) * DimStack) :=
  let dim_to_name := default [] dim_to_name in
  let dim_to_name :=
    foldl (λ dim_to_name '(dim, size),
             if bool_decide (size = 1) then dim_to_name
             else
               let name := od_get dim_to_name dim in
               od_set dim_to_name dim
                 match name with
                 | Some (NameReq r) => NameReq r
                 | Some (NameVal n) => NameReq (mkNameRequest n dim_type)
                 | None => NameReq (mkNameRequest None dim_type)
                 end)
      dim_to_name (batch_dims batch_shape) in
  for_each (λ '(dim_to_name, st) '(dim, name_request),
              '(name, _, st) ← request st name_request (DimVal (Some dim));
              Ok (od_set dim_to_name dim (NameVal name), st))
    dim_to_name (dim_to_name, st).

End NamedMessenger.

(** ** GlobalNamedMessenger *)

Module GlobalNamedMessenger.

Record t := mk {
  base : DimStackCleanupMessenger.t;
  _saved_globals : list (string * Z);
}.

Definition __init__ (id : nat) : t := mk (DimStackCleanupMessenger.__init__ id) [].

Definition __enter__ (self : t) (st : DimStack) : result (t * DimStack) :=
  '(self, st) ←
    (if bool_decide (DimStackCleanupMessenger._ref_count (base self) = 0) then
       h ← for_each (λ h '(name, dim),
                       glob ← global_frame st; Ok (write_frame name dim h glob))
              (_saved_globals self) (heap st);
       Ok (mk (base self) [], set_heap st h)
     else Ok (self, st));
  '(b, st) ← DimStackCleanupMessenger.__enter__ (base self) st;
  Ok (mk b (_saved_globals self), st).

Definition __exit__ (self : t) (st : DimStack) : result (t * DimStack) :=
  st ←
    (if bool_decide (DimStackCleanupMessenger._ref_count (base self) = 1) then
       h ← for_each (λ h '(name, dim),
                       glob ← global_frame st; Ok (free_frame name dim h glob))
              (_saved_globals self) (heap st);
       Ok (set_heap st h)
     else Ok st);
  '(b, st) ← DimStackCleanupMessenger.__exit__ (base self) st;
  Ok (mk b (_saved_globals self), st).

End GlobalNamedMessenger.

(** ** BaseEnumMessenger *)

Module BaseEnumMessenger.

(** [_prev_first_dim] is an attribute that [__enter__] creates; [__exit__]
    reads it at ref-count 1 only, which is reached through such an
    [__enter__].  Before that, where the Python object has no such
    attribute, the record holds [None]. *)
Record t := mk {
  base : DimStackCleanupMessenger.t;
  first_available_dim : option Z;
  _prev_first_dim : option Z;
}.

Definition __init__ (id : nat) (first_available_dim : option Z) : result t :=
  if match first_available_dim with
     | None => true
     | Some d => bool_decide (d < 0)
     end
  then Ok (mk (DimStackCleanupMessenger.__init__ id) first_available_dim None)
  else Raise AssertionError.

Definition __enter__ (self : t) (st : DimStack) : result (t * DimStack) :=
  '(self, st) ←
    (if bool_decide (DimStackCleanupMessenger._ref_count (base self) = 0)
        && bool_decide (first_available_dim self ≠ None) then
       '(old, st) ← set_first_available_dim st (first_available_dim self);
       Ok (mk (base self) (first_available_dim self) old, st)
     else Ok (self, st));
  '(b, st) ← DimStackCleanupMessenger.__enter__ (base self) st;
  Ok (mk b (first_available_dim self) (_prev_first_dim self), st).

Definition __exit__ (self : t) (st : DimStack) : result (t * DimStack) :=
  st ←
    (if bool_decide (DimStackCleanupMessenger._ref_count (base self) = 1)
        && bool_decide (first_available_dim self ≠ None) then
       '(_, st) ← set_first_available_dim st (_prev_first_dim self); Ok st
     else Ok st);
  '(b, st) ← DimStackCleanupMessenger.__exit__ (base self) st;
  Ok (mk b (first_available_dim self) (_prev_first_dim self), st).

End BaseEnumMessenger.

(** * Predicates and sample states of the statements *)

(** [d] is the first candidate at or below [start] that [busy] does not hold. *)
Definition first_free (busy : Z → bool) (start d : Z) : Prop :=
  busy d = false ∧ d ≤ start ∧ ∀ x, d < x ≤ start → busy x = true.

Arguments dim_in_frames : simpl never.

(** The candidate the search of [_gendim] starts from. *)
Definition search_start (st : DimStack) (t : DimType) : Z :=
  default (-1) (if bool_decide (t ≠ VISIBLE) then _first_available_dim st else Some (-1)).

(** The checks that close [_gendim], on the dimension [d] it has settled on. *)
Definition validate (st : DimStack) (frames : list StackFrame) (t : DimType)
    (fresh_name : string) (d : Z) : result (string * Z) :=
  if bool_decide (d < MAX_DIM) then Raise (out_of_dims fresh_name)
  else if dim_in_frames (heap st) frames d then Raise (out_of_dims fresh_name)
  else if bool_decide (t = VISIBLE) then
    match _first_available_dim st with
    | None => Raise TypeError
    | Some b => if bool_decide (d ≤ b) then Raise (out_of_dims fresh_name)
                else Ok (fresh_name, d)
    end
  else Ok (fresh_name, d).

(** A [DimStack] whose boundary is [-2], with an empty global frame. *)
Definition stack_boundary_2 : DimStack :=
  mkDimStack [empty_dicts] [mkStackFrame 0%nat [] [] false] (Some (-2)) None.

(** C3 as the specification words it: the dimension of a VISIBLE request
    that misses and supplies no dimension is always [-1]. *)
Definition visible_only_minus_one : Prop :=
  ∀ st name dim n d st',
    request_read st name dim = Ok (Some n, None, false, VISIBLE) →
    request st name dim = Ok (Some n, Some d, st') →
    d = -1.

(** [name_to_dim] and [dim_to_name] are inverse to each other. *)
Definition inverse (c : Dicts) : Prop :=
  ∀ n d, od_get (name_to_dim c) n = Some d ↔ od_get (dim_to_name c) d = Some n.

(** Across [frames], a dimension belongs to one name only. *)
Definition dims_unique (h : list Dicts) (frames : list StackFrame) : Prop :=
  ∀ f1 f2 n1 n2 d,
    f1 ∈ frames → f2 ∈ frames →
    od_get (name_to_dim (cell h f1)) n1 = Some d →
    od_get (name_to_dim (cell h f2)) n2 = Some d →
    n1 = n2.

(** [OpWrite i n d] is [_DIM_STACK._stack[i].write(n, d)], [OpFree i n d]
    is [_DIM_STACK._stack[i].free(n, d)], [OpRequest name dim] is
    [_DIM_STACK.request(name, dim)]. *)
Inductive op :=
| OpWrite (i : nat) (name : string) (dim : Z)
| OpFree (i : nat) (name : string) (dim : Z)
| OpRequest (name : name_arg) (dim : dim_arg).

Definition stack_frame (st : DimStack) (i : nat) : result StackFrame :=
  match _stack st !! i with Some f => Ok f | None => Raise IndexError end.

Definition run_op (st : DimStack) (o : op) : result DimStack :=
  match o with
  | OpWrite i name dim =>
      frame ← stack_frame st i;
      Ok (set_heap st (write_frame name dim (heap st) frame))
  | OpFree i name dim =>
      frame ← stack_frame st i;
      Ok (set_heap st (free_frame name dim (heap st) frame))
  | OpRequest name dim =>
      '(_, _, st) ← request st name dim; Ok st
  end.

Definition run_ops (ops : list op) (st : DimStack) : result DimStack :=
  for_each run_op ops st.

(** The dictionaries of every frame are inverse to each other, and no
    dimension belongs to two names across the conflict frames. *)
Definition frames_consistent (st : DimStack) : Prop :=
  Forall inverse (heap st) ∧
  ∀ frames, conflict_frames st = Ok frames → dims_unique (heap st) frames.

(** C7 as the specification words it. *)
Definition consistent_after_every_sequence : Prop :=
  ∀ ops st, run_ops ops DimStack_init = Ok st → frames_consistent st.

(** The name that [_gendim] makes up for the dimension [d]. *)
Definition synth_name (d : Z) : string := "_pyro_dim_" +:+ pretty (- d).

(** The operations that the callers of a frame are meant to issue: a write
    of a name that the frame does not hold and of a dimension that neither
    the frame nor a conflict frame holds, a free of a pair that the frame
    holds, and any request but one: a request without a name that misses
    while a frame it writes to already holds the name that [_gendim] makes
    up for its dimension. *)
Definition op_ok (st : DimStack) (o : op) : bool :=
  match o with
  | OpWrite i name dim =>
      match stack_frame st i, conflict_frames st with
      | Ok frame, Ok frames =>
          negb (od_mem (name_to_dim (cell (heap st) frame)) name)
          && negb (dim_in_frames (heap st) (frame :: frames) dim)
      | _, _ => false
      end
  | OpFree i name dim =>
      match stack_frame st i with
      | Ok frame =>
          bool_decide (od_get (name_to_dim (cell (heap st) frame)) name = Some dim)
      | _ => false
      end
  | OpRequest name dim =>
      match request_read st name dim with
      | Ok (None, Some d, false, t) =>
          match write_frames st t with
          | Ok wframes =>
              forallb (λ f, negb (od_mem (name_to_dim (cell (heap st) f)) (synth_name d)))
                wframes
          | Raise _ => true
          end
      | _ => true
      end
  end.

(** Every operation of the sequence is such an operation in the state it
    is issued in. *)
Fixpoint ops_ok (st : DimStack) (ops : list op) : bool :=
  match ops with
  | [] => true
  | o :: ops' =>
      op_ok st o
      && match run_op st o with
         | Ok st' => ops_ok st' ops'
         | Raise _ => true
         end
  end.

Definition sample_ops : list op :=
  [ OpRequest (NameVal (Some "x")) (DimReq (mkDimRequest None LOCAL));
    OpWrite 0 "y" (-2);
    OpRequest (NameReq (mkNameRequest (Some "z") GLOBAL)) (DimVal (Some (-3)));
    OpFree 0 "y" (-2);
    OpRequest (NameReq (mkNameRequest None GLOBAL)) (DimVal (Some (-4))) ].

Definition sample_ops_end : DimStack :=
  mkDimStack
    [mkDicts [("x", -1); ("z", -3); ("_pyro_dim_4", -4)]
       [(-1, "x"); (-3, "z"); (-4, "_pyro_dim_4")]]
    [mkStackFrame 0%nat [] [] false] (Some (-1)) None.


Definition free_all (c : Dicts) (items : list (string * Z)) : Dicts :=
  foldl (λ c '(name, dim), free c name dim) c items.

Definition owner_1 : DimStackCleanupMessenger.t := DimStackCleanupMessenger.mk 1 1 [].

(** The owner [owner_1] at nesting level 1, with ["x"] and ["y"] bound in
    the global frame. *)
Definition owned_stack : DimStack :=
  mkDimStack [write (write empty_dicts "x" (-1)) "y" (-2)]
    [mkStackFrame 0%nat [] [] false] (Some (-1)) (Some 1%nat).

(** The dictionaries that [__enter__] gives to the frame it pushes: those
    of the last saved frame of a [keep] messenger, fresh ones otherwise. *)
Definition enter_dicts (self : LocalNamedMessenger.t) (st : DimStack) : loc :=
  match LocalNamedMessenger.keep self, last (LocalNamedMessenger._saved_frames self) with
  | true, Some saved_frame => dicts saved_frame
  | _, _ => length (heap st)
  end.

(** A messenger with [history=1] and [keep=False] that has been entered
    once on a fresh allocator. *)
Definition entered_once : LocalNamedMessenger.t :=
  LocalNamedMessenger.mk (DimStackCleanupMessenger.mk 1 1 []) 1 false [] [].

Definition stack_entered_once : DimStack :=
  mkDimStack [empty_dicts; empty_dicts]
    [mkStackFrame 0%nat [] [] false;
     mkStackFrame 1%nat [mkStackFrame 0%nat [] [] false] [] false]
    (Some (-1)) (Some 1%nat).

(** C8 as the specification words it: entering a messenger that is
    already entered leaves the stack of the allocator as it is. *)
Definition reentrant_enter_keeps_stack : Prop :=
  ∀ self st self1 st1,
    1 ≤ DimStackCleanupMessenger._ref_count (LocalNamedMessenger.base self) →
    LocalNamedMessenger.__enter__ self st = Ok (self1, st1) →
    _stack st1 = _stack st.

(** A run of the scenario on a fresh allocator, with a messenger built by
    [LocalNamedMessenger(history=1, keep=True)]. *)
Definition keep_messenger : LocalNamedMessenger.t :=
  LocalNamedMessenger.__init__ 1%nat 1 true.


Definition value_of {A} (d : A) (r : result A) : A :=
  match r with Ok a => a | Raise _ => d end.





(** [q] is one of the iteration parents of [p]. *)
Definition iter_parent (p q : StackFrame) : Prop := q ∈ iter_parents p.

(** The frontier after [k] turns of the loop of [_get_iter_parents]. *)
Fixpoint frontier_at (k : nat) (frontier : list StackFrame) : list StackFrame :=
  match k with
  | O => frontier
  | S k' => frontier_at k' (LocalNamedMessenger.next_frontier frontier)
  end.

Definition max_depth (frames : list StackFrame) : nat :=
  foldr (λ p n, Nat.max (LocalNamedMessenger.iter_depth p) n) O frames.

(** An outer loop at its first step, and an inner messenger that drives a
    loop of two steps from there. *)
Definition outer_loop : LocalNamedMessenger.t * DimStack :=
  Eval vm_compute in
    value_of (keep_messenger, DimStack_init)
      (LocalNamedMessenger.__iter__ (LocalNamedMessenger.__init__ 1%nat 1 false)
         DimStack_init []).

Definition inner_messenger : LocalNamedMessenger.t :=
  LocalNamedMessenger.__init__ 2%nat 1 false.

Definition outer_frame : StackFrame :=
  Eval vm_compute in
    value_of (mkStackFrame 0%nat [] [] false) (current_frame outer_loop.2).

Definition inner_loop : LocalNamedMessenger.t * DimStack :=
  Eval vm_compute in
    value_of (keep_messenger, DimStack_init)
      (LocalNamedMessenger.__iter__ inner_messenger outer_loop.2 [λ st, Ok st]).

(** A request for the pair [(n, d)] that leaves out the name or the
    dimension, but not both. *)
Definition asks_for (n : string) (d : Z) (name : option string) (dim : option Z) : Prop :=
  (name = Some n ∨ name = None) ∧ (dim = Some d ∨ dim = None) ∧
  ¬ (name = None ∧ dim = None).

(** A [keep] messenger entered on a fresh [DimStack], and a second
    messenger entered inside it. *)
Definition nest_outer : LocalNamedMessenger.t * DimStack :=
  Eval vm_compute in
    value_of (keep_messenger, DimStack_init)
      (LocalNamedMessenger.__enter__ (LocalNamedMessenger.__init__ 1%nat 1 true)
         DimStack_init).

Definition nest_inner : LocalNamedMessenger.t * DimStack :=
  Eval vm_compute in
    value_of (keep_messenger, DimStack_init)
      (LocalNamedMessenger.__enter__ (LocalNamedMessenger.__init__ 2%nat 0 false)
         nest_outer.2).

(** A messenger with [history=3], entered on the stack of
    [stack_entered_once], which is two frames deep: its one parent is the
    frame on top. *)
Definition deep_history : LocalNamedMessenger.t * DimStack :=
  Eval vm_compute in
    value_of (keep_messenger, DimStack_init)
      (LocalNamedMessenger.__enter__ (LocalNamedMessenger.__init__ 2%nat 3 false)
         stack_entered_once).

(** The messenger of [stack_entered_once] entered a second time. *)
Definition reentered : LocalNamedMessenger.t * DimStack :=
  Eval vm_compute in
    value_of (keep_messenger, DimStack_init)
      (LocalNamedMessenger.__enter__ entered_once stack_entered_once).

(** A boundary that [set_first_available_dim] accepts. *)
Definition valid_boundary (dim : option Z) : Prop :=
  match dim with None => True | Some d => MAX_DIM < d < 0 end.

(** A [BaseEnumMessenger] with the boundary [-3], before it is entered. *)
Definition enum_messenger : BaseEnumMessenger.t :=
  BaseEnumMessenger.mk (DimStackCleanupMessenger.__init__ 3%nat) (Some (-3)) None.

(** [for name, dim in items: frame.write(name, dim)] on one frame. *)
Definition write_all (c : Dicts) (items : list (string * Z)) : Dicts :=
  foldl (λ c '(name, dim), write c name dim) c items.

(** The dimensions of the axes of [batch_shape] whose size is not 1. *)
Definition named_dims (batch_shape : list Z) : list Z :=
  fst <$> filter (λ ds, ds.2 ≠ 1) (NamedMessenger.batch_dims batch_shape).

(** The pairs that [_pyro_post_to_funsor] and [_pyro_post_to_data] record:
    each is bound, both ways, in the dictionaries [c] of the global frame. *)
Definition recorded_in (c : Dicts) (saved : list (string * Z)) : Prop :=
  ∀ n d, (n, d) ∈ saved →
         od_get (name_to_dim c) n = Some d ∧ od_get (dim_to_name c) d = Some n.

(** A [GlobalNamedMessenger] at nesting level 1 that has recorded the
    global name ["x"] of [owned_stack], whose owner is another messenger. *)
Definition global_messenger : GlobalNamedMessenger.t :=
  GlobalNamedMessenger.mk (DimStackCleanupMessenger.mk 2 1 []) [("x", -1)].

(** [inner_messenger] entered on [owned_stack], a LOCAL request for
    ["z"] made inside, and the messenger left. *)
Definition scope_entered : LocalNamedMessenger.t * DimStack :=
  Eval vm_compute in
    value_of (keep_messenger, DimStack_init)
      (LocalNamedMessenger.__enter__ inner_messenger owned_stack).

Definition scope_requested : option string * option Z * DimStack :=
  Eval vm_compute in
    value_of (None, None, DimStack_init)
      (request scope_entered.2 (NameVal (Some "z")) (DimReq (mkDimRequest None LOCAL))).

Definition scope_left : LocalNamedMessenger.t * DimStack :=
  Eval vm_compute in
    value_of (keep_messenger, DimStack_init)
      (LocalNamedMessenger.__exit__ scope_entered.1 scope_requested.2).

(** * Properties *)

(** ** OrderedDict *)

Section OrderedDictFacts.
Context {K V : Type} `{EqDecision K}.
Implicit Types (d : list (K * V)) (k : K) (v : V).

Lemma od_get_set_eq d k v : od_get (od_set d k v) k = Some v.
Proof.
  induction d as [|[k' v'] d IH]; simpl.
  - by rewrite decide_True.
  - destruct (decide (k' = k)); simpl.
    + by rewrite decide_True.
    + by rewrite decide_False.
Qed.

Lemma od_get_set_ne d k k' v : k ≠ k' → od_get (od_set d k v) k' = od_get d k'.
Proof.
  intros Hne. induction d as [|[k0 v0] d IH]; simpl.
  - by rewrite decide_False.
  - destruct (decide (k0 = k)) as [->|]; simpl.
    + by rewrite !decide_False.
    + by rewrite IH.
Qed.

Lemma od_get_set d k k' v :
  od_get (od_set d k v) k' = if decide (k = k') then Some v else od_get d k'.
Proof.
  destruct (decide (k = k')) as [->|]; [apply od_get_set_eq | by apply od_get_set_ne].
Qed.

Lemma od_set_set d k v : od_set (od_set d k v) k v = od_set d k v.
Proof.
  induction d as [|[k' v'] d IH]; simpl.
  - by rewrite decide_True.
  - destruct (decide (k' = k)); simpl.
    + by rewrite decide_True.
    + by rewrite decide_False, IH.
Qed.

Lemma od_get_pop d k k' :
  od_get (od_pop d k) k' = if decide (k = k') then None else od_get d k'.
Proof.
  unfold od_pop. induction d as [|[k0 v0] d IH]; simpl.
  - by destruct (decide (k = k')).
  - rewrite filter_cons. simpl. destruct (decide (k0 ≠ k)) as [Hne|Heq]; simpl.
    + rewrite IH. destruct (decide (k0 = k')) as [->|]; [|done].
      by rewrite decide_False.
    + apply dec_stable in Heq as ->. rewrite IH.
      by destruct (decide (k = k')).
Qed.

Lemma od_get_Some_elem d k v : od_get d k = Some v → (k, v) ∈ d.
Proof.
  induction d as [|[k0 v0] d IH]; simpl; [done|].
  destruct (decide (k0 = k)) as [->|].
  - intros [= ->]. left.
  - intros. right. auto.
Qed.

Lemma od_get_None d k : od_get d k = None ↔ k ∉ d.*1.
Proof.
  induction d as [|[k0 v0] d IH]; simpl.
  - split; [intros _; apply not_elem_of_nil | done].
  - rewrite not_elem_of_cons. destruct (decide (k0 = k)) as [->|].
    + split; [done | intros [? _]; done].
    + rewrite IH. split; [intros; split; [congruence | done] | intros [_ ?]; done].
Qed.

Lemma od_mem_true d k : od_mem d k = true ↔ k ∈ d.*1.
Proof.
  unfold od_mem. destruct (od_get d k) eqn:E.
  - split; [intros _ | done].
    destruct (decide (k ∈ d.*1)) as [|Hn]; [done|].
    apply od_get_None in Hn. congruence.
  - apply od_get_None in E. split; [done | intros; done].
Qed.

Lemma od_mem_false d k : od_mem d k = false ↔ od_get d k = None.
Proof. unfold od_mem. destruct (od_get d k); split; congruence. Qed.
End OrderedDictFacts.

(** ** The result monad *)

Lemma bind_Ok {A B} (a : A) (f : A → result B) : (Ok a ≫= f) = f a.
Proof. reflexivity. Qed.

Lemma bind_Raise {A B} (e : exn) (f : A → result B) : (Raise e ≫= f) = Raise e.
Proof. reflexivity. Qed.

Lemma bind_Ok_inv {A B} (m : result A) (f : A → result B) (b : B) :
  (m ≫= f) = Ok b → ∃ a, m = Ok a ∧ f a = Ok b.
Proof. destruct m as [a|e]; [eauto | discriminate]. Qed.

(** ** Frames of the stack *)

Lemma global_frame_Ok st glob :
  global_frame st = Ok glob → ∃ cur, current_frame st = Ok cur.
Proof.
  unfold global_frame, current_frame. destruct (_stack st) as [|f l] eqn:E; [done|].
  intros _. destruct (last (f :: l)) as [c|] eqn:L; [eauto|].
  apply last_None in L. done.
Qed.

Lemma current_frame_Ok st cur :
  current_frame st = Ok cur → ∃ glob, global_frame st = Ok glob.
Proof.
  unfold global_frame, current_frame. destruct (_stack st) as [|f l]; [done | eauto].
Qed.

Lemma read_frames_Ok st t rf :
  read_frames st t = Ok rf →
  ∃ cur glob, current_frame st = Ok cur ∧ global_frame st = Ok glob ∧
    rf = if bool_decide (t ≠ LOCAL) then [glob]
         else [cur] ++ parents cur ++ iter_parents cur ++ [glob].
Proof.
  unfold read_frames. intros Hr.
  destruct (global_frame st) as [glob|e] eqn:G.
  - destruct (global_frame_Ok _ _ G) as [cur C]. exists cur, glob.
    rewrite C in *. case_bool_decide; simpl in Hr; injection Hr as <-; done.
  - case_bool_decide; simpl in Hr; [done|].
    destruct (current_frame st); done.
Qed.

(** ** The search for a fresh dimension *)

Lemma first_free_unique busy start d1 d2 :
  first_free busy start d1 → first_free busy start d2 → d1 = d2.
Proof.
  intros (F1 & L1 & B1) (F2 & L2 & B2).
  destruct (Z.lt_trichotomy d1 d2) as [Hlt|[->|Hgt]]; [|done|].
  - rewrite B1 in F2 by lia. done.
  - rewrite B2 in F1 by lia. done.
Qed.

Lemma filter_le_length_mono (keys : list Z) (d : Z) :
  (length (filter (λ x, (x ≤ d - 1)%Z) keys) ≤ length (filter (λ x, (x ≤ d)%Z) keys))%nat.
Proof.
  induction keys as [|k keys IH]; [done|].
  rewrite !filter_cons. repeat case_decide; simpl; lia.
Qed.

Lemma filter_le_length_lt (keys : list Z) (d : Z) :
  d ∈ keys →
  (length (filter (λ x, (x ≤ d - 1)%Z) keys) < length (filter (λ x, (x ≤ d)%Z) keys))%nat.
Proof.
  induction keys as [|k keys IH]; [by intros ?%elem_of_nil|].
  intros [->|Hin]%elem_of_cons; rewrite !filter_cons.
  - rewrite decide_False by lia. rewrite decide_True by lia. simpl.
    pose proof (filter_le_length_mono keys k). lia.
  - specialize (IH Hin). repeat case_decide; simpl; lia.
Qed.

Lemma search_free_spec busy keys fuel d :
  (∀ x, busy x = true → x ∈ keys) →
  (length (filter (λ x, (x ≤ d)%Z) keys) < fuel)%nat →
  first_free busy d (search_free busy fuel d).
Proof.
  intros Hkeys. revert d. induction fuel as [|fuel IH]; intros d Hlen; [lia|].
  simpl. destruct (busy d) eqn:Hb.
  - pose proof (filter_le_length_lt keys d (Hkeys _ Hb)) as Hlt.
    destruct (IH (d - 1)) as (F & L & B); [lia|].
    split; [done|]. split; [lia|]. intros x Hx.
    destruct (decide (x = d)) as [->|]; [done | apply B; lia].
  - split; [done|]. split; [lia|]. intros x Hx. lia.
Qed.

Lemma dim_in_frames_keys h frames d :
  dim_in_frames h frames d = true → d ∈ conflict_keys h frames.
Proof.
  unfold dim_in_frames, conflict_keys.
  induction frames as [|p frames IH]; simpl; [done|].
  intros [Hp|Hr]%orb_true_iff; apply elem_of_app.
  - left. by apply od_mem_true.
  - right. auto.
Qed.

(** The loop of [_gendim] ends on the first free candidate: the fuel of
    the model is never used up. *)
Lemma search_free_first h frames start :
  first_free (dim_in_frames h frames) start
    (search_free (dim_in_frames h frames) (search_fuel h frames) start).
Proof.
  apply search_free_spec with (keys := conflict_keys h frames).
  - apply dim_in_frames_keys.
  - unfold search_fuel. pose proof (length_filter (λ x, x ≤ start) (conflict_keys h frames)). lia.
Qed.

(** ** _gendim and request *)

Lemma conflict_frames_Ok st cur glob :
  current_frame st = Ok cur → global_frame st = Ok glob →
  conflict_frames st = Ok ([cur; glob] ++ parents cur ++ iter_parents cur).
Proof. unfold conflict_frames. by intros -> ->. Qed.

Lemma write_frames_Ok st t cur glob :
  current_frame st = Ok cur → global_frame st = Ok glob →
  write_frames st t =
    Ok (if bool_decide (t ≠ LOCAL) then [glob]
        else [cur] ++ (if keep cur then parents cur else [])).
Proof. unfold write_frames. intros -> ->. by case_bool_decide. Qed.

Lemma request_read_Ok st name dim n d found t :
  request_read st name dim = Ok (n, d, found, t) →
  ∃ n0 d0 rf, unpack name dim = Ok (n0, d0, t) ∧ read_frames st t = Ok rf ∧
    read_loop (heap st) rf n0 d0 = (n, d, found).
Proof.
  unfold request_read. intros H.
  apply bind_Ok_inv in H as ([[n0 d0] t0] & Hu & H).
  apply bind_Ok_inv in H as (rf & Hrf & H).
  destruct (read_loop (heap st) rf n0 d0) as [[n' d'] f'] eqn:E.
  injection H as -> -> -> ->. eauto 10.
Qed.

(** What [request] does after a miss. *)
Lemma request_miss st name dim n0 d0 t :
  request_read st name dim = Ok (n0, d0, false, t) →
  request st name dim =
    '(name, dim) ← _gendim st (mkNameRequest n0 t) (mkDimRequest d0 t);
    wframes ← write_frames st t;
    Ok (Some name, Some dim, set_heap st (foldl (write_frame name dim) (heap st) wframes)).
Proof. unfold request. by intros ->. Qed.

Lemma request_hit st name dim n0 d0 t :
  request_read st name dim = Ok (n0, d0, true, t) →
  request st name dim = Ok (n0, d0, st).
Proof. unfold request. by intros ->. Qed.

Lemma gendim_named st n d0 t frames :
  conflict_frames st = Ok frames →
  _gendim st (mkNameRequest (Some n) t) (mkDimRequest d0 t) =
    validate st frames t n
      (match d0 with
       | Some d => d
       | None => search_free (dim_in_frames (heap st) frames)
                   (search_fuel (heap st) frames) (search_start st t)
       end).
Proof.
  unfold _gendim, validate, search_start. simpl. intros ->. simpl.
  by destruct d0.
Qed.

Lemma gendim_unnamed st d t frames :
  conflict_frames st = Ok frames →
  _gendim st (mkNameRequest None t) (mkDimRequest (Some d) t) =
    validate st frames t ("_pyro_dim_" +:+ pretty (- d)) d.
Proof. unfold _gendim, validate. simpl. by intros ->. Qed.

Lemma gendim_unnamed_no_dim st t :
  _gendim st (mkNameRequest None t) (mkDimRequest None t) = Raise TypeError.
Proof. reflexivity. Qed.

Lemma validate_Ok st frames t n d res :
  validate st frames t n d = Ok res →
  res = (n, d) ∧ MAX_DIM ≤ d ∧ dim_in_frames (heap st) frames d = false ∧
  (t = VISIBLE → ∃ b, _first_available_dim st = Some b ∧ b < d).
Proof.
  unfold validate. case_bool_decide; [done|].
  destruct (dim_in_frames (heap st) frames d); [done|].
  case_bool_decide.
  - destruct (_first_available_dim st) as [b|]; [|done].
    case_bool_decide; [done|]. intros [= <-]. split_and!; [done|lia|done|].
    intros _. exists b. split; [done | lia].
  - intros [= <-]. split_and!; [done|lia|done|done].
Qed.

(** A request that names its dimension's name, misses and supplies no
    dimension: LOCAL and GLOBAL requests return the first free candidate at
    or below the boundary, and raise when that candidate is below
    [MAX_DIM], which is when no candidate from the boundary down to
    [MAX_DIM] is free. *)
Lemma request_fresh_dim st name dim n t :
  t ≠ VISIBLE →
  request_read st name dim = Ok (Some n, None, false, t) →
  ∃ frames d,
    conflict_frames st = Ok frames ∧
    first_free (dim_in_frames (heap st) frames) (default (-1) (_first_available_dim st)) d ∧
    (if bool_decide (MAX_DIM ≤ d)
     then ∃ st', request st name dim = Ok (Some n, Some d, st')
     else request st name dim = Raise (out_of_dims n)) ∧
    (request st name dim = Raise (out_of_dims n) ↔
     ∀ x, MAX_DIM ≤ x ≤ default (-1) (_first_available_dim st) →
          dim_in_frames (heap st) frames x = true).
Proof.
  intros Ht Hread. rewrite (request_miss _ _ _ _ _ _ Hread).
  apply request_read_Ok in Hread as (n0 & d0 & rf & _ & Hrf & _).
  apply read_frames_Ok in Hrf as (cur & glob & Hc & Hg & _).
  pose proof (conflict_frames_Ok _ _ _ Hc Hg) as Hcf.
  pose proof (search_free_first (heap st) ([cur; glob] ++ parents cur ++ iter_parents cur)
                (search_start st t)) as Hff.
  eexists _, _. split; [exact Hcf|].
  rewrite (gendim_named _ _ _ _ _ Hcf), (write_frames_Ok _ _ _ _ Hc Hg).
  assert (search_start st t = default (-1) (_first_available_dim st)) as Hs.
  { unfold search_start. by rewrite bool_decide_true. }
  rewrite Hs in *. split; [exact Hff|].
  destruct Hff as (Hfree & Hle & Hbusy).
  unfold validate. rewrite Hfree, (bool_decide_false (t = VISIBLE)) by done.
  set (d := search_free _ _ _) in *.
  destruct (decide (MAX_DIM ≤ d)) as [Hd|Hd].
  - rewrite (bool_decide_true (MAX_DIM ≤ d)), (bool_decide_false (d < MAX_DIM)) by lia.
    simpl. split; [eauto|].
    split; [done|]. intros Hall. rewrite Hall in Hfree by lia. done.
  - rewrite (bool_decide_false (MAX_DIM ≤ d)), (bool_decide_true (d < MAX_DIM)) by lia.
    simpl. split; [done|].
    split; [|done]. intros _ x Hx. apply Hbusy. lia.
Qed.

(** ** Requests without a name *)

(** C1: on a fresh [DimStack], whatever its boundary (it is [-1] as
    constructed, [None] when unset), the request [NameRequest(None, LOCAL)]
    with dimension [None] misses in the read frames and then raises a
    [TypeError]: [_gendim] builds the name from [-dim_request.dim] before a
    dimension has been chosen, and that dimension is [None].  No name
    ["_pyro_dim_1"] and no dimension [-1] are returned, and the allocator is
    left as it was, so a second request meets the same end. *)
Theorem fresh_unnamed_request_raises (boundary : option Z) :
  let st := mkDimStack [empty_dicts] [mkStackFrame 0%nat [] [] false] boundary None in
  request_read st (NameReq (mkNameRequest None LOCAL)) (DimVal None)
    = Ok (None, None, false, LOCAL) ∧
  request st (NameReq (mkNameRequest None LOCAL)) (DimVal None) = Raise TypeError.
Proof. split; reflexivity. Qed.

(** With the dimensions supplied the names of the scenario do come out. *)
Lemma fresh_unnamed_request_with_dim :
  ∃ st1 st2,
    request DimStack_init (NameReq (mkNameRequest None LOCAL)) (DimVal (Some (-1)))
      = Ok (Some "_pyro_dim_1", Some (-1), st1) ∧
    request st1 (NameReq (mkNameRequest None LOCAL)) (DimVal (Some (-2)))
      = Ok (Some "_pyro_dim_2", Some (-2), st2).
Proof. eexists _, _. split; vm_compute; reflexivity. Qed.

(** C2: a GLOBAL request on a fresh [DimStack] that supplies neither a name
    nor a dimension misses, dimension [-1] is free in every conflict frame,
    and yet the request returns no dimension: it raises a [TypeError], not
    the error of [_gendim] for exhausted dimensions. *)
Theorem unnamed_request_no_dim_raises :
  request_read DimStack_init (NameReq (mkNameRequest None GLOBAL)) (DimVal None)
    = Ok (None, None, false, GLOBAL) ∧
  (∃ frames, conflict_frames DimStack_init = Ok frames ∧
     first_free (dim_in_frames (heap DimStack_init) frames) (-1) (-1) ∧ MAX_DIM ≤ -1) ∧
  request DimStack_init (NameReq (mkNameRequest None GLOBAL)) (DimVal None)
    = Raise TypeError.
Proof.
  split; [reflexivity|]. split; [|reflexivity].
  eexists. split; [reflexivity|]. split; [|done].
  split; [reflexivity|]. split; [done | intros x Hx; lia].
Qed.

(** C10: a request that misses and has no name builds the name from the
    dimension that the request carries, before any dimension is looked
    for.  With no dimension the negation raises a [TypeError], whatever the
    frames hold.  With dimension [d] the name is ["_pyro_dim_"] followed by
    [-d], and no search is run: the request returns that name with [d]
    itself and writes the pair to the write frames, exactly when [d] is
    not below [MAX_DIM], no conflict frame holds [d] and, for a VISIBLE
    request, [d] lies above the boundary; otherwise it raises the error
    for exhausted dimensions, whose message carries the same name (a
    [TypeError] when a VISIBLE request finds no boundary set). *)
Theorem unnamed_request_name st name dim d0 t :
  request_read st name dim = Ok (None, d0, false, t) →
  ∃ frames wframes,
    conflict_frames st = Ok frames ∧
    write_frames st t = Ok wframes ∧
    match d0 with
    | Some d =>
        let fresh_name := "_pyro_dim_" +:+ pretty (- d) in
        let granted :=
          Ok (Some fresh_name, Some d,
              set_heap st (foldl (write_frame fresh_name d) (heap st) wframes)) in
        request st name dim =
          if bool_decide (d < MAX_DIM) || dim_in_frames (heap st) frames d
          then Raise (out_of_dims fresh_name)
          else if bool_decide (t = VISIBLE) then
            match _first_available_dim st with
            | Some b => if bool_decide (d ≤ b) then Raise (out_of_dims fresh_name)
                        else granted
            | None => Raise TypeError
            end
          else granted
    | None => request st name dim = Raise TypeError
    end.
Proof.
  intros Hread. rewrite (request_miss _ _ _ _ _ _ Hread).
  apply request_read_Ok in Hread as (n0 & d1 & rf & _ & Hrf & _).
  apply read_frames_Ok in Hrf as (cur & glob & Hc & Hg & _).
  pose proof (conflict_frames_Ok _ _ _ Hc Hg) as Hcf.
  pose proof (write_frames_Ok st t _ _ Hc Hg) as Hwf.
  set (wframes := if bool_decide (t ≠ LOCAL) then _ else _) in Hwf. clearbody wframes.
  exists ([cur; glob] ++ parents cur ++ iter_parents cur), wframes.
  split; [exact Hcf|]. split; [exact Hwf|].
  destruct d0 as [d|]; [|reflexivity].
  rewrite (gendim_unnamed _ _ _ _ Hcf), Hwf.
  unfold validate. cbn zeta.
  destruct (decide (d < MAX_DIM)) as [Hd|Hd].
  { by rewrite (bool_decide_true (d < MAX_DIM)) by done. }
  rewrite (bool_decide_false (d < MAX_DIM)) by done. cbn [orb].
  destruct (dim_in_frames _ _ d); [reflexivity|].
  destruct (decide (t = VISIBLE)) as [Ht|Ht].
  - rewrite (bool_decide_true (t = VISIBLE)) by done.
    destruct (_first_available_dim st) as [b|]; [|reflexivity].
    destruct (decide (d ≤ b)).
    + by rewrite (bool_decide_true (d ≤ b)) by done.
    + by rewrite (bool_decide_false (d ≤ b)) by done.
  - by rewrite (bool_decide_false (t = VISIBLE)) by done.
Qed.

Lemma unnamed_request_name_witness :
  request_read DimStack_init (NameReq (mkNameRequest None LOCAL)) (DimVal (Some (-3)))
    = Ok (None, Some (-3), false, LOCAL) ∧
  request DimStack_init (NameReq (mkNameRequest None LOCAL)) (DimVal (Some (-3)))
    = Ok (Some "_pyro_dim_3", Some (-3),
          mkDimStack [mkDicts [("_pyro_dim_3", -3)] [(-3, "_pyro_dim_3")]]
            [mkStackFrame 0%nat [] [] false] (Some (-1)) None).
Proof.
  split; [reflexivity|].
  destruct (unnamed_request_name DimStack_init (NameReq (mkNameRequest None LOCAL))
              (DimVal (Some (-3))) (Some (-3)) LOCAL eq_refl)
    as (frames & wframes & Hcf & Hwf & Hreq).
  injection Hcf as <-. injection Hwf as <-. exact Hreq.
Defined.

(** ** VISIBLE requests *)

(** C3, as the code has it: a VISIBLE request that names its dimension's
    name, misses and supplies no dimension searches from [-1] downwards for
    the first dimension that no conflict frame holds, and succeeds with it
    when it lies above the boundary [_first_available_dim] and not below
    [MAX_DIM]; otherwise it raises the error for exhausted dimensions.  With
    the boundary at [-2] this leaves only [-1]: the request fails when a
    conflict frame holds [-1] and returns [-1] when none does. *)
Theorem visible_request_dim st name dim n b :
  request_read st name dim = Ok (Some n, None, false, VISIBLE) →
  _first_available_dim st = Some b →
  ∃ frames d,
    conflict_frames st = Ok frames ∧
    first_free (dim_in_frames (heap st) frames) (-1) d ∧
    (if bool_decide (MAX_DIM ≤ d ∧ b < d)
     then ∃ st', request st name dim = Ok (Some n, Some d, st')
     else request st name dim = Raise (out_of_dims n)) ∧
    (b = -2 →
     if dim_in_frames (heap st) frames (-1)
     then request st name dim = Raise (out_of_dims n)
     else ∃ st', request st name dim = Ok (Some n, Some (-1), st')).
Proof.
  intros Hread Hb. rewrite (request_miss _ _ _ _ _ _ Hread).
  apply request_read_Ok in Hread as (n0 & d0 & rf & _ & Hrf & _).
  apply read_frames_Ok in Hrf as (cur & glob & Hc & Hg & _).
  pose proof (conflict_frames_Ok _ _ _ Hc Hg) as Hcf.
  pose proof (search_free_first (heap st) ([cur; glob] ++ parents cur ++ iter_parents cur)
                (search_start st VISIBLE)) as Hff.
  eexists _, _. split; [exact Hcf|].
  rewrite (gendim_named _ _ _ _ _ Hcf), (write_frames_Ok _ _ _ _ Hc Hg).
  change (search_start st VISIBLE) with (-1) in *.
  split; [exact Hff|].
  destruct Hff as (Hfree & Hle & Hbusy).
  set (d := search_free _ _ _) in *.
  assert (validate st ([cur; glob] ++ parents cur ++ iter_parents cur) VISIBLE n d
          = if bool_decide (MAX_DIM ≤ d ∧ b < d) then Ok (n, d) else Raise (out_of_dims n))
    as ->.
  { unfold validate. rewrite Hfree, Hb, (bool_decide_true (VISIBLE = VISIBLE)) by done.
    unfold MAX_DIM in *. repeat case_bool_decide; try done; lia. }
  split.
  - case_bool_decide; simpl; eauto.
  - intros ->. destruct (dim_in_frames _ _ (-1)) eqn:H1.
    + rewrite (bool_decide_false (MAX_DIM ≤ d ∧ -2 < d)); [reflexivity|].
      intros [_ ?]. assert (d = -1) as Hd by lia. rewrite Hd in Hfree. congruence.
    + assert (d = -1) as ->.
      { destruct (decide (d = -1)); [done|]. rewrite Hbusy in H1 by lia. done. }
      rewrite (bool_decide_true (MAX_DIM ≤ -1 ∧ -2 < -1)) by (unfold MAX_DIM; lia).
      simpl. eauto.
Qed.

Lemma visible_request_dim_witness :
  request_read stack_boundary_2 (NameVal (Some "i")) (DimReq (mkDimRequest None VISIBLE))
    = Ok (Some "i", None, false, VISIBLE) ∧
  _first_available_dim stack_boundary_2 = Some (-2) ∧
  ∃ frames d,
    conflict_frames stack_boundary_2 = Ok frames ∧
    first_free (dim_in_frames (heap stack_boundary_2) frames) (-1) d ∧
    (if bool_decide (MAX_DIM ≤ d ∧ -2 < d)
     then ∃ st', request stack_boundary_2 (NameVal (Some "i"))
                   (DimReq (mkDimRequest None VISIBLE)) = Ok (Some "i", Some d, st')
     else request stack_boundary_2 (NameVal (Some "i"))
            (DimReq (mkDimRequest None VISIBLE)) = Raise (out_of_dims "i")) ∧
    (-2 = -2 →
     if dim_in_frames (heap stack_boundary_2) frames (-1)
     then request stack_boundary_2 (NameVal (Some "i"))
            (DimReq (mkDimRequest None VISIBLE)) = Raise (out_of_dims "i")
     else ∃ st', request stack_boundary_2 (NameVal (Some "i"))
                   (DimReq (mkDimRequest None VISIBLE)) = Ok (Some "i", Some (-1), st')).
Proof.
  split; [reflexivity|]. split; [reflexivity|].
  exact (visible_request_dim stack_boundary_2 (NameVal (Some "i"))
           (DimReq (mkDimRequest None VISIBLE)) "i" (-2) eq_refl eq_refl).
Defined.

(** With the boundary moved to [-3] and [-1] taken by the VISIBLE name
    ["j"], the VISIBLE request for ["i"] is given [-2]. *)
Lemma visible_request_below_minus_one : ¬ visible_only_minus_one.
Proof.
  intros Hclaim.
  destruct (set_first_available_dim DimStack_init (Some (-3))) as [[old st0]|] eqn:E0;
    [|discriminate].
  destruct (request st0 (NameVal (Some "j")) (DimReq (mkDimRequest None VISIBLE)))
    as [[[nj dj] st1]|] eqn:E1; [|vm_compute in E0; injection E0 as <- <-; discriminate].
  vm_compute in E0. injection E0 as <- <-.
  vm_compute in E1. injection E1 as <- <- <-.
  specialize (Hclaim
    (mkDimStack [mkDicts [("j", -1)] [(-1, "j")]] [mkStackFrame 0%nat [] [] false]
       (Some (-3)) None)
    (NameVal (Some "i")) (DimReq (mkDimRequest None VISIBLE)) "i" (-2)).
  specialize (Hclaim _ eq_refl eq_refl). discriminate.
Qed.

(** ** The frames a request writes *)

Lemma write_write c n d : write (write c n d) n d = write c n d.
Proof. unfold write. simpl. by rewrite !od_set_set. Qed.

Lemma fmap_write_write n d (o : option Dicts) :
  (λ c, write c n d) <$> ((λ c, write c n d) <$> o) = (λ c, write c n d) <$> o.
Proof. destruct o as [c|]; [|done]. cbn. by rewrite write_write. Qed.

Lemma foldl_write_frame_lookup n d frames : ∀ (h : list Dicts) (l : loc),
  foldl (write_frame n d) h frames !! l =
    if bool_decide (l ∈ dicts <$> frames)
    then (λ c, write c n d) <$> h !! l
    else h !! l.
Proof.
  induction frames as [|f frames IH]; intros h l.
  - done.
  - cbn [foldl]. rewrite IH, fmap_cons. unfold write_frame.
    destruct (decide (l = dicts f)) as [->|Hne].
    + rewrite list_lookup_alter_eq.
      rewrite (bool_decide_true (dicts f ∈ dicts f :: _)) by left.
      case_bool_decide; [|done].
      apply fmap_write_write.
    + rewrite list_lookup_alter_ne by done.
      apply (f_equal (λ b : bool, if b then _ else _)).
      apply bool_decide_ext. rewrite elem_of_cons. tauto.
Qed.

Lemma foldl_write_frame_length n d frames : ∀ h : list Dicts,
  length (foldl (write_frame n d) h frames) = length h.
Proof.
  induction frames as [|f frames IH]; intros h; simpl; [done|].
  rewrite IH. unfold write_frame. apply length_alter.
Qed.

(** What a request that misses and succeeds returns and leaves behind. *)
Lemma request_miss_Ok st name dim n0 d0 t rn rd st' :
  request_read st name dim = Ok (n0, d0, false, t) →
  request st name dim = Ok (rn, rd, st') →
  ∃ cur glob n d,
    current_frame st = Ok cur ∧ global_frame st = Ok glob ∧
    rn = Some n ∧ rd = Some d ∧
    _gendim st (mkNameRequest n0 t) (mkDimRequest d0 t) = Ok (n, d) ∧
    st' = set_heap st
            (foldl (write_frame n d) (heap st)
               (if bool_decide (t ≠ LOCAL) then [glob]
                else [cur] ++ (if keep cur then parents cur else []))).
Proof.
  intros Hread Hreq. rewrite (request_miss _ _ _ _ _ _ Hread) in Hreq.
  apply request_read_Ok in Hread as (? & ? & rf & _ & Hrf & _).
  apply read_frames_Ok in Hrf as (cur & glob & Hc & Hg & _).
  rewrite (write_frames_Ok _ _ _ _ Hc Hg) in Hreq.
  apply bind_Ok_inv in Hreq as ([n d] & Hgen & Hreq).
  simpl in Hreq. injection Hreq as <- <- <-.
  exists cur, glob, n, d. done.
Qed.

(** C5: a request that misses and binds a fresh pair [(n, d)] writes it to
    the dictionaries of the global frame when it is GLOBAL or VISIBLE, and
    to those of the current frame when it is LOCAL, and then also to those
    of the parents of the current frame exactly when the current frame has
    [keep] set; every other pair of dictionaries in the store is left as it
    was, and so are the stack, the boundary and the owner. *)
Theorem request_write_set st name dim n0 d0 t n d st' :
  request_read st name dim = Ok (n0, d0, false, t) →
  request st name dim = Ok (Some n, Some d, st') →
  ∃ cur glob,
    current_frame st = Ok cur ∧ global_frame st = Ok glob ∧
    _stack st' = _stack st ∧
    _first_available_dim st' = _first_available_dim st ∧
    outermost st' = outermost st ∧
    length (heap st') = length (heap st) ∧
    ∀ l : loc,
      heap st' !! l =
        if bool_decide
             (l ∈ match t with
                  | LOCAL => dicts cur :: (if keep cur then dicts <$> parents cur else [])
                  | GLOBAL | VISIBLE => [dicts glob]
                  end)
        then (λ c, write c n d) <$> heap st !! l
        else heap st !! l.
Proof.
  intros Hread Hreq.
  destruct (request_miss_Ok _ _ _ _ _ _ _ _ _ Hread Hreq)
    as (cur & glob & n' & d' & Hc & Hg & [= <-] & [= <-] & _ & ->).
  exists cur, glob. split_and!; try done.
  - simpl. apply foldl_write_frame_length.
  - intros l. simpl. rewrite foldl_write_frame_lookup.
    apply (f_equal (λ b : bool, if b then _ else _)), bool_decide_ext.
    destruct t; simpl; [|done..].
    by destruct (keep cur).
Qed.

(** ** Frames whose two dictionaries agree *)

Lemma inverse_empty : inverse empty_dicts.
Proof. intros n d. simpl. split; discriminate. Qed.

Lemma write_inverse c n d :
  inverse c →
  od_get (name_to_dim c) n = None → od_get (dim_to_name c) d = None →
  inverse (write c n d).
Proof.
  intros Hinv Hn Hd n' d'. unfold write. simpl. rewrite !od_get_set.
  destruct (decide (n = n')) as [<-|Hnn], (decide (d = d')) as [<-|Hdd].
  - done.
  - split; [intros [= ?]; done|]. intros H%Hinv. congruence.
  - split; [|intros [= ?]; done]. intros H%Hinv. congruence.
  - apply Hinv.
Qed.

Lemma free_inverse c n d :
  inverse c →
  od_get (name_to_dim c) n = Some d →
  inverse (free c n d).
Proof.
  intros Hinv Hn n' d'. unfold free. simpl. rewrite !od_get_pop.
  pose proof (proj1 (Hinv n d) Hn) as Hd.
  destruct (decide (n = n')) as [<-|Hnn], (decide (d = d')) as [<-|Hdd].
  - done.
  - split; [done|]. intros H%Hinv. congruence.
  - split; [|done]. intros H%Hinv. congruence.
  - apply Hinv.
Qed.

Lemma cell_inverse h f : Forall inverse h → inverse (cell h f).
Proof.
  intros Hall. unfold cell. destruct (h !! dicts f) as [c|] eqn:E; simpl.
  - by eapply Forall_lookup_1.
  - apply inverse_empty.
Qed.

(** A miss of the read loop hands the name and the dimension on unchanged,
    and neither is bound in any of the frames read. *)
Lemma read_miss c n0 d0 n d :
  read c n0 d0 = (n, d, false) →
  n = n0 ∧ d = d0 ∧
  (∀ x, n0 = Some x → od_get (name_to_dim c) x = None) ∧
  (∀ x, d0 = Some x → od_get (dim_to_name c) x = None).
Proof.
  unfold read. intros [= Hn Hd Hf]. apply orb_false_iff in Hf as [Hfn Hfd].
  assert (∀ x, n0 = Some x → od_get (name_to_dim c) x = None) as Hn0.
  { intros x ->. by apply od_mem_false. }
  assert (∀ x, d0 = Some x → od_get (dim_to_name c) x = None) as Hd0.
  { intros x ->. by apply od_mem_false. }
  split_and!; [| |done..].
  - destruct d0 as [x|]; [|done]. by rewrite (Hd0 x eq_refl) in Hn.
  - destruct n0 as [x|]; [|done]. by rewrite (Hn0 x eq_refl) in Hd.
Qed.

Lemma read_loop_miss h frames : ∀ n0 d0 n d,
  read_loop h frames n0 d0 = (n, d, false) →
  n = n0 ∧ d = d0 ∧
  ∀ f, f ∈ frames →
    (∀ x, n0 = Some x → od_get (name_to_dim (cell h f)) x = None) ∧
    (∀ x, d0 = Some x → od_get (dim_to_name (cell h f)) x = None).
Proof.
  induction frames as [|f0 frames IH]; intros n0 d0 n d; cbn [read_loop].
  - intros [= <- <-]. split_and!; [done..|]. by intros f ?%elem_of_nil.
  - destruct (read (cell h f0) n0 d0) as [[n' d'] found] eqn:E.
    destruct found; [intros [=]|].
    apply read_miss in E as (-> & -> & Hn & Hd).
    intros (-> & -> & Hrest)%IH. split_and!; [done..|].
    intros f [->|Hin]%elem_of_cons; [done | by apply Hrest].
Qed.

Lemma dim_in_frames_false h frames d f :
  dim_in_frames h frames d = false → f ∈ frames →
  od_get (dim_to_name (cell h f)) d = None.
Proof.
  unfold dim_in_frames. induction frames as [|p frames IH]; simpl.
  - by intros _ ?%elem_of_nil.
  - intros [Hp Hr]%orb_false_iff [->|Hin]%elem_of_cons.
    + by apply od_mem_false.
    + by apply IH.
Qed.

(** The dictionaries of a frame after the fresh pair has been written. *)
Lemma cell_foldl_write n d h frames f :
  cell (foldl (write_frame n d) h frames) f = cell h f ∨
  (dicts f ∈ dicts <$> frames ∧
   cell (foldl (write_frame n d) h frames) f = write (cell h f) n d).
Proof.
  unfold cell. rewrite foldl_write_frame_lookup. case_bool_decide as Hin; [|by left].
  destruct (h !! dicts f) as [c|]; simpl; [by right | by left].
Qed.

Lemma cell_written n d h frames f :
  f ∈ frames → (dicts f < length h)%nat →
  cell (foldl (write_frame n d) h frames) f = write (cell h f) n d.
Proof.
  intros Hin Hlen. unfold cell. rewrite foldl_write_frame_lookup.
  rewrite bool_decide_true by (apply list_elem_of_fmap; eauto).
  destruct (h !! dicts f) as [c|] eqn:E; [done|].
  apply lookup_ge_None in E. lia.
Qed.

Lemma elem_of_dicts_fmap (l : loc) (frames : list StackFrame) :
  l ∈ dicts <$> frames → ∃ f, f ∈ frames ∧ dicts f = l.
Proof. intros (f & -> & Hin)%list_elem_of_fmap. eauto. Qed.

Lemma cell_same_dicts h f f' : dicts f = dicts f' → cell h f = cell h f'.
Proof. unfold cell. by intros ->. Qed.

(** Writing a pair whose name and dimension are free in every frame
    written, and whose dimension is free in all of [frames], keeps the
    dictionaries inverse and the dimensions of [frames] unique. *)
Lemma foldl_write_preserves n d h wframes frames :
  Forall inverse h → dims_unique h frames →
  (∀ f, f ∈ wframes → od_get (name_to_dim (cell h f)) n = None) →
  (∀ f, f ∈ wframes → od_get (dim_to_name (cell h f)) d = None) →
  (∀ f, f ∈ frames → od_get (dim_to_name (cell h f)) d = None) →
  Forall inverse (foldl (write_frame n d) h wframes) ∧
  dims_unique (foldl (write_frame n d) h wframes) frames.
Proof.
  intros Hinv Huniq Hwn Hwd Hfd. split.
  - apply Forall_lookup_2. intros l c'. rewrite foldl_write_frame_lookup.
    case_bool_decide as Hin.
    + destruct (h !! l) as [c|] eqn:E; [|done]. intros [= <-].
      apply elem_of_dicts_fmap in Hin as (f & Hf & Hl).
      assert (cell h f = c) as Hc by (unfold cell; by rewrite Hl, E).
      apply write_inverse.
      * by eapply Forall_lookup_1.
      * rewrite <- Hc. by apply Hwn.
      * rewrite <- Hc. by apply Hwd.
    + by eapply Forall_lookup_1.
  - assert (∀ f n1 x, f ∈ frames →
              od_get (name_to_dim (cell (foldl (write_frame n d) h wframes) f)) n1 = Some x →
              (n1 = n ∧ x = d) ∨ (x ≠ d ∧ od_get (name_to_dim (cell h f)) n1 = Some x))
      as Hcases.
    { intros f n1 x Hf Hget.
      assert (∀ y, od_get (name_to_dim (cell h f)) n1 = Some y → y ≠ d) as Hold.
      { intros y Hy ->. apply (cell_inverse h f Hinv) in Hy.
        rewrite (Hfd f Hf) in Hy. done. }
      destruct (cell_foldl_write n d h wframes f) as [Heq|[_ Heq]];
        rewrite Heq in Hget.
      - right. split; [by apply Hold | done].
      - unfold write in Hget. simpl in Hget. rewrite od_get_set in Hget.
        destruct (decide (n = n1)) as [<-|].
        + left. by injection Hget as <-.
        + right. split; [by apply Hold | done]. }
    intros f1 f2 n1 n2 x Hf1 Hf2 H1 H2.
    destruct (Hcases _ _ _ Hf1 H1) as [[-> ->]|[Hx1 Ho1]],
             (Hcases _ _ _ Hf2 H2) as [[-> Hx]|[Hx2 Ho2]]; try done.
    exact (Huniq f1 f2 n1 n2 x Hf1 Hf2 Ho1 Ho2).
Qed.

(** A request that supplies a name keeps the dictionaries of every frame
    inverse to each other and the dimensions of the conflict frames
    unique. *)
Lemma request_named_preserves st name dim n0 d0 t rn rd st' frames :
  unpack name dim = Ok (Some n0, d0, t) →
  request st name dim = Ok (rn, rd, st') →
  conflict_frames st = Ok frames →
  Forall inverse (heap st) → dims_unique (heap st) frames →
  Forall inverse (heap st') ∧ dims_unique (heap st') frames ∧
  conflict_frames st' = Ok frames.
Proof.
  intros Hun Hreq Hcf Hinv Huniq.
  destruct (request_read st name dim) as [[[[n d] found] t']|e] eqn:Hread;
    [|by unfold request in Hreq; rewrite Hread in Hreq].
  destruct found.
  { rewrite (request_hit _ _ _ _ _ _ Hread) in Hreq. by injection Hreq as <- <- <-. }
  destruct (request_miss_Ok _ _ _ _ _ _ _ _ _ Hread Hreq)
    as (cur & glob & n' & d' & Hc & Hg & -> & -> & Hgen & ->).
  apply request_read_Ok in Hread as (n1 & d1 & rf & Hun' & Hrf & Hloop).
  rewrite Hun in Hun'. injection Hun' as <- <- <-.
  apply read_loop_miss in Hloop as (-> & -> & Hmiss).
  apply read_frames_Ok in Hrf as (cur' & glob' & Hc' & Hg' & ->).
  rewrite Hc in Hc'. rewrite Hg in Hg'. injection Hc' as <-. injection Hg' as <-.
  rewrite (conflict_frames_Ok _ _ _ Hc Hg) in Hcf. injection Hcf as <-.
  rewrite (gendim_named _ _ _ _ _ (conflict_frames_Ok _ _ _ Hc Hg)) in Hgen.
  match type of Hgen with validate _ _ _ _ ?e = _ => set (dd := e) in * end.
  clearbody dd.
  apply validate_Ok in Hgen as ([= -> ->] & _ & Hfree & _).
  set (wframes := if bool_decide (t ≠ LOCAL) then [glob]
                  else [cur] ++ (if keep cur then parents cur else [])).
  assert (∀ f, f ∈ wframes →
            f ∈ (if bool_decide (t ≠ LOCAL) then [glob]
                 else [cur] ++ parents cur ++ iter_parents cur ++ [glob]) ∧
            f ∈ [cur; glob] ++ parents cur ++ iter_parents cur) as Hsub.
  { intros f. unfold wframes. case_bool_decide.
    - intros ->%list_elem_of_singleton. split; [left | right; left].
    - destruct (keep cur); simpl; rewrite ?app_nil_r.
      + intros [->|Hin]%elem_of_cons; [split; left|].
        split; right; [|right]; apply elem_of_app; by left.
      + intros ->%list_elem_of_singleton. split; left. }
  destruct (foldl_write_preserves n0 dd (heap st) wframes
              ([cur; glob] ++ parents cur ++ iter_parents cur)) as [Hi Hu];
    try done.
  - intros f Hf. apply Hsub in Hf as [Hf _]. exact (proj1 (Hmiss f Hf) n0 eq_refl).
  - intros f Hf. apply Hsub in Hf as [_ Hf]. exact (dim_in_frames_false _ _ _ _ Hfree Hf).
  - intros f Hf. exact (dim_in_frames_false _ _ _ _ Hfree Hf).
  - split; [exact Hi|]. split; [exact Hu|].
    unfold conflict_frames, current_frame, global_frame in *. simpl.
    destruct (last (_stack st)); [|done]. injection Hc as ->.
    destruct (_stack st); [done|]. by injection Hg as ->.
Qed.

(** ** Sequences of writes, frees and requests *)

Lemma request_Ok_cases st name dim rn rd st' :
  request st name dim = Ok (rn, rd, st') →
  (∃ t, request_read st name dim = Ok (rn, rd, true, t) ∧ st' = st) ∨
  (∃ n0 d0 t, request_read st name dim = Ok (n0, d0, false, t)).
Proof.
  intros Hreq.
  destruct (request_read st name dim) as [[[[n d] found] t]|e] eqn:Hread;
    [|by unfold request in Hreq; rewrite Hread in Hreq].
  destruct found; [|right; eauto].
  rewrite (request_hit _ _ _ _ _ _ Hread) in Hreq. injection Hreq as <- <- <-.
  left. eauto.
Qed.

Lemma request_stack st name dim rn rd st' :
  request st name dim = Ok (rn, rd, st') → _stack st' = _stack st.
Proof.
  intros Hreq. destruct (request_Ok_cases _ _ _ _ _ _ Hreq) as [(t & _ & ->)|(n0 & d0 & t & Hread)].
  - done.
  - by destruct (request_miss_Ok _ _ _ _ _ _ _ _ _ Hread Hreq)
      as (? & ? & ? & ? & _ & _ & _ & _ & _ & ->).
Qed.

Lemma conflict_frames_stack st st' :
  _stack st' = _stack st → conflict_frames st' = conflict_frames st.
Proof. unfold conflict_frames, current_frame, global_frame. by intros ->. Qed.

Lemma run_op_stack st o st' : run_op st o = Ok st' → _stack st' = _stack st.
Proof.
  destruct o as [i n d|i n d|name dim]; simpl; intros H.
  - apply bind_Ok_inv in H as (f & _ & [= <-]). done.
  - apply bind_Ok_inv in H as (f & _ & [= <-]). done.
  - apply bind_Ok_inv in H as ([[rn rd] st1] & Hreq & [= <-]).
    by eapply request_stack.
Qed.

Lemma free_frame_get n d h f f' n1 x :
  od_get (name_to_dim (cell (free_frame n d h f) f')) n1 = Some x →
  od_get (name_to_dim (cell h f')) n1 = Some x.
Proof.
  unfold cell, free_frame.
  destruct (decide (dicts f' = dicts f)) as [->|Hne].
  - rewrite list_lookup_alter_eq. destruct (h !! dicts f) as [c|]; simpl; [|done].
    rewrite od_get_pop. by case_decide.
  - by rewrite list_lookup_alter_ne.
Qed.

Lemma write_op_consistent st i n d st' :
  op_ok st (OpWrite i n d) = true →
  run_op st (OpWrite i n d) = Ok st' →
  frames_consistent st → frames_consistent st'.
Proof.
  simpl. intros Hok Hrun [Hinv Huniq].
  destruct (stack_frame st i) as [f|] eqn:Hf; [|done].
  simpl in Hrun. injection Hrun as <-.
  destruct (conflict_frames st) as [frames|] eqn:Hcf; [|done].
  apply andb_true_iff in Hok as [Hn Hd].
  apply negb_true_iff, od_mem_false in Hn. apply negb_true_iff in Hd.
  destruct (foldl_write_preserves n d (heap st) [f] frames) as [Hi Hu]; try done.
  - by apply Huniq.
  - by intros f' ->%list_elem_of_singleton.
  - intros f' ->%list_elem_of_singleton.
    apply (dim_in_frames_false _ _ _ _ Hd). left.
  - intros f' Hin. apply (dim_in_frames_false _ _ _ _ Hd). by right.
  - split; [exact Hi|]. intros frames'.
    rewrite (conflict_frames_stack st) by done. rewrite Hcf. by intros [= <-].
Qed.

Lemma free_op_consistent st i n d st' :
  op_ok st (OpFree i n d) = true →
  run_op st (OpFree i n d) = Ok st' →
  frames_consistent st → frames_consistent st'.
Proof.
  simpl. intros Hok Hrun [Hinv Huniq].
  destruct (stack_frame st i) as [f|] eqn:Hf; [|done].
  simpl in Hrun. injection Hrun as <-.
  apply bool_decide_eq_true in Hok. split.
  - simpl. unfold free_frame. apply Forall_alter; [done|].
    intros c Hc Hic. apply free_inverse; [done|].
    unfold cell in Hok. by rewrite Hc in Hok.
  - intros frames. rewrite (conflict_frames_stack st) by done. intros Hcf.
    intros f1 f2 n1 n2 x Hf1 Hf2 H1%free_frame_get H2%free_frame_get.
    by eapply (Huniq frames Hcf f1 f2).
Qed.

(** A request without a name that misses keeps both properties when no
    frame it writes to holds the name made up for its dimension. *)
Lemma request_unnamed_preserves st name dim d t rn rd st' frames wframes :
  request_read st name dim = Ok (None, Some d, false, t) →
  write_frames st t = Ok wframes →
  (∀ f, f ∈ wframes → od_get (name_to_dim (cell (heap st) f)) (synth_name d) = None) →
  request st name dim = Ok (rn, rd, st') →
  conflict_frames st = Ok frames →
  Forall inverse (heap st) → dims_unique (heap st) frames →
  Forall inverse (heap st') ∧ dims_unique (heap st') frames.
Proof.
  intros Hread Hwf Hname Hreq Hcf Hinv Huniq.
  destruct (request_miss_Ok _ _ _ _ _ _ _ _ _ Hread Hreq)
    as (cur & glob & n' & d' & Hc & Hg & -> & -> & Hgen & ->).
  rewrite (write_frames_Ok _ _ _ _ Hc Hg) in Hwf. injection Hwf as Hwf.
  cbn [heap set_heap app]. rewrite Hwf. clear Hread.
  rewrite (conflict_frames_Ok _ _ _ Hc Hg) in Hcf. injection Hcf as <-.
  rewrite (gendim_unnamed _ _ _ _ (conflict_frames_Ok _ _ _ Hc Hg)) in Hgen.
  apply validate_Ok in Hgen as ([= -> ->] & _ & Hfree & _).
  assert (∀ f, f ∈ wframes → f ∈ [cur; glob] ++ parents cur ++ iter_parents cur) as Hsub.
  { intros f. rewrite <- Hwf. case_bool_decide.
    - intros ->%list_elem_of_singleton. right; left.
    - destruct (keep cur); simpl; rewrite ?app_nil_r.
      + intros [->|Hin]%elem_of_cons; [left|].
        do 2 right. apply elem_of_app. by left.
      + intros ->%list_elem_of_singleton. left. }
  apply (foldl_write_preserves _ d (heap st) wframes); try done.
  - intros f Hf. exact (dim_in_frames_false _ _ _ _ Hfree (Hsub f Hf)).
  - intros f Hf. exact (dim_in_frames_false _ _ _ _ Hfree Hf).
Qed.

(** The frames that a request writes to are conflict frames. *)
Lemma write_frames_conflict st t cur glob wframes f :
  current_frame st = Ok cur → global_frame st = Ok glob →
  write_frames st t = Ok wframes → f ∈ wframes →
  f ∈ [cur; glob] ++ parents cur ++ iter_parents cur.
Proof.
  intros Hc Hg Hwf. rewrite (write_frames_Ok _ _ _ _ Hc Hg) in Hwf.
  injection Hwf as <-. case_bool_decide.
  - intros ->%list_elem_of_singleton. right; left.
  - destruct (keep cur); simpl; rewrite ?app_nil_r.
    + intros [->|Hin]%elem_of_cons; [left|].
      do 2 right. apply elem_of_app. by left.
    + intros ->%list_elem_of_singleton. left.
Qed.

(** The request that is left out does break the invariant whenever it
    returns: the name made up for its dimension moves to that dimension
    in [name_to_dim], while [dim_to_name] goes on giving the name to the
    dimension it had. *)
Lemma request_collision_breaks_inverse st name dim d t rn rd st' wframes f d_old :
  request_read st name dim = Ok (None, Some d, false, t) →
  write_frames st t = Ok wframes → f ∈ wframes →
  od_get (name_to_dim (cell (heap st) f)) (synth_name d) = Some d_old →
  Forall inverse (heap st) →
  request st name dim = Ok (rn, rd, st') →
  ¬ Forall inverse (heap st').
Proof.
  intros Hread Hwf Hf Hold Hinv Hreq Hinv'.
  destruct (request_miss_Ok _ _ _ _ _ _ _ _ _ Hread Hreq)
    as (cur & glob & n' & d' & Hc & Hg & -> & -> & Hgen & ->).
  pose proof (write_frames_conflict _ _ _ _ _ _ Hc Hg Hwf Hf) as Hfc.
  rewrite (write_frames_Ok _ _ _ _ Hc Hg) in Hwf. injection Hwf as Hwf.
  cbn [heap set_heap app] in Hinv'. rewrite Hwf in Hinv'.
  rewrite (gendim_unnamed _ _ _ _ (conflict_frames_Ok _ _ _ Hc Hg)) in Hgen.
  apply validate_Ok in Hgen as ([= -> ->] & _ & Hfree & _).
  pose proof (dim_in_frames_false _ _ _ _ Hfree Hfc) as Hd.
  pose proof (proj1 (cell_inverse _ f Hinv _ _) Hold) as Hold'.
  assert (d_old ≠ d) as Hne by (intros ->; congruence).
  assert ((dicts f < length (heap st))%nat) as Hlen.
  { unfold cell in Hold. destruct (heap st !! dicts f) as [c|] eqn:E; [|done].
    by eapply lookup_lt_Some. }
  pose proof (cell_inverse _ f Hinv' (synth_name d) d_old) as [_ Hback].
  rewrite cell_written in Hback by done.
  unfold write in Hback. cbn [name_to_dim dim_to_name] in Hback.
  rewrite od_get_set_eq, od_get_set_ne in Hback by done.
  specialize (Hback Hold'). congruence.
Qed.

Lemma request_op_consistent st name dim st' :
  op_ok st (OpRequest name dim) = true →
  run_op st (OpRequest name dim) = Ok st' →
  frames_consistent st → frames_consistent st'.
Proof.
  simpl. intros Hok Hrun [Hinv Huniq].
  apply bind_Ok_inv in Hrun as ([[rn rd] st1] & Hreq & [= ->]).
  pose proof (request_stack _ _ _ _ _ _ Hreq) as Hst.
  destruct (request_Ok_cases _ _ _ _ _ _ Hreq)
    as [(t & _ & ->)|(n1 & d1 & t & Hread)]; [done|].
  rewrite Hread in Hok.
  assert (∃ frames, conflict_frames st = Ok frames) as [frames Hcf].
  { pose proof Hread as Hread'.
    apply request_read_Ok in Hread' as (? & ? & rf & _ & Hrf & _).
    apply read_frames_Ok in Hrf as (cur & glob & Hc & Hg & _).
    eexists. by apply conflict_frames_Ok. }
  assert (Forall inverse (heap st') ∧ dims_unique (heap st') frames) as [Hi Hu].
  { destruct n1 as [n1|].
    - pose proof Hread as Hread'.
      apply request_read_Ok in Hread' as (n0 & d0 & rf & Hun & _ & Hloop).
      apply read_loop_miss in Hloop as (<- & <- & _).
      by destruct (request_named_preserves _ _ _ _ _ _ _ _ _ _ Hun Hreq Hcf Hinv
                     (Huniq _ Hcf)) as (? & ? & _).
    - destruct d1 as [d1|].
      + destruct (write_frames st t) as [wframes|] eqn:Hwf.
        * apply (request_unnamed_preserves st name dim d1 t rn rd st' frames wframes
                   Hread Hwf); [|done|done|done|by apply Huniq].
          intros f Hf. rewrite forallb_forall in Hok.
          apply od_mem_false, negb_true_iff, Hok. by apply list_elem_of_In.
        * destruct (request_miss_Ok _ _ _ _ _ _ _ _ _ Hread Hreq)
            as (cur & glob & _ & _ & Hc & Hg & _).
          by rewrite (write_frames_Ok _ _ _ _ Hc Hg) in Hwf.
      + rewrite (request_miss _ _ _ _ _ _ Hread) in Hreq.
        by rewrite (gendim_unnamed_no_dim st t) in Hreq. }
  split; [exact Hi|]. intros frames'.
  rewrite (conflict_frames_stack _ _ Hst), Hcf. by intros [= <-].
Qed.


Lemma DimStack_init_consistent : frames_consistent DimStack_init.
Proof.
  split.
  - apply Forall_singleton, inverse_empty.
  - intros frames _ f1 f2 n1 n2 d _ _ H1 _.
    assert (∀ f, cell (heap DimStack_init) f = empty_dicts) as Hcell.
    { intros f. unfold cell. simpl. by destruct (dicts f) as [|[|?]]. }
    rewrite Hcell in H1. done.
Qed.

(** C7, as the code has it: starting from frames whose dictionaries are
    inverse to each other and whose conflict set gives every dimension to
    one name only, both properties hold again after every sequence of
    writes of a name that the frame does not hold with a dimension that
    neither the frame nor the conflict set holds, of frees of a pair that
    the frame holds, and of requests, with or without a name; the one
    request that may not occur is a request without a name that misses
    while a frame it writes to holds the name made up for its dimension,
    which does break the invariant. *)
Theorem ok_sequences_keep_frames_consistent ops st st' :
  frames_consistent st →
  ops_ok st ops = true →
  run_ops ops st = Ok st' →
  frames_consistent st'.
Proof.
  unfold run_ops. revert st st'.
  induction ops as [|o ops IH]; intros st st' Hcons; simpl.
  - by intros _ [= <-].
  - intros [Hok Hrest]%andb_true_iff Hrun.
    apply bind_Ok_inv in Hrun as (st1 & Hrun1 & Hrun).
    rewrite Hrun1 in Hrest. apply (IH st1 st'); [|done..].
    destruct o; [by eapply write_op_consistent | by eapply free_op_consistent
                | by eapply request_op_consistent].
Qed.

Lemma ok_sequences_keep_frames_consistent_witness :
  frames_consistent DimStack_init ∧
  ops_ok DimStack_init sample_ops = true ∧
  run_ops sample_ops DimStack_init = Ok sample_ops_end ∧
  frames_consistent sample_ops_end.
Proof.
  split; [apply DimStack_init_consistent|].
  split; [vm_compute; reflexivity|].
  split; [vm_compute; reflexivity|].
  apply (ok_sequences_keep_frames_consistent sample_ops
           DimStack_init sample_ops_end DimStack_init_consistent);
    vm_compute; reflexivity.
Defined.

(** Two writes of one dimension under two names leave the dictionaries of
    the frame out of step. *)
Lemma writes_break_inverse :
  ∃ st, run_ops [OpWrite 0 "a" (-1); OpWrite 0 "b" (-1)] DimStack_init = Ok st ∧
        ¬ Forall inverse (heap st).
Proof.
  eexists. split; [vm_compute; reflexivity|].
  intros Hinv. cbn [heap] in Hinv. apply Forall_cons_1 in Hinv as [Hinv _].
  specialize (Hinv "a" (-1)).
  destruct Hinv as [Hinv _]. specialize (Hinv eq_refl). vm_compute in Hinv. discriminate.
Qed.

(** So do two requests, the second of which is given a name that
    [_gendim] builds and that the frame already holds. *)
Lemma requests_break_inverse :
  ∃ st, run_ops [ OpRequest (NameVal (Some "_pyro_dim_2")) (DimReq (mkDimRequest None LOCAL));
                  OpRequest (NameReq (mkNameRequest None LOCAL)) (DimVal (Some (-2))) ]
          DimStack_init = Ok st ∧
        ¬ Forall inverse (heap st).
Proof.
  eexists. split; [vm_compute; reflexivity|].
  intros Hinv. cbn [heap] in Hinv. apply Forall_cons_1 in Hinv as [Hinv _].
  specialize (Hinv "_pyro_dim_2" (-1)).
  destruct Hinv as [_ Hinv]. specialize (Hinv eq_refl). vm_compute in Hinv. discriminate.
Qed.

(** C7 as the specification words it fails: neither every sequence of
    writes nor every sequence of requests keeps the two dictionaries of a
    frame inverse to each other. *)
Lemma frames_not_always_consistent :
  ¬ consistent_after_every_sequence ∧
  (∃ ops st, Forall (λ o, match o with OpRequest _ _ => True | _ => False end) ops ∧
             run_ops ops DimStack_init = Ok st ∧ ¬ frames_consistent st).
Proof.
  split.
  - intros Hclaim. destruct writes_break_inverse as (st & Hrun & Hbad).
    by destruct (Hclaim _ _ Hrun) as [Hinv _].
  - destruct requests_break_inverse as (st & Hrun & Hbad).
    eexists _, st. split; [|split; [exact Hrun | by intros [Hinv _]]].
    by repeat constructor.
Qed.

(** ** DimStackCleanupMessenger *)

Lemma free_all_get_name items : ∀ c k,
  od_get (name_to_dim (free_all c items)) k =
    if decide (k ∈ items.*1) then None else od_get (name_to_dim c) k.
Proof.
  unfold free_all. induction items as [|[n d] items IH]; intros c k.
  - by rewrite decide_False by apply not_elem_of_nil.
  - cbn [foldl]. rewrite IH, fmap_cons. cbn [free name_to_dim dim_to_name fst snd].
    rewrite od_get_pop.
    destruct (decide (k ∈ items.*1)) as [Hin|Hnin].
    + by rewrite decide_True by (by right).
    + destruct (decide (n = k)) as [->|Hne].
      * by rewrite decide_True by left.
      * rewrite decide_False; [done|]. rewrite elem_of_cons. by intros [?|?].
Qed.

Lemma free_all_get_dim items : ∀ c k,
  od_get (dim_to_name (free_all c items)) k =
    if decide (k ∈ items.*2) then None else od_get (dim_to_name c) k.
Proof.
  unfold free_all. induction items as [|[n d] items IH]; intros c k.
  - by rewrite decide_False by apply not_elem_of_nil.
  - cbn [foldl]. rewrite IH, fmap_cons. cbn [free name_to_dim dim_to_name fst snd].
    rewrite od_get_pop.
    destruct (decide (k ∈ items.*2)) as [Hin|Hnin].
    + by rewrite decide_True by (by right).
    + destruct (decide (d = k)) as [->|Hne].
      * by rewrite decide_True by left.
      * rewrite decide_False; [done|]. rewrite elem_of_cons. by intros [?|?].
Qed.

Lemma od_get_all_None {K V} `{EqDecision K} (l : list (K * V)) :
  (∀ k, od_get l k = None) → l = [].
Proof.
  destruct l as [|[k v] l]; [done|]. intros H. specialize (H k).
  simpl in H. by rewrite decide_True in H.
Qed.

(** Freeing the items of [name_to_dim] empties [name_to_dim]. *)
Lemma free_all_names_empty c :
  name_to_dim (free_all c (reverse (name_to_dim c))) = [].
Proof.
  apply od_get_all_None. intros k. rewrite free_all_get_name.
  destruct (decide (k ∈ (reverse (name_to_dim c)).*1)) as [|Hnin]; [done|].
  apply od_get_None. by rewrite fmap_reverse, elem_of_reverse in Hnin.
Qed.

(** It empties [dim_to_name] too when the two dictionaries are inverse. *)
Lemma free_all_empty c :
  inverse c → free_all c (reverse (name_to_dim c)) = empty_dicts.
Proof.
  intros Hinv.
  assert (dim_to_name (free_all c (reverse (name_to_dim c))) = []) as Hd.
  { apply od_get_all_None. intros k. rewrite free_all_get_dim.
    destruct (decide (k ∈ (reverse (name_to_dim c)).*2)) as [|Hnin]; [done|].
    destruct (od_get (dim_to_name c) k) as [n|] eqn:E; [|done].
    apply Hinv, od_get_Some_elem in E. destruct Hnin.
    rewrite fmap_reverse, elem_of_reverse. apply list_elem_of_fmap. by exists (n, k). }
  pose proof (free_all_names_empty c) as Hn.
  destruct (free_all c (reverse (name_to_dim c))). simpl in *. by subst.
Qed.

(** The loop of [__exit__] that drains the global frame. *)
Lemma drain_loop glob items : ∀ saved (h : list Dicts),
  foldl (λ '(saved, h) '(name, dim),
           (saved ++ [(name, dim)], free_frame name dim h glob))
    (saved, h) items
  = (saved ++ items, alter (λ c, free_all c items) (dicts glob) h).
Proof.
  induction items as [|[n d] items IH]; intros saved h; simpl.
  - rewrite app_nil_r. f_equal. symmetry. by apply list_alter_id.
  - rewrite IH. rewrite <- app_assoc. simpl. f_equal.
    unfold free_frame. by rewrite list_alter_alter_eq.
Qed.

(** The loop of [__enter__] that restores the saved pairs. *)
Lemma restore_loop st glob saved : ∀ h : list Dicts,
  global_frame st = Ok glob →
  for_each (λ h '(name, dim),
              glob ← global_frame st; Ok (write_frame name dim h glob)) saved h
  = Ok (foldl (λ h '(name, dim), write_frame name dim h glob) h saved).
Proof.
  intros h Hg. rewrite Hg. revert h.
  induction saved as [|[n d] saved IH]; intros h; simpl; [done | apply IH].
Qed.

Lemma restore_as_alter glob items : ∀ h : list Dicts,
  foldl (λ h '(name, dim), write_frame name dim h glob) h items
  = alter (λ c, write_all c items) (dicts glob) h.
Proof.
  unfold write_all. induction items as [|[n d] items IH]; intros h; simpl.
  - symmetry. by apply list_alter_id.
  - rewrite IH. unfold write_frame. by rewrite list_alter_alter_eq.
Qed.








(** Without the premise that the dictionaries are inverse the drain still
    empties [name_to_dim], the dictionary it walks. *)
Lemma cleanup_drains_names self st glob :
  DimStackCleanupMessenger._ref_count self = 1 →
  outermost st = Some (DimStackCleanupMessenger.ident self) →
  global_frame st = Ok glob →
  ∃ self1 st1,
    DimStackCleanupMessenger.__exit__ self st = Ok (self1, st1) ∧
    name_to_dim (cell (heap st1) glob) = [].
Proof.
  intros Href Hown Hg.
  unfold DimStackCleanupMessenger.__exit__.
  rewrite Href, Hown, !bool_decide_true by done. cbn [andb].
  assert (global_frame (mkDimStack (heap st) (_stack st) (_first_available_dim st) None)
          = Ok glob) as -> by done.
  cbn [mbind result_bind heap]. rewrite drain_loop.
  eexists _, _. split; [reflexivity|]. cbn.
  unfold cell. rewrite list_lookup_alter_eq.
  destruct (heap st !! dicts glob) as [c|]; [|done]. apply free_all_names_empty.
Qed.

(** ** What the messengers do to the allocator *)

Lemma foldl_write_glob_lookup glob saved : ∀ (h : list Dicts) (l : loc),
  l ≠ dicts glob →
  foldl (λ h '(name, dim), write_frame name dim h glob) h saved !! l = h !! l.
Proof.
  induction saved as [|[n d] saved IH]; intros h l Hne; simpl; [done|].
  rewrite IH by done. unfold write_frame. by apply list_lookup_alter_ne.
Qed.

Lemma foldl_write_glob_length glob saved : ∀ h : list Dicts,
  length (foldl (λ h '(name, dim), write_frame name dim h glob) h saved) = length h.
Proof.
  induction saved as [|[n d] saved IH]; intros h; simpl; [done|].
  rewrite IH. unfold write_frame. apply length_alter.
Qed.

(** Entering or leaving a cleanup messenger changes neither the stack nor
    the boundary, nor any dictionaries but those of the global frame. *)
Lemma cleanup_enter_frame self st glob self1 st1 :
  global_frame st = Ok glob →
  DimStackCleanupMessenger.__enter__ self st = Ok (self1, st1) →
  _stack st1 = _stack st ∧
  _first_available_dim st1 = _first_available_dim st ∧
  length (heap st1) = length (heap st) ∧
  (∀ l : loc, l ≠ dicts glob → heap st1 !! l = heap st !! l) ∧
  DimStackCleanupMessenger._ref_count self1 = DimStackCleanupMessenger._ref_count self + 1 ∧
  DimStackCleanupMessenger.ident self1 = DimStackCleanupMessenger.ident self.
Proof.
  intros Hg. unfold DimStackCleanupMessenger.__enter__.
  destruct (_ && _).
  - rewrite (restore_loop _ glob) by done. cbn. intros [= <- <-]. cbn.
    split_and!; try done.
    + apply foldl_write_glob_length.
    + intros l Hne. by apply foldl_write_glob_lookup.
  - intros [= <- <-]. done.
Qed.

Lemma cleanup_exit_frame self st glob self1 st1 :
  global_frame st = Ok glob →
  DimStackCleanupMessenger.__exit__ self st = Ok (self1, st1) →
  _stack st1 = _stack st ∧
  _first_available_dim st1 = _first_available_dim st ∧
  length (heap st1) = length (heap st) ∧
  (∀ l : loc, l ≠ dicts glob → heap st1 !! l = heap st !! l) ∧
  DimStackCleanupMessenger._ref_count self1 = DimStackCleanupMessenger._ref_count self - 1 ∧
  DimStackCleanupMessenger.ident self1 = DimStackCleanupMessenger.ident self.
Proof.
  intros Hg. unfold DimStackCleanupMessenger.__exit__.
  destruct (_ && _).
  - assert (global_frame (mkDimStack (heap st) (_stack st) (_first_available_dim st) None)
            = Ok glob) as -> by done.
    cbn [mbind result_bind heap]. rewrite drain_loop. intros [= <- <-]. cbn.
    split_and!; try done.
    + apply length_alter.
    + intros l Hne. by apply list_lookup_alter_ne.
  - intros [= <- <-]. done.
Qed.

(** A re-entrant enter or exit of a cleanup messenger leaves the whole
    allocator as it is. *)
Lemma cleanup_reenter self st :
  DimStackCleanupMessenger._ref_count self ≠ 0 →
  DimStackCleanupMessenger.__enter__ self st
  = Ok (DimStackCleanupMessenger.super__enter__ self, st).
Proof.
  intros Href. unfold DimStackCleanupMessenger.__enter__.
  by rewrite (bool_decide_false (_ = 0)) by done.
Qed.

Lemma cleanup_reexit self st :
  DimStackCleanupMessenger._ref_count self ≠ 1 →
  DimStackCleanupMessenger.__exit__ self st
  = Ok (DimStackCleanupMessenger.super__exit__ self, st).
Proof.
  intros Href. unfold DimStackCleanupMessenger.__exit__.
  by rewrite (bool_decide_false (_ = 1)) by done.
Qed.

Lemma last_removelast {A} (l : list A) (x : A) :
  last l = Some x → l = removelast l ++ [x].
Proof.
  induction l as [|a l IH]; [done|]. destruct l as [|b l].
  - by intros [= ->].
  - intros H. cbn [removelast]. rewrite <- app_comm_cons. f_equal. by apply IH.
Qed.

Lemma removelast_snoc {A} (l : list A) (x : A) : removelast (l ++ [x]) = l.
Proof. apply removelast_last. Qed.

Lemma global_frame_push st glob frame h :
  global_frame st = Ok glob → global_frame (push (set_heap st h) frame) = Ok glob.
Proof. unfold global_frame. simpl. by destruct (_stack st). Qed.

Lemma current_frame_snoc st l frame :
  _stack st = l ++ [frame] → current_frame st = Ok frame.
Proof. unfold current_frame. intros ->. by rewrite last_snoc. Qed.

Lemma pop_Ok st frame st1 :
  pop st = Ok (frame, st1) →
  _stack st = _stack st1 ++ [frame] ∧ _stack st1 ≠ [] ∧
  heap st1 = heap st ∧ _first_available_dim st1 = _first_available_dim st ∧
  outermost st1 = outermost st.
Proof.
  unfold pop. case_bool_decide as Hlen; [|done].
  destruct (last (_stack st)) as [f|] eqn:Hlast; [|done].
  intros [= <- <-]. simpl. split_and!; try done.
  - by apply last_removelast.
  - apply last_removelast in Hlast. intros Hnil. rewrite Hlast, Hnil in Hlen.
    simpl in Hlen. lia.
Qed.

Lemma pop_push st frame h :
  _stack st ≠ [] →
  pop (push (set_heap st h) frame)
  = Ok (frame, mkDimStack h (_stack st) (_first_available_dim st) (outermost st)).
Proof.
  intros Hne. unfold pop, push. simpl.
  rewrite bool_decide_true.
  - by rewrite last_snoc, removelast_snoc.
  - rewrite length_app. simpl. destruct (_stack st); [done | simpl; lia].
Qed.

Lemma local_enter_Ok self st glob self1 st1 :
  global_frame st = Ok glob →
  LocalNamedMessenger.__enter__ self st = Ok (self1, st1) →
  ∃ frame,
    _stack st1 = _stack st ++ [frame] ∧
    dicts frame = enter_dicts self st ∧
    parents frame =
      reverse (py_slice_from (_stack st)
                 (Z.of_nat (length (_stack st)) - LocalNamedMessenger.history self)) ∧
    iter_parents frame = LocalNamedMessenger._iter_parents self ∧
    keep frame = LocalNamedMessenger.keep self ∧
    _first_available_dim st1 = _first_available_dim st ∧
    (length (heap st) ≤ length (heap st1))%nat ∧
    (LocalNamedMessenger.keep self = false ∨ LocalNamedMessenger._saved_frames self = [] →
     length (heap st1) = S (length (heap st))) ∧
    (∀ l : loc, l ≠ dicts glob → (l < length (heap st))%nat →
                heap st1 !! l = heap st !! l) ∧
    LocalNamedMessenger.keep self1 = LocalNamedMessenger.keep self ∧
    LocalNamedMessenger.history self1 = LocalNamedMessenger.history self ∧
    LocalNamedMessenger._iter_parents self1 = LocalNamedMessenger._iter_parents self ∧
    LocalNamedMessenger._saved_frames self1 =
      (if LocalNamedMessenger.keep self
       then removelast (LocalNamedMessenger._saved_frames self)
       else LocalNamedMessenger._saved_frames self) ∧
    DimStackCleanupMessenger._ref_count (LocalNamedMessenger.base self1) =
      DimStackCleanupMessenger._ref_count (LocalNamedMessenger.base self) + 1.
Proof.
  intros Hg. unfold LocalNamedMessenger.__enter__, enter_dicts.
  destruct (LocalNamedMessenger.keep self) eqn:Hkeep;
    [destruct (last (LocalNamedMessenger._saved_frames self)) as [sf|] eqn:Hlast|];
    intros H; apply bind_Ok_inv in H as ([b st'] & Hent & [= <- <-]);
    apply (cleanup_enter_frame _ _ glob) in Hent
      as (Hst & Hfa & Hlen & Hheap & Href & _);
    try (by apply global_frame_push);
    eexists; cbn in *; rewrite ?Hkeep.
  - split_and!; try done; try lia.
    + intros [?|Hnil]; [done|]. by rewrite Hnil in Hlast.
    + intros l Hne _. by apply Hheap.
  - rewrite length_app in Hlen. simpl in Hlen. split_and!; try done; try lia.
    + intros l Hne Hl. rewrite Hheap by done. by apply lookup_app_l.
    + destruct (LocalNamedMessenger._saved_frames self) as [|a l _] using rev_ind; [done|].
      by rewrite last_snoc in Hlast.
  - rewrite length_app in Hlen. simpl in Hlen. split_and!; try done; try lia.
    intros l Hne Hl. rewrite Hheap by done. by apply lookup_app_l.
Qed.

Lemma global_frame_pop st glob frame st1 :
  global_frame st = Ok glob → pop st = Ok (frame, st1) → global_frame st1 = Ok glob.
Proof.
  intros Hg (Hst & Hne & _)%pop_Ok. unfold global_frame in *. rewrite Hst in Hg.
  by destruct (_stack st1).
Qed.

Lemma local_exit_Ok self st glob self1 st1 :
  global_frame st = Ok glob →
  LocalNamedMessenger.__exit__ self st = Ok (self1, st1) →
  ∃ frame,
    _stack st = _stack st1 ++ [frame] ∧
    _stack st1 ≠ [] ∧
    _first_available_dim st1 = _first_available_dim st ∧
    length (heap st1) = length (heap st) ∧
    (∀ l : loc, l ≠ dicts glob → heap st1 !! l = heap st !! l) ∧
    LocalNamedMessenger.keep self1 = LocalNamedMessenger.keep self ∧
    LocalNamedMessenger.history self1 = LocalNamedMessenger.history self ∧
    LocalNamedMessenger._iter_parents self1 = LocalNamedMessenger._iter_parents self ∧
    LocalNamedMessenger._saved_frames self1 =
      (if LocalNamedMessenger.keep self
       then LocalNamedMessenger._saved_frames self
            ++ [mkStackFrame (dicts frame) [] [] true]
       else LocalNamedMessenger._saved_frames self) ∧
    DimStackCleanupMessenger._ref_count (LocalNamedMessenger.base self1) =
      DimStackCleanupMessenger._ref_count (LocalNamedMessenger.base self) - 1.
Proof.
  intros Hg. unfold LocalNamedMessenger.__exit__.
  destruct (LocalNamedMessenger.keep self) eqn:Hkeep; intros H;
    apply bind_Ok_inv in H as ([self' st'] & Hpop & H);
    apply bind_Ok_inv in Hpop as ([frame st''] & Hpop & [= <- <-]);
    apply bind_Ok_inv in H as ([b st2] & Hex & [= <- <-]);
    pose proof (global_frame_pop _ _ _ _ Hg Hpop) as Hg';
    apply pop_Ok in Hpop as (Hst & Hne & Hheap & Hfa & _);
    apply (cleanup_exit_frame _ _ glob) in Hex
      as (Hst2 & Hfa2 & Hlen & Hheap2 & Href & _); try done;
    exists frame; cbn in *; rewrite ?Hkeep, Hst2, <- ?Hheap;
    split_and!; try done; congruence.
Qed.

(** C8, as the code has it: a [LocalNamedMessenger] that is already
    entered pushes one more frame when it is entered again, and the exit
    that matches pops that frame, so that the two together leave the stack
    as it was.  Apart from the frame, and from the empty dictionaries made
    for it, the re-entrant enter and exit change nothing in the allocator:
    the owner, the boundary and the dictionaries in the store stay. *)
Theorem reentrant_enter_pushes_frame self st :
  1 ≤ DimStackCleanupMessenger._ref_count (LocalNamedMessenger.base self) →
  _stack st ≠ [] →
  ∃ self1 st1 frame,
    LocalNamedMessenger.__enter__ self st = Ok (self1, st1) ∧
    _stack st1 = _stack st ++ [frame] ∧
    outermost st1 = outermost st ∧
    _first_available_dim st1 = _first_available_dim st ∧
    (heap st1 = heap st ∨ heap st1 = heap st ++ [empty_dicts]) ∧
    DimStackCleanupMessenger._ref_count (LocalNamedMessenger.base self1) =
      DimStackCleanupMessenger._ref_count (LocalNamedMessenger.base self) + 1 ∧
    ∃ self2 st2,
      LocalNamedMessenger.__exit__ self1 st1 = Ok (self2, st2) ∧
      _stack st2 = _stack st ∧
      outermost st2 = outermost st ∧
      _first_available_dim st2 = _first_available_dim st ∧
      heap st2 = heap st1 ∧
      DimStackCleanupMessenger._ref_count (LocalNamedMessenger.base self2) =
        DimStackCleanupMessenger._ref_count (LocalNamedMessenger.base self).
Proof.
  intros Href Hne.
  unfold LocalNamedMessenger.__enter__, LocalNamedMessenger.__exit__.
  destruct (LocalNamedMessenger.keep self) eqn:Hkeep;
    [destruct (last (LocalNamedMessenger._saved_frames self)) as [sf|]|];
    cbn [LocalNamedMessenger.base LocalNamedMessenger.keep LocalNamedMessenger.set_base];
    rewrite cleanup_reenter by lia; cbn [mbind result_bind];
    eexists _, _, _; (split; [reflexivity|]);
    cbn [LocalNamedMessenger.base LocalNamedMessenger.keep LocalNamedMessenger.set_base];
    rewrite ?Hkeep, pop_push by done; cbn [mbind result_bind];
    cbn [LocalNamedMessenger.base LocalNamedMessenger.keep LocalNamedMessenger.set_base];
    rewrite cleanup_reexit by (cbn; lia); cbn [mbind result_bind];
    (split_and!; [done|done|done|auto|done|]);
    eexists _, _; (split; [reflexivity|]); cbn; split_and!; try done; lia.
Qed.

Lemma entered_once_reached :
  LocalNamedMessenger.__enter__ (LocalNamedMessenger.__init__ 1 1 false) DimStack_init
  = Ok (entered_once, stack_entered_once).
Proof. vm_compute. reflexivity. Qed.

Lemma reentrant_enter_pushes_frame_witness :
  1 ≤ DimStackCleanupMessenger._ref_count (LocalNamedMessenger.base entered_once) ∧
  _stack stack_entered_once ≠ [] ∧
  ∃ self1 st1 frame,
    LocalNamedMessenger.__enter__ entered_once stack_entered_once = Ok (self1, st1) ∧
    _stack st1 = _stack stack_entered_once ++ [frame] ∧
    ∃ self2 st2,
      LocalNamedMessenger.__exit__ self1 st1 = Ok (self2, st2) ∧
      _stack st2 = _stack stack_entered_once.
Proof.
  assert (1 ≤ DimStackCleanupMessenger._ref_count (LocalNamedMessenger.base entered_once))
    as Href by (simpl; lia).
  assert (_stack stack_entered_once ≠ []) as Hne by discriminate.
  split; [exact Href|]. split; [exact Hne|].
  destruct (reentrant_enter_pushes_frame entered_once stack_entered_once Href Hne)
    as (self1 & st1 & frame & Hent & Hst & _ & _ & _ & _ & self2 & st2 & Hex & Hst2 & _).
  exists self1, st1, frame. split; [exact Hent|]. split; [exact Hst|].
  exists self2, st2. split; [exact Hex | exact Hst2].
Defined.

(** The second enter of [entered_once] makes the stack three frames long. *)
Lemma reentrant_enter_changes_stack : ¬ reentrant_enter_keeps_stack.
Proof.
  intros Hclaim.
  destruct (LocalNamedMessenger.__enter__ entered_once stack_entered_once)
    as [[self1 st1]|] eqn:E; [|vm_compute in E; discriminate].
  assert (1 ≤ DimStackCleanupMessenger._ref_count (LocalNamedMessenger.base entered_once))
    as Href by (simpl; lia).
  pose proof (Hclaim _ _ _ _ Href E) as Hst.
  vm_compute in E. injection E as <- <-. discriminate.
Qed.

(** Every enter pushes a frame, also the one that takes the ref-count from
    0 to 1, and every exit pops one. *)
Lemma local_enter_pushes self st glob self1 st1 :
  global_frame st = Ok glob →
  LocalNamedMessenger.__enter__ self st = Ok (self1, st1) →
  ∃ frame, _stack st1 = _stack st ++ [frame].
Proof.
  intros Hg Hent. destruct (local_enter_Ok _ _ _ _ _ Hg Hent) as (frame & Hst & _).
  eauto.
Qed.

Lemma local_exit_pops self st glob self1 st1 :
  global_frame st = Ok glob →
  LocalNamedMessenger.__exit__ self st = Ok (self1, st1) →
  ∃ frame, _stack st = _stack st1 ++ [frame].
Proof.
  intros Hg Hex. destruct (local_exit_Ok _ _ _ _ _ Hg Hex) as (frame & Hst & _).
  eauto.
Qed.

Lemma request_write_set_witness :
  request_read stack_entered_once (NameVal (Some "x")) (DimReq (mkDimRequest None LOCAL))
    = Ok (Some "x", None, false, LOCAL) ∧
  request stack_entered_once (NameVal (Some "x")) (DimReq (mkDimRequest None LOCAL))
    = Ok (Some "x", Some (-1),
          mkDimStack [empty_dicts; mkDicts [("x", -1)] [(-1, "x")]]
            (_stack stack_entered_once) (Some (-1)) (Some 1%nat)) ∧
  ∃ cur glob,
    current_frame stack_entered_once = Ok cur ∧
    global_frame stack_entered_once = Ok glob ∧
    ∀ l : loc,
      [empty_dicts; mkDicts [("x", -1)] [(-1, "x")]] !! l =
        if bool_decide (l ∈ dicts cur :: (if keep cur then dicts <$> parents cur else []))
        then (λ c, write c "x" (-1)) <$> heap stack_entered_once !! l
        else heap stack_entered_once !! l.
Proof.
  split; [reflexivity|]. split; [vm_compute; reflexivity|].
  destruct (request_write_set stack_entered_once (NameVal (Some "x"))
              (DimReq (mkDimRequest None LOCAL)) (Some "x") None LOCAL "x" (-1)
              (mkDimStack [empty_dicts; mkDicts [("x", -1)] [(-1, "x")]]
                 (_stack stack_entered_once) (Some (-1)) (Some 1%nat))
              eq_refl eq_refl)
    as (cur & glob & Hc & Hg & _ & _ & _ & _ & Hheap).
  exists cur, glob. split; [exact Hc|]. split; [exact Hg | exact Hheap].
Defined.

(** ** Replay of a keep messenger *)

Lemma global_frame_snoc st st' glob frame :
  global_frame st = Ok glob → _stack st' = _stack st ++ [frame] →
  global_frame st' = Ok glob.
Proof. unfold global_frame. intros Hg ->. by destruct (_stack st). Qed.

Lemma global_frame_same_stack st st' :
  _stack st' = _stack st → global_frame st' = global_frame st.
Proof. unfold global_frame. by intros ->. Qed.




(** ** Iteration parents *)

Lemma iter_depth_unfold p :
  LocalNamedMessenger.iter_depth p = S (max_depth (iter_parents p)).
Proof. by destruct p. Qed.

Lemma elem_of_next_frontier q frontier :
  q ∈ LocalNamedMessenger.next_frontier frontier ↔
  ∃ p, p ∈ frontier ∧ iter_parent p q.
Proof.
  unfold LocalNamedMessenger.next_frontier, iter_parent.
  induction frontier as [|p0 frontier IH]; simpl.
  - split; [by intros ?%elem_of_nil | by intros (p & ?%elem_of_nil & _)].
  - rewrite elem_of_app, IH. split.
    + intros [Hq|(p & Hp & Hq)]; [exists p0; split; [left | done]|].
      exists p. split; [by right | done].
    + intros (p & [->|Hp]%elem_of_cons & Hq); [by left | right; eauto].
Qed.

Lemma max_depth_app l1 l2 : max_depth (l1 ++ l2) = Nat.max (max_depth l1) (max_depth l2).
Proof. unfold max_depth. induction l1 as [|p l1 IH]; simpl; [done | lia]. Qed.

Lemma max_depth_next_frontier frontier :
  (max_depth (LocalNamedMessenger.next_frontier frontier) ≤ pred (max_depth frontier))%nat.
Proof.
  unfold LocalNamedMessenger.next_frontier.
  induction frontier as [|p frontier IH]; simpl; [done|].
  rewrite max_depth_app, iter_depth_unfold. fold (max_depth frontier). lia.
Qed.

Lemma max_depth_0 frontier : max_depth frontier = O → frontier = [].
Proof.
  destruct frontier as [|p frontier]; [done|]. simpl.
  rewrite iter_depth_unfold. lia.
Qed.

(** The loop ends because its frontier is empty, not because the fuel of
    the model is used up. *)
Lemma frontier_at_depth k : ∀ frontier,
  (max_depth frontier ≤ k)%nat → frontier_at k frontier = [].
Proof.
  induction k as [|k IH]; intros frontier Hd; simpl.
  - apply max_depth_0. lia.
  - apply IH. pose proof (max_depth_next_frontier frontier). lia.
Qed.

Lemma frontier_at_nil k : frontier_at k [] = [].
Proof. induction k; simpl; auto. Qed.

Lemma elem_of_frontier_at q k : ∀ frontier,
  q ∈ frontier_at k frontier ↔ ∃ p, p ∈ frontier ∧ nsteps iter_parent k p q.
Proof.
  induction k as [|k IH]; intros frontier; simpl.
  - split.
    + intros Hq. exists q. split; [done | constructor].
    + intros (p & Hp & Hn). by inversion Hn; subst.
  - rewrite IH. split.
    + intros (p' & (p & Hp & Hpp')%elem_of_next_frontier & Hn).
      exists p. split; [done | by econstructor].
    + intros (p & Hp & Hn). inversion Hn as [|? ? p' ? Hpp' Hn']; subst.
      exists p'. split; [|done]. apply elem_of_next_frontier. eauto.
Qed.

Lemma elem_of_iter_parents_loop q fuel : ∀ acc frontier,
  q ∈ LocalNamedMessenger.iter_parents_loop fuel acc frontier ↔
  q ∈ acc ∨ ∃ k, (1 ≤ k ≤ fuel)%nat ∧ q ∈ frontier_at k frontier.
Proof.
  induction fuel as [|fuel IH]; intros acc frontier; simpl.
  - split; [by left|]. intros [?|(k & ? & _)]; [done | lia].
  - destruct frontier as [|p frontier].
    + split; [by left|]. intros [?|(k & _ & Hk)]; [done|].
      rewrite frontier_at_nil in Hk. by apply elem_of_nil in Hk.
    + rewrite IH, elem_of_app. split.
      * intros [[?|Hq]|(k & Hk & Hq)]; [by left| |].
        -- right. exists 1%nat. split; [lia | done].
        -- right. exists (S k). split; [lia | done].
      * intros [?|(k & Hk & Hq)]; [by left; left|].
        destruct k as [|[|k]]; [lia| |].
        -- left. by right.
        -- right. exists (S k). split; [lia | done].
Qed.

Lemma elem_of_get_iter_parents frame q :
  q ∈ LocalNamedMessenger._get_iter_parents frame ↔ rtc iter_parent frame q.
Proof.
  unfold LocalNamedMessenger._get_iter_parents.
  rewrite elem_of_iter_parents_loop, rtc_nsteps. split.
  - intros [->%list_elem_of_singleton|(k & _ & Hq)].
    + exists O. constructor.
    + apply elem_of_frontier_at in Hq as (p & ->%list_elem_of_singleton & Hn). eauto.
  - intros (k & Hn). destruct k as [|k].
    + inversion Hn; subst. left. by apply list_elem_of_singleton.
    + right. exists (S k).
      assert (q ∈ frontier_at (S k) [frame]) as Hq.
      { apply elem_of_frontier_at. exists frame. split; [by apply list_elem_of_singleton | done]. }
      split; [|done]. split; [lia|].
      destruct (decide (S k ≤ LocalNamedMessenger.iter_depth frame)%nat); [done|].
      rewrite frontier_at_depth in Hq; [by apply elem_of_nil in Hq|].
      simpl. lia.
Qed.

Lemma cleanup_enter_stack self st self1 st1 :
  DimStackCleanupMessenger.__enter__ self st = Ok (self1, st1) →
  _stack st1 = _stack st.
Proof.
  unfold DimStackCleanupMessenger.__enter__. destruct (_ && _).
  - intros H. apply bind_Ok_inv in H as (h & _ & [= _ <-]). done.
  - by intros [= _ <-].
Qed.

(** The frame that [__enter__] pushes carries the iteration parents that
    the messenger has recorded, and entering does not touch the record. *)
Lemma local_enter_iter_parents self st self1 st1 :
  LocalNamedMessenger.__enter__ self st = Ok (self1, st1) →
  LocalNamedMessenger._iter_parents self1 = LocalNamedMessenger._iter_parents self ∧
  ∃ frame, current_frame st1 = Ok frame ∧
           iter_parents frame = LocalNamedMessenger._iter_parents self.
Proof.
  unfold LocalNamedMessenger.__enter__.
  destruct (LocalNamedMessenger.keep self);
    [destruct (last (LocalNamedMessenger._saved_frames self))|];
    intros H; apply bind_Ok_inv in H as ([b st'] & Hent & [= <- <-]);
    apply cleanup_enter_stack in Hent; cbn in Hent;
    (split; [done|]); eexists; (split; [by eapply current_frame_snoc | done]).
Qed.

Lemma iter_steps_iter_parents bodies : ∀ self st self1 st1,
  LocalNamedMessenger.iter_steps self st bodies = Ok (self1, st1) →
  LocalNamedMessenger._iter_parents self1 = LocalNamedMessenger._iter_parents self ∧
  ∃ frame, current_frame st1 = Ok frame ∧
           iter_parents frame = LocalNamedMessenger._iter_parents self.
Proof.
  induction bodies as [|body bodies IH]; intros self st self1 st1; simpl.
  - apply local_enter_iter_parents.
  - intros H. apply bind_Ok_inv in H as ([self' st'] & Hent & H).
    apply bind_Ok_inv in H as (st'' & _ & H).
    apply local_enter_iter_parents in Hent as [Hip _].
    apply IH in H. by rewrite Hip in H.
Qed.

(** C9: when a messenger starts to drive an iteration in a state whose
    current frame is [cur], the iteration parents it records are the
    frames that can be reached from [cur] by going from a frame to one of
    its iteration parents any number of times, [cur] itself among them;
    the record is made once, before the first step, and at the [yield] of
    every step the record is unchanged and is the [iter_parents] of the
    frame pushed for that step. *)
Theorem iteration_parents_closure self st cur bodies self1 st1 :
  current_frame st = Ok cur →
  LocalNamedMessenger.__iter__ self st bodies = Ok (self1, st1) →
  (∀ q, q ∈ LocalNamedMessenger._get_iter_parents cur ↔ rtc iter_parent cur q) ∧
  LocalNamedMessenger._iter_parents self1 = LocalNamedMessenger._get_iter_parents cur ∧
  ∃ frame, current_frame st1 = Ok frame ∧
           iter_parents frame = LocalNamedMessenger._get_iter_parents cur.
Proof.
  intros Hc Hiter. split; [intros q; apply elem_of_get_iter_parents|].
  unfold LocalNamedMessenger.__iter__, LocalNamedMessenger.iter_begin in Hiter.
  rewrite Hc in Hiter. cbn in Hiter.
  by apply iter_steps_iter_parents in Hiter.
Qed.

Lemma iteration_parents_closure_witness :
  current_frame outer_loop.2 = Ok outer_frame ∧
  LocalNamedMessenger.__iter__ inner_messenger outer_loop.2 [λ st, Ok st]
    = Ok (inner_loop.1, inner_loop.2) ∧
  LocalNamedMessenger._get_iter_parents outer_frame
    = [outer_frame; mkStackFrame 0%nat [] [] false] ∧
  (∀ q, q ∈ LocalNamedMessenger._get_iter_parents outer_frame ↔
        rtc iter_parent outer_frame q) ∧
  LocalNamedMessenger._iter_parents inner_loop.1
    = LocalNamedMessenger._get_iter_parents outer_frame ∧
  ∃ frame, current_frame inner_loop.2 = Ok frame ∧
           iter_parents frame = LocalNamedMessenger._get_iter_parents outer_frame.
Proof.
  assert (current_frame outer_loop.2 = Ok outer_frame) as H1 by reflexivity.
  assert (LocalNamedMessenger.__iter__ inner_messenger outer_loop.2 [λ st, Ok st]
          = Ok (inner_loop.1, inner_loop.2)) as H2 by (vm_compute; reflexivity).
  split; [exact H1|]. split; [exact H2|]. split; [reflexivity|].
  exact (iteration_parents_closure inner_messenger outer_loop.2 outer_frame
           [λ st, Ok st] inner_loop.1 inner_loop.2 H1 H2).
Defined.

(** * Further properties of the code *)

(** ** StackFrame: write, free and read *)

Lemma od_pop_set {K V} `{EqDecision K} (l : list (K * V)) (k : K) (v : V) :
  od_get l k = None → od_pop (od_set l k v) k = l.
Proof.
  unfold od_pop. induction l as [|[k' v'] l IH]; simpl.
  - intros _. rewrite filter_cons. simpl. by rewrite decide_False by (by intros []).
  - destruct (decide (k' = k)) as [->|Hne]; [done|]. intros Hget.
    rewrite filter_cons. simpl. rewrite decide_True by done. by rewrite IH.
Qed.

(** X1: freeing the pair that has just been written to a frame that held
    neither the name nor the dimension gives back the frame as it was,
    order of the entries included. *)
Theorem free_write c n d :
  od_get (name_to_dim c) n = None →
  od_get (dim_to_name c) d = None →
  free (write c n d) n d = c.
Proof.
  intros Hn Hd. unfold free, write. simpl.
  rewrite !od_pop_set by done. by destruct c.
Qed.

Lemma free_write_witness :
  od_get (name_to_dim (mkDicts [("i", -1)] [(-1, "i")])) "j" = None ∧
  od_get (dim_to_name (mkDicts [("i", -1)] [(-1, "i")])) (-2) = None ∧
  free (write (mkDicts [("i", -1)] [(-1, "i")]) "j" (-2)) "j" (-2)
    = mkDicts [("i", -1)] [(-1, "i")].
Proof.
  split; [reflexivity|]. split; [reflexivity|].
  apply (free_write (mkDicts [("i", -1)] [(-1, "i")]) "j" (-2)); reflexivity.
Defined.

Lemma read_written c n d name dim :
  asks_for n d name dim → read (write c n d) name dim = (Some n, Some d, true).
Proof.
  intros ([->| ->] & [->| ->] & Hnot); unfold read, write, od_mem; simpl;
    rewrite ?od_get_set_eq; try done.
  destruct Hnot. done.
Qed.

(** X2: after [write(n, d)] a read of the frame by the name [n], by the
    dimension [d] or by both answers [(n, d)] and reports a hit, whatever
    the frame held before; a read by another name alone is answered as
    before the write. *)
Theorem read_after_write c n d :
  (∀ name dim, asks_for n d name dim →
     read (write c n d) name dim = (Some n, Some d, true)) ∧
  (∀ n', n' ≠ n → read (write c n d) (Some n') None = read c (Some n') None).
Proof.
  split; [intros name dim; apply read_written|].
  intros n' Hne. unfold read, write, od_mem. simpl. by rewrite od_get_set_ne.
Qed.

(** ** request: what it returns *)

Lemma read_hit c n0 d0 n d :
  read c n0 d0 = (n, d, true) → is_Some n ∧ is_Some d.
Proof.
  unfold read, od_mem. intros [= <- <- Hf].
  destruct n0 as [x|], d0 as [y|]; simpl in *;
    repeat match goal with
           | |- context [od_get ?l ?k] => destruct (od_get l k) eqn:?
           end; simpl in *; try done; eauto.
Qed.

Lemma read_loop_hit h frames : ∀ n0 d0 n d,
  read_loop h frames n0 d0 = (n, d, true) → is_Some n ∧ is_Some d.
Proof.
  induction frames as [|f frames IH]; intros n0 d0 n d; cbn [read_loop]; [done|].
  destruct (read (cell h f) n0 d0) as [[n' d'] found] eqn:E.
  destruct found.
  - intros [= <- <-]. by eapply read_hit.
  - apply IH.
Qed.

(** X3: a request that returns, returns a name and a dimension: neither
    component of the pair is [None], whether the pair was read from a
    frame or freshly made. *)
Theorem request_returns_pair st name dim rn rd st' :
  request st name dim = Ok (rn, rd, st') →
  ∃ n d, rn = Some n ∧ rd = Some d.
Proof.
  intros Hreq.
  destruct (request_Ok_cases _ _ _ _ _ _ Hreq) as [(t & Hread & _)|(n0 & d0 & t & Hread)].
  - apply request_read_Ok in Hread as (n0 & d0 & rf & _ & _ & Hloop).
    apply read_loop_hit in Hloop as [[n ->] [d ->]]. eauto.
  - destruct (request_miss_Ok _ _ _ _ _ _ _ _ _ Hread Hreq)
      as (_ & _ & n & d & _ & _ & -> & -> & _). eauto.
Qed.

Lemma request_returns_pair_witness :
  request DimStack_init (NameReq (mkNameRequest None GLOBAL)) (DimVal (Some (-4)))
    = Ok (Some "_pyro_dim_4", Some (-4),
          mkDimStack [mkDicts [("_pyro_dim_4", -4)] [(-4, "_pyro_dim_4")]]
            [mkStackFrame 0%nat [] [] false] (Some (-1)) None) ∧
  ∃ n d, Some "_pyro_dim_4" = Some n ∧ Some (-4) = Some d.
Proof.
  assert (request DimStack_init (NameReq (mkNameRequest None GLOBAL)) (DimVal (Some (-4)))
          = Ok (Some "_pyro_dim_4", Some (-4),
                mkDimStack [mkDicts [("_pyro_dim_4", -4)] [(-4, "_pyro_dim_4")]]
                  [mkStackFrame 0%nat [] [] false] (Some (-1)) None)) as H
    by (vm_compute; reflexivity).
  split; [exact H|]. exact (request_returns_pair _ _ _ _ _ _ H).
Defined.

Lemma read_after_write_witness :
  asks_for "i" (-1) (Some "i") None ∧
  read (write empty_dicts "i" (-1)) (Some "i") None = (Some "i", Some (-1), true).
Proof.
  assert (asks_for "i" (-1) (Some "i") None) as H.
  { split; [by left|]. split; [by right|]. by intros [[=] _]. }
  split; [exact H|]. exact (proj1 (read_after_write empty_dicts "i" (-1)) _ _ H).
Defined.

Lemma gendim_asks_for st n0 d0 t n d :
  _gendim st (mkNameRequest n0 t) (mkDimRequest d0 t) = Ok (n, d) →
  asks_for n d n0 d0.
Proof.
  intros Hgen.
  destruct (conflict_frames st) as [frames|e] eqn:Hcf.
  - destruct n0 as [x|].
    + rewrite (gendim_named _ _ _ _ _ Hcf) in Hgen.
      apply validate_Ok in Hgen as ([= <- Hd] & _).
      split; [by left|]. split; [|by intros [[=] _]].
      destruct d0; [left; congruence | by right].
    + destruct d0 as [y|]; [|by rewrite (gendim_unnamed_no_dim st t) in Hgen].
      rewrite (gendim_unnamed _ _ _ _ Hcf) in Hgen.
      apply validate_Ok in Hgen as ([= _ <-] & _).
      split; [by right|]. split; [by left|]. by intros [_ [=]].
  - unfold _gendim in Hgen. rewrite Hcf in Hgen. simpl in Hgen.
    by destruct n0, d0.
Qed.

(** X4: a request that has returned the pair [(n, d)] returns it again
    when it is repeated at once, and the repetition is a hit that leaves
    the allocator as it is.  The dictionaries of the current and of the
    global frame exist in the store. *)
Theorem request_stable st name dim n d st' cur glob :
  current_frame st = Ok cur →
  global_frame st = Ok glob →
  (dicts cur < length (heap st))%nat →
  (dicts glob < length (heap st))%nat →
  request st name dim = Ok (Some n, Some d, st') →
  request st' name dim = Ok (Some n, Some d, st').
Proof.
  intros Hc Hg Hcur Hglob Hreq.
  destruct (request_Ok_cases _ _ _ _ _ _ Hreq) as [(t & _ & ->)|(n0 & d0 & t & Hread)];
    [done|].
  destruct (request_miss_Ok _ _ _ _ _ _ _ _ _ Hread Hreq)
    as (cur' & glob' & n' & d' & Hc' & Hg' & [= <-] & [= <-] & Hgen & Hst').
  rewrite Hc in Hc'. rewrite Hg in Hg'. injection Hc' as <-. injection Hg' as <-.
  apply gendim_asks_for in Hgen.
  apply request_read_Ok in Hread as (n1 & d1 & rf & Hun & Hrf & Hloop).
  apply read_loop_miss in Hloop as (-> & -> & _).
  apply (request_hit _ _ _ _ _ t). unfold request_read. rewrite Hun.
  cbn [mbind result_bind].
  assert (read_frames st' t = read_frames st t) as ->.
  { unfold read_frames, current_frame, global_frame. by rewrite Hst'. }
  rewrite Hrf. cbn [mbind result_bind].
  apply read_frames_Ok in Hrf as (cur' & glob' & Hc' & Hg' & ->).
  rewrite Hc in Hc'. rewrite Hg in Hg'. injection Hc' as <-. injection Hg' as <-.
  rewrite Hst'. cbn [heap set_heap].
  destruct (decide (t = LOCAL)) as [->|Ht].
  - rewrite (bool_decide_false (LOCAL ≠ LOCAL)) by (by intros []).
    cbn [app read_loop]. rewrite cell_written by (done || left).
    by rewrite read_written.
  - rewrite !(bool_decide_true (t ≠ LOCAL)) by done.
    cbn [read_loop]. rewrite cell_written by (done || left).
    by rewrite read_written.
Qed.

Lemma request_stable_witness :
  current_frame stack_entered_once
    = Ok (mkStackFrame 1%nat [mkStackFrame 0%nat [] [] false] [] false) ∧
  global_frame stack_entered_once = Ok (mkStackFrame 0%nat [] [] false) ∧
  request stack_entered_once (NameVal (Some "x")) (DimReq (mkDimRequest None LOCAL))
    = Ok (Some "x", Some (-1),
          mkDimStack [empty_dicts; mkDicts [("x", -1)] [(-1, "x")]]
            (_stack stack_entered_once) (Some (-1)) (Some 1%nat)) ∧
  request (mkDimStack [empty_dicts; mkDicts [("x", -1)] [(-1, "x")]]
             (_stack stack_entered_once) (Some (-1)) (Some 1%nat))
    (NameVal (Some "x")) (DimReq (mkDimRequest None LOCAL))
    = Ok (Some "x", Some (-1),
          mkDimStack [empty_dicts; mkDicts [("x", -1)] [(-1, "x")]]
            (_stack stack_entered_once) (Some (-1)) (Some 1%nat)).
Proof.
  assert (request stack_entered_once (NameVal (Some "x"))
            (DimReq (mkDimRequest None LOCAL))
          = Ok (Some "x", Some (-1),
                mkDimStack [empty_dicts; mkDicts [("x", -1)] [(-1, "x")]]
                  (_stack stack_entered_once) (Some (-1)) (Some 1%nat))) as H
    by (vm_compute; reflexivity).
  split; [reflexivity|]. split; [reflexivity|]. split; [exact H|].
  apply (request_stable stack_entered_once _ _ _ _ _
           (mkStackFrame 1%nat [mkStackFrame 0%nat [] [] false] [] false)
           (mkStackFrame 0%nat [] [] false) eq_refl eq_refl); [simpl; lia..|exact H].
Defined.

(** X5: a LOCAL or GLOBAL request that supplies the dimension [d] and
    misses is granted exactly [d] when [d] is not below [MAX_DIM] and no
    conflict frame holds it, and raises the error for exhausted dimensions
    otherwise; there is no upper bound, so zero and positive dimensions
    are granted as well.  The name is the one supplied, or
    ["_pyro_dim_"] followed by [-d]. *)
Theorem request_given_dim st name dim n0 d t frames :
  t ≠ VISIBLE →
  request_read st name dim = Ok (n0, Some d, false, t) →
  conflict_frames st = Ok frames →
  let fresh_name := default ("_pyro_dim_" +:+ pretty (- d)) n0 in
  if bool_decide (MAX_DIM ≤ d) && negb (dim_in_frames (heap st) frames d)
  then ∃ st', request st name dim = Ok (Some fresh_name, Some d, st')
  else request st name dim = Raise (out_of_dims fresh_name).
Proof.
  intros Ht Hread Hcf fresh_name. rewrite (request_miss _ _ _ _ _ _ Hread).
  apply request_read_Ok in Hread as (n1 & d1 & rf & _ & Hrf & _).
  apply read_frames_Ok in Hrf as (cur & glob & Hc & Hg & _).
  rewrite (write_frames_Ok _ _ _ _ Hc Hg).
  set (wframes := if bool_decide (t ≠ LOCAL) then _ else _). clearbody wframes.
  assert (_gendim st (mkNameRequest n0 t) (mkDimRequest (Some d) t)
          = validate st frames t fresh_name d) as ->.
  { destruct n0; [by apply gendim_named | by apply gendim_unnamed]. }
  unfold validate. rewrite (bool_decide_false (t = VISIBLE)) by done.
  destruct (decide (MAX_DIM ≤ d)) as [Hd|Hd].
  - rewrite (bool_decide_true (MAX_DIM ≤ d)), (bool_decide_false (d < MAX_DIM)) by lia.
    destruct (dim_in_frames (heap st) frames d); simpl; eauto.
  - rewrite (bool_decide_false (MAX_DIM ≤ d)), (bool_decide_true (d < MAX_DIM)) by lia.
    done.
Qed.

Lemma request_given_dim_witness :
  LOCAL ≠ VISIBLE ∧
  request_read DimStack_init (NameVal (Some "p")) (DimReq (mkDimRequest (Some 3) LOCAL))
    = Ok (Some "p", Some 3, false, LOCAL) ∧
  conflict_frames DimStack_init
    = Ok [mkStackFrame 0%nat [] [] false; mkStackFrame 0%nat [] [] false] ∧
  ∃ st', request DimStack_init (NameVal (Some "p")) (DimReq (mkDimRequest (Some 3) LOCAL))
         = Ok (Some "p", Some 3, st').
Proof.
  split; [done|]. split; [reflexivity|]. split; [reflexivity|].
  exact (request_given_dim DimStack_init (NameVal (Some "p"))
           (DimReq (mkDimRequest (Some 3) LOCAL)) (Some "p") 3 LOCAL
           [mkStackFrame 0%nat [] [] false; mkStackFrame 0%nat [] [] false]
           ltac:(done) eq_refl eq_refl).
Defined.

(** ** push and pop *)

(** X6: [pop] gives back the frame that [push] has put on a stack that
    holds the global frame, and leaves the allocator as it was before the
    push; on a stack that holds the global frame alone [pop] raises an
    [AssertionError]. *)
Theorem pop_after_push st frame :
  _stack st ≠ [] →
  pop (push st frame) = Ok (frame, st) ∧
  (length (_stack st) = 1%nat → pop st = Raise AssertionError).
Proof.
  intros Hne. split.
  - destruct st as [h s b o]. apply (pop_push (mkDimStack h s b o) frame h Hne).
  - intros Hlen. unfold pop. rewrite Hlen. done.
Qed.

Lemma pop_after_push_witness :
  _stack DimStack_init ≠ [] ∧
  pop (push DimStack_init (mkStackFrame 1%nat [] [] false))
    = Ok (mkStackFrame 1%nat [] [] false, DimStack_init) ∧
  (length (_stack DimStack_init) = 1%nat → pop DimStack_init = Raise AssertionError).
Proof.
  assert (_stack DimStack_init ≠ []) as H by discriminate.
  split; [exact H|].
  exact (pop_after_push DimStack_init (mkStackFrame 1%nat [] [] false) H).
Defined.

(** ** Entering and leaving always succeeds with a global frame *)

Lemma cleanup_enter_total self st glob :
  global_frame st = Ok glob →
  ∃ self1 st1, DimStackCleanupMessenger.__enter__ self st = Ok (self1, st1).
Proof.
  intros Hg. unfold DimStackCleanupMessenger.__enter__. destruct (_ && _); [|eauto].
  rewrite (restore_loop _ glob) by done. cbn. eauto.
Qed.

Lemma cleanup_exit_total self st glob :
  global_frame st = Ok glob →
  ∃ self1 st1, DimStackCleanupMessenger.__exit__ self st = Ok (self1, st1).
Proof.
  intros Hg. unfold DimStackCleanupMessenger.__exit__. destruct (_ && _); [|eauto].
  assert (global_frame (mkDimStack (heap st) (_stack st) (_first_available_dim st) None)
          = Ok glob) as -> by done.
  cbn [mbind result_bind heap]. rewrite drain_loop. eauto.
Qed.

Lemma local_exit_total self st glob :
  global_frame st = Ok glob →
  (1 < length (_stack st))%nat →
  ∃ self1 st1, LocalNamedMessenger.__exit__ self st = Ok (self1, st1).
Proof.
  intros Hg Hlen. unfold LocalNamedMessenger.__exit__.
  destruct (pop st) as [[f st']|e] eqn:Hpop.
  - pose proof (global_frame_pop _ _ _ _ Hg Hpop) as Hg'.
    destruct (LocalNamedMessenger.keep self); cbn [mbind result_bind];
      match goal with
      | |- context [DimStackCleanupMessenger.__exit__ ?b st'] =>
          destruct (cleanup_exit_total b st' glob Hg') as (b1 & st1 & ->)
      end; cbn; eauto.
  - unfold pop in Hpop. rewrite bool_decide_true in Hpop by done.
    destruct (last (_stack st)) eqn:Hlast; [done|].
    apply last_None in Hlast. rewrite Hlast in Hlen. simpl in Hlen. lia.
Qed.

(** ** LocalNamedMessenger: nesting, parents and fresh frames *)

(** X7: two messengers entered one inside the other can always be left
    in the opposite order, and then the stack of the allocator is again
    what it was before the outer one was entered, whatever their
    [history], [keep] and ref-counts are. *)
Theorem nested_scopes_restore_stack a b st glob a1 st1 b1 st2 :
  global_frame st = Ok glob →
  LocalNamedMessenger.__enter__ a st = Ok (a1, st1) →
  LocalNamedMessenger.__enter__ b st1 = Ok (b1, st2) →
  ∃ b2 st3 a2 st4,
    LocalNamedMessenger.__exit__ b1 st2 = Ok (b2, st3) ∧
    _stack st3 = _stack st1 ∧
    LocalNamedMessenger.__exit__ a1 st3 = Ok (a2, st4) ∧
    _stack st4 = _stack st.
Proof.
  intros Hg Ha Hb.
  destruct (local_enter_Ok _ _ _ _ _ Hg Ha) as (fa & Hst1 & _).
  pose proof (global_frame_snoc _ _ _ _ Hg Hst1) as Hg1.
  destruct (local_enter_Ok _ _ _ _ _ Hg1 Hb) as (fb & Hst2 & _).
  pose proof (global_frame_snoc _ _ _ _ Hg1 Hst2) as Hg2.
  assert (_stack st ≠ []) as Hne.
  { unfold global_frame in Hg. by destruct (_stack st). }
  destruct (local_exit_total b1 st2 glob Hg2) as (b2 & st3 & Hexb).
  { rewrite Hst2, Hst1, !length_app. simpl. lia. }
  destruct (local_exit_Ok _ _ _ _ _ Hg2 Hexb) as (f & Hst3 & _).
  rewrite Hst2 in Hst3. apply app_inj_tail in Hst3 as [Hst3 _].
  assert (global_frame st3 = Ok glob) as Hg3.
  { by rewrite (global_frame_same_stack st1 st3). }
  destruct (local_exit_total a1 st3 glob Hg3) as (a2 & st4 & Hexa).
  { rewrite <- Hst3, Hst1, length_app. simpl. destruct (_stack st); [done | simpl; lia]. }
  destruct (local_exit_Ok _ _ _ _ _ Hg3 Hexa) as (f' & Hst4 & _).
  rewrite <- Hst3, Hst1 in Hst4. apply app_inj_tail in Hst4 as [Hst4 _].
  exists b2, st3, a2, st4. split_and!; done.
Qed.

Lemma nested_scopes_restore_stack_witness :
  global_frame DimStack_init = Ok (mkStackFrame 0%nat [] [] false) ∧
  LocalNamedMessenger.__enter__ (LocalNamedMessenger.__init__ 1%nat 1 true) DimStack_init
    = Ok (nest_outer.1, nest_outer.2) ∧
  LocalNamedMessenger.__enter__ (LocalNamedMessenger.__init__ 2%nat 0 false) nest_outer.2
    = Ok (nest_inner.1, nest_inner.2) ∧
  ∃ b2 st3 a2 st4,
    LocalNamedMessenger.__exit__ nest_inner.1 nest_inner.2 = Ok (b2, st3) ∧
    _stack st3 = _stack nest_outer.2 ∧
    LocalNamedMessenger.__exit__ nest_outer.1 st3 = Ok (a2, st4) ∧
    _stack st4 = _stack DimStack_init.
Proof.
  assert (LocalNamedMessenger.__enter__ (LocalNamedMessenger.__init__ 1%nat 1 true)
            DimStack_init = Ok (nest_outer.1, nest_outer.2)) as H1
    by (vm_compute; reflexivity).
  assert (LocalNamedMessenger.__enter__ (LocalNamedMessenger.__init__ 2%nat 0 false)
            nest_outer.2 = Ok (nest_inner.1, nest_inner.2)) as H2
    by (vm_compute; reflexivity).
  split; [reflexivity|]. split; [exact H1|]. split; [exact H2|].
  exact (nested_scopes_restore_stack _ _ DimStack_init (mkStackFrame 0%nat [] [] false)
           _ _ _ _ eq_refl H1 H2).
Defined.

Lemma reverse_py_slice_from {A} (l : list A) (h : Z) :
  reverse (py_slice_from l (Z.of_nat (length l) - h)) =
  take (Z.to_nat (if bool_decide (h ≤ Z.of_nat (length l))
                  then h else h - Z.of_nat (length l)))
    (reverse l).
Proof.
  unfold py_slice_from. rewrite reverse_drop.
  set (n := Z.of_nat (length l)).
  destruct (decide (h ≤ n)) as [Hh|Hh].
  - rewrite (bool_decide_true (h ≤ n)), (bool_decide_false (n - h < 0)) by lia.
    f_equal. lia.
  - rewrite (bool_decide_false (h ≤ n)), (bool_decide_true (n - h < 0)) by lia.
    destruct (decide (h - n ≤ n)).
    + f_equal. lia.
    + rewrite !take_ge; [done|rewrite length_reverse; lia..].
Qed.

(** X8: the frame that a messenger pushes has as parents the topmost
    [history] frames of the stack, the most recent first, when [history]
    does not exceed the depth [n] of the stack, and none when [history] is
    zero or negative.  When [history] exceeds [n], the start of the slice
    [_stack[n - history:]] is negative and counts from the end of the
    stack: the parents are then the topmost [history - n] frames only,
    and all frames from twice the depth on. *)
Theorem enter_parents_window self st glob self1 st1 :
  global_frame st = Ok glob →
  LocalNamedMessenger.__enter__ self st = Ok (self1, st1) →
  ∃ frame,
    current_frame st1 = Ok frame ∧
    parents frame =
      take (Z.to_nat
              (if bool_decide (LocalNamedMessenger.history self
                               ≤ Z.of_nat (length (_stack st)))
               then LocalNamedMessenger.history self
               else LocalNamedMessenger.history self - Z.of_nat (length (_stack st))))
        (reverse (_stack st)).
Proof.
  intros Hg Hent.
  destruct (local_enter_Ok _ _ _ _ _ Hg Hent) as (frame & Hst & _ & Hpar & _).
  exists frame. split; [by eapply current_frame_snoc|].
  rewrite Hpar. apply reverse_py_slice_from.
Qed.

Lemma enter_parents_window_witness :
  global_frame stack_entered_once = Ok (mkStackFrame 0%nat [] [] false) ∧
  LocalNamedMessenger.__enter__ (LocalNamedMessenger.__init__ 2%nat 3 false)
    stack_entered_once = Ok (deep_history.1, deep_history.2) ∧
  ∃ frame,
    current_frame deep_history.2 = Ok frame ∧
    parents frame = [mkStackFrame 1%nat [mkStackFrame 0%nat [] [] false] [] false].
Proof.
  assert (LocalNamedMessenger.__enter__ (LocalNamedMessenger.__init__ 2%nat 3 false)
            stack_entered_once = Ok (deep_history.1, deep_history.2)) as H
    by (vm_compute; reflexivity).
  split; [reflexivity|]. split; [exact H|].
  exact (enter_parents_window _ stack_entered_once (mkStackFrame 0%nat [] [] false)
           _ _ eq_refl H).
Defined.

(** X9: a messenger without [keep], and a [keep] messenger that has no
    saved frame, start every entry with empty dictionaries of their own:
    the frame pushed points at a new address of the store, which no frame
    made before can share, and both dictionaries there are empty, whatever
    the messenger bound on earlier entries. *)
Theorem enter_fresh_frame self st glob self1 st1 :
  LocalNamedMessenger.keep self = false ∨ LocalNamedMessenger._saved_frames self = [] →
  global_frame st = Ok glob →
  (dicts glob < length (heap st))%nat →
  LocalNamedMessenger.__enter__ self st = Ok (self1, st1) →
  ∃ frame,
    current_frame st1 = Ok frame ∧
    dicts frame = length (heap st) ∧
    cell (heap st1) frame = empty_dicts ∧
    LocalNamedMessenger._saved_frames self1 = LocalNamedMessenger._saved_frames self.
Proof.
  intros Hfresh Hg Hglob. unfold LocalNamedMessenger.__enter__.
  assert (match LocalNamedMessenger.keep self,
                last (LocalNamedMessenger._saved_frames self) with
          | true, Some _ => False
          | _, _ => True
          end) as Hcase.
  { destruct Hfresh as [->| ->]; [done|]. by destruct (LocalNamedMessenger.keep self). }
  destruct (LocalNamedMessenger.keep self);
    [destruct (last (LocalNamedMessenger._saved_frames self)); [done|]|];
    intros H; apply bind_Ok_inv in H as ([b st'] & Hent & [= <- <-]);
    pose proof (cleanup_enter_stack _ _ _ _ Hent) as Hst; cbn in Hst;
    apply (cleanup_enter_frame _ _ glob) in Hent
      as (_ & _ & _ & Hheap & _); try (by apply global_frame_push);
    eexists; (split; [exact (current_frame_snoc _ _ _ Hst)|]);
    (split; [done|]); (split; [|done]);
    unfold cell; cbn [dicts]; rewrite Hheap by lia; cbn [heap push set_heap];
    by rewrite lookup_app_r, Nat.sub_diag.
Qed.

Lemma enter_fresh_frame_witness :
  (LocalNamedMessenger.keep entered_once = false
   ∨ LocalNamedMessenger._saved_frames entered_once = []) ∧
  global_frame stack_entered_once = Ok (mkStackFrame 0%nat [] [] false) ∧
  LocalNamedMessenger.__enter__ entered_once stack_entered_once
    = Ok (reentered.1, reentered.2) ∧
  ∃ frame,
    current_frame reentered.2 = Ok frame ∧
    dicts frame = length (heap stack_entered_once) ∧
    cell (heap reentered.2) frame = empty_dicts ∧
    LocalNamedMessenger._saved_frames reentered.1
      = LocalNamedMessenger._saved_frames entered_once.
Proof.
  assert (LocalNamedMessenger.__enter__ entered_once stack_entered_once
          = Ok (reentered.1, reentered.2)) as H by (vm_compute; reflexivity).
  split; [by left|]. split; [reflexivity|]. split; [exact H|].
  apply (enter_fresh_frame entered_once stack_entered_once
           (mkStackFrame 0%nat [] [] false) _ _ (or_introl eq_refl) eq_refl);
    [simpl; lia | exact H].
Defined.

(** ** BaseEnumMessenger *)

Lemma set_first_available_dim_Ok st dim :
  valid_boundary dim →
  set_first_available_dim st dim
  = Ok (_first_available_dim st,
        mkDimStack (heap st) (_stack st) dim (outermost st)).
Proof.
  unfold set_first_available_dim, valid_boundary. destruct dim as [d|]; [|done].
  intros Hd. rewrite (bool_decide_true (MAX_DIM < d < 0)) by done.
  by rewrite orb_true_r.
Qed.

(** X10: a [BaseEnumMessenger] built with the boundary [b] puts [b] in
    force when it is entered from ref-count 0 and remembers the boundary
    it replaces; its exit from ref-count 1 puts that boundary back,
    whatever boundary is in force by then. *)
Theorem enum_boundary_restored self st glob b :
  DimStackCleanupMessenger._ref_count (BaseEnumMessenger.base self) = 0 →
  BaseEnumMessenger.first_available_dim self = Some b →
  MAX_DIM < b < 0 →
  valid_boundary (_first_available_dim st) →
  global_frame st = Ok glob →
  ∃ self1 st1,
    BaseEnumMessenger.__enter__ self st = Ok (self1, st1) ∧
    _first_available_dim st1 = Some b ∧
    _stack st1 = _stack st ∧
    DimStackCleanupMessenger._ref_count (BaseEnumMessenger.base self1) = 1 ∧
    ∀ st' glob',
      global_frame st' = Ok glob' →
      ∃ self2 st2,
        BaseEnumMessenger.__exit__ self1 st' = Ok (self2, st2) ∧
        _first_available_dim st2 = _first_available_dim st ∧
        _stack st2 = _stack st' ∧
        DimStackCleanupMessenger._ref_count (BaseEnumMessenger.base self2) = 0.
Proof.
  intros Href Hfad Hb Hold Hg.
  unfold BaseEnumMessenger.__enter__.
  rewrite Href, Hfad, (set_first_available_dim_Ok st (Some b)) by done.
  rewrite (bool_decide_true (0 = 0)), (bool_decide_true (Some b ≠ None)) by done.
  cbn [andb mbind result_bind BaseEnumMessenger.base
    BaseEnumMessenger.first_available_dim BaseEnumMessenger._prev_first_dim].
  set (st0 := mkDimStack (heap st) (_stack st) (Some b) (outermost st)).
  destruct (cleanup_enter_total (BaseEnumMessenger.base self) st0 glob Hg)
    as (b1 & st1 & Hent).
  rewrite Hent. cbn [mbind result_bind].
  apply (cleanup_enter_frame _ _ glob) in Hent as (Hst & Hfa & _ & _ & Href1 & _); [|done].
  eexists _, _. split; [reflexivity|]. cbn [BaseEnumMessenger.base].
  split_and!; [done|done|lia|].
  intros st' glob' Hg'. unfold BaseEnumMessenger.__exit__.
  cbn [BaseEnumMessenger.base BaseEnumMessenger.first_available_dim
    BaseEnumMessenger._prev_first_dim].
  rewrite (bool_decide_true (_ = 1)), (bool_decide_true (_ ≠ None)) by (done || lia).
  cbn [andb].
  rewrite (set_first_available_dim_Ok st' (_first_available_dim st)) by done.
  cbn [mbind result_bind].
  set (st0' := mkDimStack (heap st') (_stack st') (_first_available_dim st) (outermost st')).
  destruct (cleanup_exit_total b1 st0' glob' Hg') as (b2 & st2 & Hex).
  rewrite Hex. cbn [mbind result_bind].
  apply (cleanup_exit_frame _ _ glob') in Hex as (Hst2 & Hfa2 & _ & _ & Href2 & _); [|done].
  eexists _, _. split; [reflexivity|]. cbn [BaseEnumMessenger.base].
  split_and!; [done|done|lia].
Qed.

Lemma enum_boundary_restored_witness :
  DimStackCleanupMessenger._ref_count (BaseEnumMessenger.base enum_messenger) = 0 ∧
  BaseEnumMessenger.first_available_dim enum_messenger = Some (-3) ∧
  MAX_DIM < -3 < 0 ∧
  valid_boundary (_first_available_dim DimStack_init) ∧
  global_frame DimStack_init = Ok (mkStackFrame 0%nat [] [] false) ∧
  ∃ self1 st1,
    BaseEnumMessenger.__enter__ enum_messenger DimStack_init = Ok (self1, st1) ∧
    _first_available_dim st1 = Some (-3) ∧
    ∃ self2 st2,
      BaseEnumMessenger.__exit__ self1 st1 = Ok (self2, st2) ∧
      _first_available_dim st2 = Some (-1).
Proof.
  assert (MAX_DIM < -3 < 0) as Hb by (unfold MAX_DIM; lia).
  assert (valid_boundary (_first_available_dim DimStack_init)) as Hv
    by (simpl; unfold MAX_DIM; lia).
  split; [reflexivity|]. split; [reflexivity|]. split; [exact Hb|]. split; [exact Hv|].
  split; [reflexivity|].
  destruct (enum_boundary_restored enum_messenger DimStack_init
              (mkStackFrame 0%nat [] [] false) (-3) eq_refl eq_refl Hb Hv eq_refl)
    as (self1 & st1 & Hent & Hfa & Hst & _ & Hexit).
  exists self1, st1. split; [exact Hent|]. split; [exact Hfa|].
  assert (global_frame st1 = Ok (mkStackFrame 0%nat [] [] false)) as Hg1.
  { unfold global_frame. by rewrite Hst. }
  destruct (Hexit st1 _ Hg1) as (self2 & st2 & Hex & Hfa2 & _).
  exists self2, st2. split; [exact Hex | exact Hfa2].
Defined.

(** X11: the constructor of [BaseEnumMessenger] accepts every negative
    boundary, but [set_first_available_dim] accepts only boundaries above
    [MAX_DIM]: a messenger built with a boundary of [MAX_DIM] or below is
    made without complaint and raises an [AssertionError] whenever it is
    entered from ref-count 0, on every allocator. *)
Theorem enum_boundary_too_low id d :
  d ≤ MAX_DIM →
  ∃ self,
    BaseEnumMessenger.__init__ id (Some d) = Ok self ∧
    ∀ st, BaseEnumMessenger.__enter__ self st = Raise AssertionError.
Proof.
  intros Hd. unfold BaseEnumMessenger.__init__.
  rewrite bool_decide_true by (unfold MAX_DIM in Hd; lia).
  eexists. split; [reflexivity|]. intros st.
  unfold BaseEnumMessenger.__enter__, set_first_available_dim. cbn.
  by rewrite (bool_decide_false (MAX_DIM < d < 0)) by lia.
Qed.

Lemma enum_boundary_too_low_witness :
  -25 ≤ MAX_DIM ∧
  ∃ self,
    BaseEnumMessenger.__init__ 4%nat (Some (-25)) = Ok self ∧
    ∀ st, BaseEnumMessenger.__enter__ self st = Raise AssertionError.
Proof.
  assert (-25 ≤ MAX_DIM) as H by (unfold MAX_DIM; lia).
  split; [exact H|]. exact (enum_boundary_too_low 4%nat (-25) H).
Defined.

(** ** Cleanup messengers that do not own the global frame *)

(** X12: while another messenger owns the global frame, entering and
    leaving a cleanup messenger changes its ref-count and nothing else:
    it writes no saved pair, drains nothing and leaves the owner in
    place, at every nesting level. *)
Theorem cleanup_not_owner_keeps_allocator self st owner :
  outermost st = Some owner →
  owner ≠ DimStackCleanupMessenger.ident self →
  DimStackCleanupMessenger.__enter__ self st
    = Ok (DimStackCleanupMessenger.super__enter__ self, st) ∧
  DimStackCleanupMessenger.__exit__ self st
    = Ok (DimStackCleanupMessenger.super__exit__ self, st).
Proof.
  intros Hown Hne.
  unfold DimStackCleanupMessenger.__enter__, DimStackCleanupMessenger.__exit__.
  rewrite Hown. rewrite (bool_decide_false (Some owner = None)) by done.
  rewrite (bool_decide_false (Some owner = Some _)) by congruence.
  by rewrite !andb_false_r.
Qed.

Lemma cleanup_not_owner_keeps_allocator_witness :
  outermost owned_stack = Some 1%nat ∧
  1%nat ≠ DimStackCleanupMessenger.ident (DimStackCleanupMessenger.__init__ 2%nat) ∧
  DimStackCleanupMessenger.__enter__ (DimStackCleanupMessenger.__init__ 2%nat) owned_stack
    = Ok (DimStackCleanupMessenger.super__enter__ (DimStackCleanupMessenger.__init__ 2%nat),
          owned_stack) ∧
  DimStackCleanupMessenger.__exit__ (DimStackCleanupMessenger.__init__ 2%nat) owned_stack
    = Ok (DimStackCleanupMessenger.super__exit__ (DimStackCleanupMessenger.__init__ 2%nat),
          owned_stack).
Proof.
  assert (1%nat ≠ DimStackCleanupMessenger.ident (DimStackCleanupMessenger.__init__ 2%nat))
    as Hne by (simpl; lia).
  split; [reflexivity|]. split; [exact Hne|].
  exact (cleanup_not_owner_keeps_allocator (DimStackCleanupMessenger.__init__ 2%nat)
           owned_stack 1%nat eq_refl Hne).
Defined.

(** ** The global frame after a drain and a restore *)

Lemma od_set_new {K V} `{EqDecision K} (l : list (K * V)) (k : K) (v : V) :
  od_get l k = None → od_set l k v = l ++ [(k, v)].
Proof.
  induction l as [|[k' v'] l IH]; simpl; [done|].
  destruct (decide (k' = k)); [done|]. intros H. by rewrite IH.
Qed.

Lemma od_get_NoDup {K V} `{EqDecision K} (l : list (K * V)) (k : K) (v : V) :
  NoDup l.*1 → od_get l k = Some v ↔ (k, v) ∈ l.
Proof.
  intros Hnd. split; [apply od_get_Some_elem|].
  induction l as [|[k0 v0] l IH]; [by intros ?%elem_of_nil|].
  apply NoDup_cons in Hnd as [Hk0 Hnd]. simpl.
  intros [[= -> ->]|Hin]%elem_of_cons; [by rewrite decide_True|].
  rewrite decide_False; [by apply IH|].
  intros ->. apply Hk0. apply list_elem_of_fmap. by exists (k, v).
Qed.

Lemma write_all_fresh items : ∀ c,
  NoDup items.*1 → NoDup items.*2 →
  (∀ n, n ∈ items.*1 → od_get (name_to_dim c) n = None) →
  (∀ d, d ∈ items.*2 → od_get (dim_to_name c) d = None) →
  write_all c items
  = mkDicts (name_to_dim c ++ items) (dim_to_name c ++ (prod_swap <$> items)).
Proof.
  unfold write_all. induction items as [|[n d] items IH]; intros c Hn Hd Hfn Hfd.
  - simpl. rewrite !app_nil_r. by destruct c.
  - rewrite !fmap_cons in *. apply NoDup_cons in Hn as [Hn1 Hn].
    apply NoDup_cons in Hd as [Hd1 Hd]. cbn [foldl]. rewrite IH; try done.
    + unfold write. cbn [name_to_dim dim_to_name].
      rewrite !od_set_new by (apply Hfn || apply Hfd; left).
      by rewrite <- !app_assoc.
    + intros n' Hin. unfold write. cbn [name_to_dim]. rewrite od_get_set_ne.
      * apply Hfn. by right.
      * by intros ->.
    + intros d' Hin. unfold write. cbn [dim_to_name]. rewrite od_get_set_ne.
      * apply Hfd. by right.
      * by intros ->.
Qed.

(** X13: when the owner of the global frame leaves its last nesting level
    and is entered again at once, the global frame holds the same pairs
    as before the exit: every name resolves to the dimension it had and
    every dimension to its name; only the order of the entries is turned
    round, the pair bound last now being the first.  The dictionaries of
    the global frame are inverse to each other, hold each name once, and
    nothing was saved before. *)
Theorem drain_then_restore self st glob :
  DimStackCleanupMessenger._ref_count self = 1 →
  outermost st = Some (DimStackCleanupMessenger.ident self) →
  DimStackCleanupMessenger._saved_dims self = [] →
  global_frame st = Ok glob →
  (dicts glob < length (heap st))%nat →
  inverse (cell (heap st) glob) →
  NoDup (name_to_dim (cell (heap st) glob)).*1 →
  ∃ self1 st1 self2 st2,
    DimStackCleanupMessenger.__exit__ self st = Ok (self1, st1) ∧
    DimStackCleanupMessenger.__enter__ self1 st1 = Ok (self2, st2) ∧
    name_to_dim (cell (heap st2) glob) = reverse (name_to_dim (cell (heap st) glob)) ∧
    (∀ n, od_get (name_to_dim (cell (heap st2) glob)) n
          = od_get (name_to_dim (cell (heap st) glob)) n) ∧
    (∀ d, od_get (dim_to_name (cell (heap st2) glob)) d
          = od_get (dim_to_name (cell (heap st) glob)) d) ∧
    _stack st2 = _stack st ∧
    outermost st2 = outermost st ∧
    DimStackCleanupMessenger._saved_dims self2 = [].
Proof.
  intros Href Hown Hsaved Hg Hlen Hinv Hnd.
  destruct (heap st !! dicts glob) as [c|] eqn:Hc;
    [|apply lookup_ge_None in Hc; lia].
  assert (cell (heap st) glob = c) as Hcell by (unfold cell; by rewrite Hc).
  rewrite Hcell in *.
  set (items := reverse (name_to_dim c)).
  assert (NoDup items.*1) as Hn.
  { unfold items. by rewrite fmap_reverse, reverse_Permutation. }
  assert (∀ n d, (n, d) ∈ items ↔ od_get (name_to_dim c) n = Some d) as Hitems.
  { intros n d. unfold items. rewrite elem_of_reverse. symmetry. by apply od_get_NoDup. }
  assert (NoDup items.*2) as Hd.
  { apply NoDup_fmap_2_strong; [|by eapply NoDup_fmap_1].
    intros [n1 d1] [n2 d2] H1%Hitems H2%Hitems. simpl. intros <-.
    apply Hinv in H1, H2. congruence. }
  unfold DimStackCleanupMessenger.__exit__, DimStackCleanupMessenger.__enter__.
  rewrite Href, Hown, Hsaved, !bool_decide_true by done. cbn [andb].
  assert (global_frame (mkDimStack (heap st) (_stack st) (_first_available_dim st) None)
          = Ok glob) as -> by done.
  cbn [mbind result_bind heap]. rewrite drain_loop, Hcell. fold items.
  eexists _, _. eexists _, _. split; [reflexivity|].
  cbn [DimStackCleanupMessenger.super__exit__ DimStackCleanupMessenger._ref_count
       DimStackCleanupMessenger._saved_dims DimStackCleanupMessenger.ident
       outermost set_heap heap _stack _first_available_dim app].
  rewrite (bool_decide_true (1 - 1 = 0)), (bool_decide_true (None = None)) by done.
  cbn [andb]. rewrite (restore_loop _ glob) by done. cbn [mbind result_bind].
  split; [reflexivity|].
  assert (cell (set_heap
                  (mkDimStack (alter (λ c, free_all c items) (dicts glob) (heap st))
                     (_stack st) (_first_available_dim st)
                     (Some (DimStackCleanupMessenger.ident self)))
                  (foldl (λ h '(name, dim), write_frame name dim h glob)
                     (alter (λ c, free_all c items) (dicts glob) (heap st)) items)).(heap)
            glob
          = mkDicts items (prod_swap <$> items)) as Hres.
  { unfold cell. cbn [heap set_heap]. rewrite restore_as_alter, list_alter_alter_eq.
    rewrite list_lookup_alter_eq, Hc.
    change (write_all (free_all c (reverse (name_to_dim c))) items
            = mkDicts items (prod_swap <$> items)).
    rewrite (free_all_empty c Hinv). by rewrite write_all_fresh. }
  cbn [heap set_heap] in Hres |- *. rewrite Hres. cbn [name_to_dim dim_to_name].
  split_and!; try done.
  - intros n. apply option_eq. intros d.
    rewrite (od_get_NoDup items) by done. apply Hitems.
  - intros d. apply option_eq. intros n.
    assert ((prod_swap <$> items).*1 = items.*2) as Hkeys.
    { rewrite <- list_fmap_compose. apply list_fmap_ext. by intros ? [??]. }
    rewrite od_get_NoDup by (by rewrite Hkeys).
    rewrite <- (Hinv n d), <- Hitems, list_elem_of_fmap. split.
    + by intros ([n' d'] & [= -> ->] & Hin).
    + intros Hin. by exists (n, d).
Qed.

Lemma drain_then_restore_witness :
  DimStackCleanupMessenger._ref_count owner_1 = 1 ∧
  outermost owned_stack = Some (DimStackCleanupMessenger.ident owner_1) ∧
  DimStackCleanupMessenger._saved_dims owner_1 = [] ∧
  global_frame owned_stack = Ok (mkStackFrame 0%nat [] [] false) ∧
  ∃ self1 st1 self2 st2,
    DimStackCleanupMessenger.__exit__ owner_1 owned_stack = Ok (self1, st1) ∧
    DimStackCleanupMessenger.__enter__ self1 st1 = Ok (self2, st2) ∧
    name_to_dim (cell (heap st2) (mkStackFrame 0%nat [] [] false))
      = [("y", -2); ("x", -1)].
Proof.
  assert (inverse (cell (heap owned_stack) (mkStackFrame 0%nat [] [] false))) as Hinv.
  { change (inverse (write (write empty_dicts "x" (-1)) "y" (-2))).
    apply write_inverse; [apply write_inverse; [apply inverse_empty|..]|..]; reflexivity. }
  assert (NoDup (name_to_dim (cell (heap owned_stack)
                                (mkStackFrame 0%nat [] [] false))).*1) as Hnd.
  { change (NoDup ["x"; "y"]). compute_done. }
  split; [reflexivity|]. split; [reflexivity|]. split; [reflexivity|].
  split; [reflexivity|].
  destruct (drain_then_restore owner_1 owned_stack (mkStackFrame 0%nat [] [] false)
              eq_refl eq_refl eq_refl eq_refl ltac:(simpl; lia) Hinv Hnd)
    as (self1 & st1 & self2 & st2 & Hex & Hent & Hnames & _).
  exists self1, st1, self2, st2. split; [exact Hex|]. split; [exact Hent | exact Hnames].
Defined.

(** ** NamedMessenger._get_dim_to_name *)

Lemma batch_dims_fst_aux (n : Z) (l : list Z) : ∀ k : nat,
  (imap (λ i size, (Z.of_nat (k + i) - n, size)) l).*1
  = (λ i : nat, Z.of_nat i - n) <$> seq k (length l).
Proof.
  induction l as [|x l IH]; intros k; [done|].
  cbn [imap length seq]. rewrite !fmap_cons. cbn [fst].
  f_equal; [f_equal; lia|]. rewrite <- (IH (S k)). f_equal.
  apply imap_ext. intros i y _. simpl. do 3 f_equal. lia.
Qed.

Lemma batch_dims_fst batch_shape :
  (NamedMessenger.batch_dims batch_shape).*1
  = (λ i : nat, Z.of_nat i - Z.of_nat (length batch_shape)) <$> seq 0 (length batch_shape).
Proof. apply (batch_dims_fst_aux _ batch_shape 0). Qed.

Lemma named_dims_NoDup batch_shape : NoDup (named_dims batch_shape).
Proof.
  unfold named_dims.
  assert (NoDup (NamedMessenger.batch_dims batch_shape).*1) as Hnd.
  { rewrite batch_dims_fst. apply NoDup_fmap_2; [|apply NoDup_seq].
    intros i j Hij. lia. }
  revert Hnd. generalize (NamedMessenger.batch_dims batch_shape). intros l.
  induction l as [|[d s] l IH]; [by rewrite filter_nil|].
  rewrite fmap_cons, filter_cons. intros [Hd Hnd]%NoDup_cons.
  case_decide; [|by apply IH]. rewrite fmap_cons. apply NoDup_cons. split; [|by apply IH].
  intros (ds & Heq & Hin%list_elem_of_filter)%list_elem_of_fmap.
  apply Hd. apply list_elem_of_fmap. exists ds. split; [exact Heq | apply Hin].
Qed.

Lemma named_dims_bounds batch_shape d :
  d ∈ named_dims batch_shape → - Z.of_nat (length batch_shape) ≤ d < 0.
Proof.
  unfold named_dims. intros (ds & -> & [_ Hin]%list_elem_of_filter)%list_elem_of_fmap.
  assert (ds.1 ∈ (NamedMessenger.batch_dims batch_shape).*1) as Hd
    by (apply list_elem_of_fmap; eauto).
  rewrite batch_dims_fst in Hd.
  apply list_elem_of_fmap in Hd as (i & -> & Hi%elem_of_seq). lia.
Qed.

(** The first loop of [_get_dim_to_name] on an empty dictionary. *)
Lemma dim_requests_loop t (l : list (Z * Z)) : ∀ acc : list (Z * name_arg),
  NoDup (acc.*1 ++ l.*1) →
  foldl (λ dim_to_name '(dim, size),
           if bool_decide (size = 1) then dim_to_name
           else
             let name := od_get dim_to_name dim in
             od_set dim_to_name dim
               match name with
               | Some (NameReq r) => NameReq r
               | Some (NameVal n) => NameReq (mkNameRequest n t)
               | None => NameReq (mkNameRequest None t)
               end) acc l
  = acc ++ ((λ d, (d, NameReq (mkNameRequest None t)))
              <$> (fst <$> filter (λ ds, ds.2 ≠ 1) l)).
Proof.
  induction l as [|[d s] l IH]; intros acc Hnd.
  - by rewrite filter_nil, app_nil_r.
  - rewrite fmap_cons in Hnd. cbn [foldl]. rewrite filter_cons. cbn [snd].
    assert (od_get acc d = None) as Hget.
    { apply od_get_None. intros Hin. apply NoDup_app in Hnd as (_ & Hdis & _).
      apply (Hdis d Hin). left. }
    case_bool_decide as Hs.
    + rewrite decide_False by (by intros ?). apply IH.
      apply NoDup_app in Hnd as (Ha & Hdis & [_ Hl]%NoDup_cons).
      apply NoDup_app. split_and!; [done| |done].
      intros x Hx Hx'. apply (Hdis x Hx). by right.
    + rewrite decide_True by done. rewrite Hget, od_set_new by done.
      rewrite IH; [by rewrite !fmap_cons, <- app_assoc|].
      rewrite fmap_app. simpl. rewrite <- app_assoc. done.
Qed.

Lemma od_set_middle {K V} `{EqDecision K} (l1 l2 : list (K * V)) (k : K) (v v' : V) :
  k ∉ l1.*1 → od_set (l1 ++ (k, v) :: l2) k v' = l1 ++ (k, v') :: l2.
Proof.
  induction l1 as [|[k0 v0] l1 IH]; simpl.
  - intros _. by rewrite decide_True.
  - intros [Hne Hnin]%not_elem_of_cons. rewrite decide_False by done. by rewrite IH.
Qed.

Lemma read_loop_dim_miss h rf d :
  (∀ f, f ∈ rf → od_get (dim_to_name (cell h f)) d = None) →
  read_loop h rf None (Some d) = (None, Some d, false).
Proof.
  induction rf as [|f rf IH]; intros Hfree; cbn [read_loop]; [done|].
  unfold read, od_mem. rewrite (Hfree f) by left. simpl. apply IH.
  intros f' Hin. apply Hfree. by right.
Qed.

Lemma dim_in_frames_write_ne n d d' h wframes frames :
  d' ≠ d →
  dim_in_frames (foldl (write_frame n d) h wframes) frames d'
  = dim_in_frames h frames d'.
Proof.
  intros Hne. unfold dim_in_frames. induction frames as [|f frames IH]; simpl; [done|].
  rewrite IH. f_equal.
  destruct (cell_foldl_write n d h wframes f) as [->|[_ ->]]; [done|].
  unfold write, od_mem. cbn [dim_to_name]. by rewrite od_get_set_ne.
Qed.

(** A request for the name of a dimension that no conflict frame holds. *)
Lemma request_free_dim st t frames d :
  t ≠ VISIBLE → conflict_frames st = Ok frames →
  MAX_DIM ≤ d → dim_in_frames (heap st) frames d = false →
  ∃ st', request st (NameReq (mkNameRequest None t)) (DimVal (Some d))
         = Ok (Some (synth_name d), Some d, st') ∧
         _stack st' = _stack st ∧
         ∀ d', d' ≠ d →
               dim_in_frames (heap st') frames d' = dim_in_frames (heap st) frames d'.
Proof.
  intros Ht Hcf Hd Hfree.
  assert (∃ cur glob, current_frame st = Ok cur ∧ global_frame st = Ok glob ∧
            frames = [cur; glob] ++ parents cur ++ iter_parents cur)
    as (cur & glob & Hc & Hg & Hfr).
  { unfold conflict_frames in Hcf.
    destruct (current_frame st) as [cur|]; [|done].
    destruct (global_frame st) as [glob|]; [|done].
    injection Hcf as <-. eauto. }
  assert (∀ f, f ∈ [cur; glob] ++ parents cur ++ iter_parents cur →
               od_get (dim_to_name (cell (heap st) f)) d = None) as Hall.
  { intros f Hf. rewrite <- Hfr in Hf. by eapply dim_in_frames_false. }
  assert (request_read st (NameReq (mkNameRequest None t)) (DimVal (Some d))
          = Ok (None, Some d, false, t)) as Hread.
  { unfold request_read, read_frames. cbn. rewrite Hc, Hg. cbn.
    case_bool_decide; cbn [mbind result_bind]; rewrite read_loop_dim_miss; try done.
    - intros f ->%list_elem_of_singleton. apply Hall. right. left.
    - intros f Hf. apply Hall. cbn [app] in Hf |- *.
      apply elem_of_cons in Hf as [->|Hf]; [left|].
      rewrite !elem_of_app in Hf.
      destruct Hf as [Hf|[Hf|Hf%list_elem_of_singleton]].
      + do 2 right. apply elem_of_app. by left.
      + do 2 right. apply elem_of_app. by right.
      + subst f. right. left. }
  assert (∃ st', request st (NameReq (mkNameRequest None t)) (DimVal (Some d))
                 = Ok (Some (synth_name d), Some d, st')) as [st' Hreq].
  { rewrite (request_miss _ _ _ _ _ _ Hread), (write_frames_Ok _ _ _ _ Hc Hg).
    rewrite (gendim_unnamed _ _ _ _ Hcf). unfold validate.
    rewrite (bool_decide_false (t = VISIBLE)), (bool_decide_false (d < MAX_DIM))
      by (done || lia).
    rewrite Hfree. simpl. eauto. }
  exists st'. split; [exact Hreq|].
  split; [by eapply request_stack|].
  destruct (request_miss_Ok _ _ _ _ _ _ _ _ _ Hread Hreq)
    as (? & ? & n' & d' & _ & _ & _ & [= <-] & _ & ->).
  intros d'' Hne. cbn [heap set_heap]. by apply dim_in_frames_write_ne.
Qed.

(** The second loop of [_get_dim_to_name] over requests without a name. *)
Lemma dim_names_loop t frames (ds : list Z) : ∀ (pre : list Z) st,
  t ≠ VISIBLE → conflict_frames st = Ok frames →
  NoDup (pre ++ ds) →
  (∀ d, d ∈ ds → MAX_DIM ≤ d ∧ dim_in_frames (heap st) frames d = false) →
  ∃ st',
    for_each (λ '(dim_to_name, st) '(dim, name_request),
                '(name, _, st) ← request st name_request (DimVal (Some dim));
                Ok (od_set dim_to_name dim (NameVal name), st))
      ((λ d, (d, NameReq (mkNameRequest None t))) <$> ds)
      (((λ d, (d, NameVal (Some (synth_name d)))) <$> pre)
         ++ ((λ d, (d, NameReq (mkNameRequest None t))) <$> ds), st)
    = Ok (((λ d, (d, NameVal (Some (synth_name d)))) <$> pre)
            ++ ((λ d, (d, NameVal (Some (synth_name d)))) <$> ds), st') ∧
    _stack st' = _stack st.
Proof.
  induction ds as [|d ds IH]; intros pre st Ht Hcf Hnd Hfree.
  - exists st. done.
  - destruct (Hfree d ltac:(left)) as [Hd Hfd].
    destruct (request_free_dim st t frames d Ht Hcf Hd Hfd) as (st1 & Hreq & Hst & Hkeep).
    apply NoDup_app in Hnd as (Hpre & Hdis & [Hnin Hds]%NoDup_cons).
    destruct (IH (pre ++ [d]) st1) as (st' & Hloop & Hst'); [done| | | |].
    + by rewrite (conflict_frames_stack _ _ Hst).
    + rewrite <- app_assoc. simpl. apply NoDup_app. split_and!; [done| |by apply NoDup_cons].
      done.
    + intros d' Hin. destruct (Hfree d' ltac:(by right)) as [? ?].
      split; [done|]. rewrite Hkeep; [done|]. by intros ->.
    + exists st'. split; [|congruence].
      rewrite !fmap_cons. cbn [for_each]. rewrite Hreq. cbn [mbind result_bind].
      rewrite od_set_middle.
      * rewrite fmap_app, <- !app_assoc in Hloop. simpl in Hloop. exact Hloop.
      * rewrite <- list_fmap_compose. intros (x & Hx & Hin)%list_elem_of_fmap.
        simpl in Hx. subst x. apply (Hdis d Hin). left.
Qed.

(** X14: for an array whose batch dimensions are free, [_get_dim_to_name]
    without a dictionary and with a LOCAL or GLOBAL type names every batch
    dimension of size other than 1, from the leftmost to the rightmost,
    ["_pyro_dim_"] followed by the negated dimension; dimensions of size 1
    get no entry, and the stack of frames is unchanged. *)
Theorem get_dim_to_name_fresh st batch_shape t frames :
  t ≠ VISIBLE → conflict_frames st = Ok frames →
  (∀ d, d ∈ named_dims batch_shape →
        MAX_DIM ≤ d ∧ dim_in_frames (heap st) frames d = false) →
  ∃ st', NamedMessenger._get_dim_to_name st batch_shape None t
         = Ok ((λ d, (d, NameVal (Some (synth_name d)))) <$> named_dims batch_shape, st') ∧
         _stack st' = _stack st.
Proof.
  intros Ht Hcf Hfree. unfold NamedMessenger._get_dim_to_name. cbn zeta.
  cbn [default]. rewrite dim_requests_loop.
  - rewrite app_nil_l. fold (named_dims batch_shape).
    apply (dim_names_loop t frames (named_dims batch_shape) [] st Ht Hcf);
      [apply named_dims_NoDup | exact Hfree].
  - simpl. rewrite batch_dims_fst. apply NoDup_fmap_2; [|apply NoDup_seq].
    intros i j Hij. lia.
Qed.

Lemma get_dim_to_name_fresh_witness :
  LOCAL ≠ VISIBLE ∧
  conflict_frames DimStack_init
    = Ok [mkStackFrame 0%nat [] [] false; mkStackFrame 0%nat [] [] false] ∧
  ∃ st', NamedMessenger._get_dim_to_name DimStack_init [2; 1; 3] None LOCAL
         = Ok ([(-3, NameVal (Some "_pyro_dim_3")); (-1, NameVal (Some "_pyro_dim_1"))], st') ∧
         _stack st' = _stack DimStack_init.
Proof.
  split; [done|]. split; [reflexivity|].
  assert (∀ d, d ∈ named_dims [2; 1; 3] →
               MAX_DIM ≤ d ∧
               dim_in_frames (heap DimStack_init)
                 [mkStackFrame 0%nat [] [] false; mkStackFrame 0%nat [] [] false] d = false)
    as Hfree.
  { intros d Hin. split; [|reflexivity].
    apply named_dims_bounds in Hin. simpl in Hin. unfold MAX_DIM. lia. }
  exact (get_dim_to_name_fresh DimStack_init [2; 1; 3] LOCAL
           [mkStackFrame 0%nat [] [] false; mkStackFrame 0%nat [] [] false]
           ltac:(done) eq_refl Hfree).
Defined.

(** ** NamedMessenger._get_name_to_dim *)

Lemma request_Ok_dim st name dim rn rd st' :
  request st name dim = Ok (rn, rd, st') → is_Some rn ∧ is_Some rd.
Proof.
  intros Hreq.
  destruct (request_Ok_cases _ _ _ _ _ _ Hreq) as [(t & Hread & _)|(n0 & d0 & t & Hread)].
  - apply request_read_Ok in Hread as (n0 & d0 & rf & _ & _ & Hloop).
    by eapply read_loop_hit.
  - destruct (request_miss_Ok _ _ _ _ _ _ _ _ _ Hread Hreq)
      as (_ & _ & n & d & _ & _ & -> & -> & _). eauto.
Qed.

(** The first loop of [_get_name_to_dim] leaves the other names alone and
    binds every batch name. *)
Lemma name_requests_other t (names : list string) n : ∀ acc : list (string * dim_arg),
  n ∉ names →
  od_get (foldl (λ name_to_dim name,
                   let dim := od_get name_to_dim name in
                   od_set name_to_dim name
                     match dim with
                     | Some (DimReq r) => DimReq r
                     | Some (DimVal d) => DimReq (mkDimRequest d t)
                     | None => DimReq (mkDimRequest None t)
                     end) acc names) n
  = od_get acc n.
Proof.
  induction names as [|x names IH]; intros acc Hn; [done|].
  apply not_elem_of_cons in Hn as [Hne Hn]. cbn [foldl].
  rewrite IH by done. by apply od_get_set_ne.
Qed.

Lemma name_requests_bound t (names : list string) n : ∀ acc : list (string * dim_arg),
  n ∈ names →
  is_Some (od_get (foldl (λ name_to_dim name,
                            let dim := od_get name_to_dim name in
                            od_set name_to_dim name
                              match dim with
                              | Some (DimReq r) => DimReq r
                              | Some (DimVal d) => DimReq (mkDimRequest d t)
                              | None => DimReq (mkDimRequest None t)
                              end) acc names) n).
Proof.
  induction names as [|x names IH]; intros acc Hn; [by apply elem_of_nil in Hn|].
  cbn [foldl]. destruct (decide (n ∈ names)) as [Hin|Hnin]; [by apply IH|].
  apply elem_of_cons in Hn as [->|Hn]; [|done].
  rewrite name_requests_other by done. cbn zeta. rewrite od_get_set_eq. eauto.
Qed.

(** The second loop of [_get_name_to_dim]. *)
Lemma name_dims_loop (l : list (string * dim_arg)) : ∀ acc st res st',
  for_each (λ '(name_to_dim, st) '(name, dim_request),
              '(_, dim, st) ← request st (NameVal (Some name)) dim_request;
              Ok (od_set name_to_dim name (DimVal dim), st))
    l (acc, st) = Ok (res, st') →
  _stack st' = _stack st ∧
  ∀ n, (n ∈ l.*1 → ∃ d, od_get res n = Some (DimVal (Some d))) ∧
       (n ∉ l.*1 → od_get res n = od_get acc n).
Proof.
  induction l as [|[k r] l IH]; intros acc st res st'; cbn [for_each].
  - intros [= <- <-]. split; [done|]. intros n. split; [|done].
    by intros ?%elem_of_nil.
  - intros ([acc1 st1] & Hstep & Hrest)%bind_Ok_inv.
    apply bind_Ok_inv in Hstep as ([[rn rd] st2] & Hreq & [= <- <-]).
    destruct (request_Ok_dim _ _ _ _ _ _ Hreq) as [_ [d ->]].
    apply IH in Hrest as [Hst Hres]. split.
    + rewrite Hst. by eapply request_stack.
    + intros n. destruct (Hres n) as [Hin Hout].
      destruct (decide (n ∈ l.*1)) as [Hl|Hl].
      * split; [intros _; by apply Hin|].
        rewrite fmap_cons. intros [_ ?]%not_elem_of_cons. done.
      * rewrite fmap_cons, Hout, od_get_set by done. cbn [fst].
        destruct (decide (k = n)) as [->|Hne].
        -- split; [eauto|]. intros []%not_elem_of_cons. done.
        -- split; [|done]. intros [?|?]%elem_of_cons; congruence.
Qed.

(** X15: the dictionary that [_get_name_to_dim] returns binds every batch
    name and every name of the dictionary it was given to a concrete
    dimension (neither [None] nor a request), binds no other name, and the
    stack of frames is as before. *)
Theorem get_name_to_dim_concrete st batch_names dict t res st' :
  NamedMessenger._get_name_to_dim st batch_names dict t = Ok (res, st') →
  _stack st' = _stack st ∧
  ∀ n, (n ∈ batch_names ∨ is_Some (od_get (default [] dict) n) →
          ∃ d, od_get res n = Some (DimVal (Some d))) ∧
       (n ∉ batch_names → od_get (default [] dict) n = None → od_get res n = None).
Proof.
  unfold NamedMessenger._get_name_to_dim. cbn zeta.
  intros [Hst Hres]%name_dims_loop. split; [done|]. intros n.
  destruct (Hres n) as [Hin Hout]. split.
  - intros Hn. apply Hin.
    destruct (decide (n ∈ batch_names)) as [Hb|Hb].
    + pose proof (name_requests_bound t batch_names n (default [] dict) Hb) as [v Hv].
      apply od_get_Some_elem in Hv. apply list_elem_of_fmap. by exists (n, v).
    + destruct Hn as [?|[v Hv]]; [done|].
      rewrite <- (name_requests_other t batch_names n _ Hb) in Hv.
      apply od_get_Some_elem in Hv. apply list_elem_of_fmap. by exists (n, v).
  - intros Hb Hd.
    pose proof (name_requests_other t batch_names n (default [] dict) Hb) as Hget.
    rewrite Hd in Hget. rewrite Hout; [done|]. by apply od_get_None.
Qed.

Lemma get_name_to_dim_concrete_witness :
  NamedMessenger._get_name_to_dim stack_entered_once ["a"; "b"]
    (Some [("a", DimVal (Some (-4)))]) LOCAL
  = Ok ([("a", DimVal (Some (-4))); ("b", DimVal (Some (-1)))],
        mkDimStack
          [empty_dicts; mkDicts [("a", -4); ("b", -1)] [(-4, "a"); (-1, "b")]]
          (_stack stack_entered_once) (Some (-1)) (Some 1%nat)) ∧
  ∃ d, od_get [("a", DimVal (Some (-4))); ("b", DimVal (Some (-1)))] "b"
       = Some (DimVal (Some d)).
Proof.
  assert (NamedMessenger._get_name_to_dim stack_entered_once ["a"; "b"]
            (Some [("a", DimVal (Some (-4)))]) LOCAL
          = Ok ([("a", DimVal (Some (-4))); ("b", DimVal (Some (-1)))],
                mkDimStack
                  [empty_dicts; mkDicts [("a", -4); ("b", -1)] [(-4, "a"); (-1, "b")]]
                  (_stack stack_entered_once) (Some (-1)) (Some 1%nat))) as H
    by (vm_compute; reflexivity).
  split; [exact H|].
  apply (proj2 (get_name_to_dim_concrete _ _ _ _ _ _ H) "b").
  left. right. left.
Defined.

(** ** Entries that the first loop does not turn into requests *)

Lemma for_each_raises {A S : Type} (f : S → A → result S) (x : A) (xs : list A) :
  (∀ s, ∃ e, f s x = Raise e) → x ∈ xs → ∀ s, ∃ e, for_each f xs s = Raise e.
Proof.
  intros Hx. induction xs as [|x0 xs IH]; intros Hin s; [by apply elem_of_nil in Hin|].
  cbn [for_each]. destruct (f s x0) as [s'|e] eqn:E; [|by exists e].
  apply elem_of_cons in Hin as [->|Hin]; [|by apply IH].
  destruct (Hx s) as [e He]. congruence.
Qed.

(** X16: [_get_name_to_dim] turns into requests the entries of the batch
    names only.  When the dictionary it is given binds another name to a
    plain dimension (or to [None]), the call of [request] for that entry
    has neither a [NameRequest] nor a [DimRequest], and the function does
    not return: it raises. *)
Theorem get_name_to_dim_stale st batch_names dict t n d :
  od_get dict n = Some (DimVal d) → n ∉ batch_names →
  ∃ e, NamedMessenger._get_name_to_dim st batch_names (Some dict) t = Raise e.
Proof.
  intros Hget Hn. unfold NamedMessenger._get_name_to_dim. cbn zeta. cbn [default].
  apply (for_each_raises _ (n, DimVal d)).
  - intros [acc s]. by exists AssertionError.
  - apply od_get_Some_elem. by rewrite name_requests_other.
Qed.

Lemma get_name_to_dim_stale_witness :
  od_get [("c", DimVal (Some (-4)))] "c" = Some (DimVal (Some (-4))) ∧
  ("c" ∉ ["a"; "b"]) ∧
  ∃ e, NamedMessenger._get_name_to_dim stack_entered_once ["a"; "b"]
         (Some [("c", DimVal (Some (-4)))]) LOCAL = Raise e.
Proof.
  assert ("c" ∉ ["a"; "b"]) as Hn.
  { intros [?|[?|?%elem_of_nil]%elem_of_cons]%elem_of_cons; done. }
  split; [reflexivity|]. split; [exact Hn|].
  exact (get_name_to_dim_stale stack_entered_once ["a"; "b"]
           [("c", DimVal (Some (-4)))] LOCAL "c" (Some (-4)) eq_refl Hn).
Defined.

Lemma dim_requests_other t (l : list (Z * Z)) d : ∀ acc : list (Z * name_arg),
  d ∉ (filter (λ ds, ds.2 ≠ 1) l).*1 →
  od_get (foldl (λ dim_to_name '(dim, size),
                   if bool_decide (size = 1) then dim_to_name
                   else
                     let name := od_get dim_to_name dim in
                     od_set dim_to_name dim
                       match name with
                       | Some (NameReq r) => NameReq r
                       | Some (NameVal n) => NameReq (mkNameRequest n t)
                       | None => NameReq (mkNameRequest None t)
                       end) acc l) d
  = od_get acc d.
Proof.
  induction l as [|[d0 s] l IH]; intros acc Hd; [done|].
  cbn [foldl]. rewrite filter_cons in Hd. cbn [snd] in Hd.
  case_bool_decide as Hs.
  - rewrite decide_False in Hd by (by intros ?). by apply IH.
  - rewrite decide_True in Hd by done. rewrite fmap_cons in Hd.
    apply not_elem_of_cons in Hd as [Hne Hd]. rewrite IH by done.
    by apply od_get_set_ne.
Qed.

(** X17: [_get_dim_to_name] turns into requests the entries of the batch
    dimensions of size other than 1 only.  When the dictionary it is given
    binds another dimension (one of size 1, or one that the shape does not
    have) to a plain name (or to [None]), the function does not return: it
    raises. *)
Theorem get_dim_to_name_stale st batch_shape dict t d n :
  od_get dict d = Some (NameVal n) → d ∉ named_dims batch_shape →
  ∃ e, NamedMessenger._get_dim_to_name st batch_shape (Some dict) t = Raise e.
Proof.
  intros Hget Hd. unfold NamedMessenger._get_dim_to_name. cbn zeta. cbn [default].
  apply (for_each_raises _ (d, NameVal n)).
  - intros [acc s]. by exists AssertionError.
  - apply od_get_Some_elem. by rewrite dim_requests_other.
Qed.

Lemma get_dim_to_name_stale_witness :
  od_get [(-1, NameVal (Some "a"))] (-1) = Some (NameVal (Some "a")) ∧
  (-1 ∉ named_dims [3; 1]) ∧
  ∃ e, NamedMessenger._get_dim_to_name DimStack_init [3; 1]
         (Some [(-1, NameVal (Some "a"))]) LOCAL = Raise e.
Proof.
  assert (-1 ∉ named_dims [3; 1]) as Hd.
  { vm_compute. intros [?|?%elem_of_nil]%elem_of_cons; done. }
  split; [reflexivity|]. split; [exact Hd|].
  exact (get_dim_to_name_stale DimStack_init [3; 1]
           [(-1, NameVal (Some "a"))] LOCAL (-1) (Some "a") eq_refl Hd).
Defined.

(** ** GlobalNamedMessenger *)

(** The loop of [GlobalNamedMessenger.__exit__] that frees the recorded
    pairs. *)
Lemma free_globals_loop st glob saved : ∀ h : list Dicts,
  global_frame st = Ok glob →
  for_each (λ h '(name, dim),
              glob ← global_frame st; Ok (free_frame name dim h glob)) saved h
  = Ok (alter (λ c, free_all c saved) (dicts glob) h).
Proof.
  intros h Hg. rewrite Hg. revert h. unfold free_all.
  induction saved as [|[n d] saved IH]; intros h; simpl.
  - f_equal. symmetry. by apply list_alter_id.
  - rewrite IH. unfold free_frame. by rewrite list_alter_alter_eq.
Qed.

Lemma write_all_get_name items (f : string → option Z) : ∀ c,
  (∀ n d, (n, d) ∈ items → f n = Some d) →
  (∀ n, n ∉ items.*1 → od_get (name_to_dim c) n = f n) →
  ∀ n, od_get (name_to_dim (write_all c items)) n = f n.
Proof.
  unfold write_all. induction items as [|[n0 d0] items IH]; intros c Hin Hout n.
  - apply Hout, not_elem_of_nil.
  - cbn [foldl]. apply IH.
    + intros n' d' H. apply Hin. by right.
    + intros n' Hn'. unfold write. cbn [name_to_dim]. rewrite od_get_set.
      destruct (decide (n0 = n')) as [<-|Hne].
      * symmetry. apply Hin. left.
      * apply Hout. rewrite fmap_cons. by intros [?|?]%elem_of_cons.
Qed.

Lemma write_all_get_dim items (f : Z → option string) : ∀ c,
  (∀ n d, (n, d) ∈ items → f d = Some n) →
  (∀ d, d ∉ items.*2 → od_get (dim_to_name c) d = f d) →
  ∀ d, od_get (dim_to_name (write_all c items)) d = f d.
Proof.
  unfold write_all. induction items as [|[n0 d0] items IH]; intros c Hin Hout d.
  - apply Hout, not_elem_of_nil.
  - cbn [foldl]. apply IH.
    + intros n' d' H. apply Hin. by right.
    + intros d' Hd'. unfold write. cbn [dim_to_name]. rewrite od_get_set.
      destruct (decide (d0 = d')) as [<-|Hne].
      * symmetry. apply Hin. left.
      * apply Hout. rewrite fmap_cons. by intros [?|?]%elem_of_cons.
Qed.

(** X18: a [GlobalNamedMessenger] that does not own the global frame and
    leaves its last nesting level takes the pairs it has recorded out of
    the global frame and keeps the record; entered again, it puts them
    back, so that every name and every dimension of the global frame
    resolves as before the exit, and it forgets the record: a second exit
    would free nothing. *)
Theorem global_exit_then_enter self st glob owner :
  DimStackCleanupMessenger._ref_count (GlobalNamedMessenger.base self) = 1 →
  outermost st = Some owner →
  owner ≠ DimStackCleanupMessenger.ident (GlobalNamedMessenger.base self) →
  global_frame st = Ok glob →
  (dicts glob < length (heap st))%nat →
  recorded_in (cell (heap st) glob) (GlobalNamedMessenger._saved_globals self) →
  ∃ self1 st1 self2 st2,
    GlobalNamedMessenger.__exit__ self st = Ok (self1, st1) ∧
    GlobalNamedMessenger.__enter__ self1 st1 = Ok (self2, st2) ∧
    GlobalNamedMessenger._saved_globals self1 = GlobalNamedMessenger._saved_globals self ∧
    (∀ n d, (n, d) ∈ GlobalNamedMessenger._saved_globals self →
            od_get (name_to_dim (cell (heap st1) glob)) n = None ∧
            od_get (dim_to_name (cell (heap st1) glob)) d = None) ∧
    (∀ n, od_get (name_to_dim (cell (heap st2) glob)) n
          = od_get (name_to_dim (cell (heap st) glob)) n) ∧
    (∀ d, od_get (dim_to_name (cell (heap st2) glob)) d
          = od_get (dim_to_name (cell (heap st) glob)) d) ∧
    GlobalNamedMessenger._saved_globals self2 = [] ∧
    _stack st2 = _stack st.
Proof.
  intros Href Hown Hne Hg Hlen Hrec.
  destruct self as [b saved]. cbn [GlobalNamedMessenger.base
    GlobalNamedMessenger._saved_globals] in *.
  destruct (heap st !! dicts glob) as [c|] eqn:Hc;
    [|apply lookup_ge_None in Hc; lia].
  assert (cell (heap st) glob = c) as Hcell by (unfold cell; by rewrite Hc).
  rewrite Hcell in *.
  unfold GlobalNamedMessenger.__exit__, GlobalNamedMessenger.__enter__.
  cbn [GlobalNamedMessenger.base GlobalNamedMessenger._saved_globals].
  rewrite Href, (bool_decide_true (1 = 1)) by done.
  rewrite (free_globals_loop _ glob) by done. cbn [mbind result_bind].
  unfold DimStackCleanupMessenger.__exit__ at 1. cbn [outermost set_heap].
  rewrite Hown, (bool_decide_false (Some owner = Some _)) by congruence.
  rewrite andb_false_r. cbn [mbind result_bind].
  eexists _, _. eexists _, _. split; [reflexivity|].
  cbn [GlobalNamedMessenger.base GlobalNamedMessenger._saved_globals
       DimStackCleanupMessenger.super__exit__ DimStackCleanupMessenger._ref_count
       DimStackCleanupMessenger.ident DimStackCleanupMessenger._saved_dims].
  rewrite Href, (bool_decide_true (1 - 1 = 0)) by done.
  rewrite (restore_loop _ glob) by done. cbn [mbind result_bind].
  unfold DimStackCleanupMessenger.__enter__ at 1. cbn [outermost set_heap].
  rewrite Hown, (bool_decide_false (Some owner = None)) by done.
  rewrite andb_false_r. cbn [mbind result_bind].
  split; [reflexivity|]. cbn [GlobalNamedMessenger._saved_globals heap _stack set_heap].
  rewrite restore_as_alter, list_alter_alter_eq.
  unfold cell. rewrite !list_lookup_alter_eq, Hc.
  cbn [fmap option_fmap option_map default from_option]. unfold id.
  split; [done|]. split; [|split; [|split; [|done]]].
  - intros n d Hin. rewrite free_all_get_name, free_all_get_dim. split.
    + rewrite decide_True; [done|]. apply list_elem_of_fmap. by exists (n, d).
    + rewrite decide_True; [done|]. apply list_elem_of_fmap. by exists (n, d).
  - apply write_all_get_name.
    + intros n d Hin. by apply Hrec.
    + intros n Hn. rewrite free_all_get_name. by rewrite decide_False.
  - apply write_all_get_dim.
    + intros n d Hin. by apply Hrec.
    + intros d Hd. rewrite free_all_get_dim. by rewrite decide_False.
Qed.

Lemma global_exit_then_enter_witness :
  DimStackCleanupMessenger._ref_count (GlobalNamedMessenger.base global_messenger) = 1 ∧
  outermost owned_stack = Some 1%nat ∧
  1%nat ≠ DimStackCleanupMessenger.ident (GlobalNamedMessenger.base global_messenger) ∧
  global_frame owned_stack = Ok (mkStackFrame 0%nat [] [] false) ∧
  recorded_in (cell (heap owned_stack) (mkStackFrame 0%nat [] [] false))
    (GlobalNamedMessenger._saved_globals global_messenger) ∧
  ∃ self1 st1 self2 st2,
    GlobalNamedMessenger.__exit__ global_messenger owned_stack = Ok (self1, st1) ∧
    GlobalNamedMessenger.__enter__ self1 st1 = Ok (self2, st2) ∧
    od_get (name_to_dim (cell (heap st1) (mkStackFrame 0%nat [] [] false))) "x" = None ∧
    od_get (name_to_dim (cell (heap st2) (mkStackFrame 0%nat [] [] false))) "x"
      = Some (-1) ∧
    GlobalNamedMessenger._saved_globals self2 = [].
Proof.
  assert (1%nat ≠ DimStackCleanupMessenger.ident (GlobalNamedMessenger.base global_messenger))
    as Hne by (simpl; lia).
  assert (recorded_in (cell (heap owned_stack) (mkStackFrame 0%nat [] [] false))
            (GlobalNamedMessenger._saved_globals global_messenger)) as Hrec.
  { intros n d [[= -> ->]|Hin%elem_of_nil]%elem_of_cons; [|done].
    split; reflexivity. }
  split; [reflexivity|]. split; [reflexivity|]. split; [exact Hne|].
  split; [reflexivity|]. split; [exact Hrec|].
  destruct (global_exit_then_enter global_messenger owned_stack
              (mkStackFrame 0%nat [] [] false) 1%nat
              eq_refl eq_refl Hne eq_refl ltac:(simpl; lia) Hrec)
    as (self1 & st1 & self2 & st2 & Hex & Hent & _ & Hfreed & Hnames & _ & Hsaved & _).
  exists self1, st1, self2, st2. split; [exact Hex|]. split; [exact Hent|].
  split; [exact (proj1 (Hfreed "x" (-1) ltac:(left)))|].
  split; [by rewrite Hnames | exact Hsaved].
Defined.

(** ** The frames of an iteration *)

Lemma iter_steps_frames bodies : ∀ self st glob self1 st1,
  (∀ body s s', body ∈ bodies → body s = Ok s' → _stack s' = _stack s) →
  global_frame st = Ok glob →
  LocalNamedMessenger.iter_steps self st bodies = Ok (self1, st1) →
  ∃ fs, _stack st1 = _stack st ++ fs ∧
        length fs = S (length bodies) ∧
        (∀ (i : nat) f, fs !! i = Some f →
           parents f =
             reverse (py_slice_from (_stack st ++ take i fs)
                        (Z.of_nat (length (_stack st) + i)
                         - LocalNamedMessenger.history self))) ∧
        DimStackCleanupMessenger._ref_count (LocalNamedMessenger.base self1)
        = DimStackCleanupMessenger._ref_count (LocalNamedMessenger.base self)
          + Z.of_nat (S (length bodies)).
Proof.
  induction bodies as [|body bodies IH]; intros self st glob self1 st1 Hbodies Hg;
    cbn [LocalNamedMessenger.iter_steps].
  - intros Hent.
    destruct (local_enter_Ok _ _ _ _ _ Hg Hent)
      as (frame & Hst & _ & Hpar & _ & _ & _ & _ & _ & _ & _ & _ & _ & _ & Href).
    exists [frame]. split; [done|]. split; [done|]. split; [|simpl; lia].
    intros [|i] f; [|done]. intros [= <-].
    by rewrite take_0, app_nil_r, Nat.add_0_r.
  - intros ([self' st'] & Hent & H)%bind_Ok_inv.
    apply bind_Ok_inv in H as (st'' & Hbody & H).
    destruct (local_enter_Ok _ _ _ _ _ Hg Hent)
      as (frame & Hst & _ & Hpar & _ & _ & _ & _ & _ & _ & _ & Hhist & _ & _ & Href).
    assert (_stack st'' = _stack st ++ [frame]) as Hst''.
    { rewrite <- Hst. apply (Hbodies body); [left | done]. }
    destruct (IH self' st'' glob self1 st1) as (fs & Hst1 & Hlen & Hfs & Href1); [| |done|].
    { intros b s s' Hb. apply Hbodies. by right. }
    { by eapply global_frame_snoc. }
    exists (frame :: fs). split; [|split; [|split]].
    + by rewrite Hst1, Hst'', <- app_assoc.
    + simpl. by rewrite Hlen.
    + intros [|i] f.
      * intros [= <-]. by rewrite take_0, app_nil_r, Nat.add_0_r.
      * cbn [lookup list_lookup]. intros Hf. rewrite (Hfs i f Hf), Hst'', Hhist.
        rewrite <- app_assoc, length_app. cbn [app take length].
        do 3 f_equal. lia.
    + rewrite Href1, Href. cbn [length]. lia.
Qed.

(** X19: the frames of an iteration pile up.  Every step enters the
    messenger and none leaves it before the loop is over, so when the
    consumer leaves the stack as each step hands it over, the step number
    [i] finds on the stack the frames of all the steps before it, and the
    parents of its frame are cut from that stack: with [history] 1 the
    frame of the step before, which is what chains the steps.  The stack
    holds one frame more for every step, and the ref-count of the
    messenger has grown by the number of steps. *)
Theorem iteration_frames_pile_up self st bodies self1 st1 :
  (∀ body s s', body ∈ bodies → body s = Ok s' → _stack s' = _stack s) →
  LocalNamedMessenger.__iter__ self st bodies = Ok (self1, st1) →
  ∃ fs, _stack st1 = _stack st ++ fs ∧
        length fs = S (length bodies) ∧
        (∀ (i : nat) f, fs !! i = Some f →
           parents f =
             reverse (py_slice_from (_stack st ++ take i fs)
                        (Z.of_nat (length (_stack st) + i)
                         - LocalNamedMessenger.history self))) ∧
        DimStackCleanupMessenger._ref_count (LocalNamedMessenger.base self1)
        = DimStackCleanupMessenger._ref_count (LocalNamedMessenger.base self)
          + Z.of_nat (S (length bodies)).
Proof.
  intros Hbodies. unfold LocalNamedMessenger.__iter__, LocalNamedMessenger.iter_begin.
  intros (self0 & Hbegin & Hsteps)%bind_Ok_inv.
  apply bind_Ok_inv in Hbegin as (cur & Hc & [= <-]).
  destruct (current_frame_Ok _ _ Hc) as [glob Hg].
  exact (iter_steps_frames bodies _ st glob self1 st1 Hbodies Hg Hsteps).
Qed.

Lemma iteration_frames_pile_up_witness :
  (∀ body s s', body ∈ [λ st : DimStack, Ok st] → body s = Ok s' → _stack s' = _stack s) ∧
  LocalNamedMessenger.__iter__ inner_messenger outer_loop.2 [λ st, Ok st]
    = Ok (inner_loop.1, inner_loop.2) ∧
  ∃ fs, _stack inner_loop.2 = _stack outer_loop.2 ++ fs ∧ length fs = 2%nat.
Proof.
  assert (∀ body s s', body ∈ [λ st : DimStack, Ok st] → body s = Ok s' →
                       _stack s' = _stack s) as Hb.
  { intros body s s' [->|Hin%elem_of_nil]%elem_of_cons; [|done]. by intros [= ->]. }
  assert (LocalNamedMessenger.__iter__ inner_messenger outer_loop.2 [λ st, Ok st]
          = Ok (inner_loop.1, inner_loop.2)) as H by (vm_compute; reflexivity).
  split; [exact Hb|]. split; [exact H|].
  destruct (iteration_frames_pile_up inner_messenger outer_loop.2 [λ st, Ok st]
              inner_loop.1 inner_loop.2 Hb H) as (fs & Hst & Hlen & _).
  exists fs. split; [exact Hst | exact Hlen].
Defined.

(** ** Allocation by name *)

Lemma read_loop_name_miss h rf n :
  (∀ f, f ∈ rf → od_get (name_to_dim (cell h f)) n = None) →
  read_loop h rf (Some n) None = (Some n, None, false).
Proof.
  induction rf as [|f rf IH]; intros Hfree; cbn [read_loop]; [done|].
  unfold read, od_mem. rewrite (Hfree f) by left. simpl. apply IH.
  intros f' Hin. apply Hfree. by right.
Qed.

(** X20: a LOCAL or GLOBAL request for a name that no read frame binds,
    without a dimension, is given the highest dimension at or below the
    boundary ([-1] when the boundary is [None]) that no conflict frame
    holds; when that dimension is below [MAX_DIM], which is when no
    dimension from the boundary down to [MAX_DIM] is free, it raises the
    error for exhausted dimensions instead. *)
Theorem request_by_name_allocates st n t rf frames :
  t ≠ VISIBLE →
  read_frames st t = Ok rf →
  (∀ f, f ∈ rf → od_get (name_to_dim (cell (heap st) f)) n = None) →
  conflict_frames st = Ok frames →
  ∃ d, first_free (dim_in_frames (heap st) frames)
         (default (-1) (_first_available_dim st)) d ∧
       (if bool_decide (MAX_DIM ≤ d)
        then ∃ st', request st (NameVal (Some n)) (DimReq (mkDimRequest None t))
                    = Ok (Some n, Some d, st')
        else request st (NameVal (Some n)) (DimReq (mkDimRequest None t))
             = Raise (out_of_dims n)) ∧
       (request st (NameVal (Some n)) (DimReq (mkDimRequest None t))
        = Raise (out_of_dims n) ↔
        ∀ x, MAX_DIM ≤ x ≤ default (-1) (_first_available_dim st) →
             dim_in_frames (heap st) frames x = true).
Proof.
  intros Ht Hrf Hmiss Hcf.
  assert (request_read st (NameVal (Some n)) (DimReq (mkDimRequest None t))
          = Ok (Some n, None, false, t)) as Hread.
  { unfold request_read. cbn [unpack dr_dim dr_dim_type mbind result_bind].
    rewrite Hrf. cbn [mbind result_bind]. by rewrite read_loop_name_miss. }
  destruct (request_fresh_dim st _ _ n t Ht Hread) as (frames' & d & Hcf' & Hff & Hres).
  rewrite Hcf in Hcf'. injection Hcf' as <-. by exists d.
Qed.

Lemma request_by_name_allocates_witness :
  LOCAL ≠ VISIBLE ∧
  read_frames owned_stack LOCAL
    = Ok [mkStackFrame 0%nat [] [] false; mkStackFrame 0%nat [] [] false] ∧
  conflict_frames owned_stack
    = Ok [mkStackFrame 0%nat [] [] false; mkStackFrame 0%nat [] [] false] ∧
  ∃ st', request owned_stack (NameVal (Some "z")) (DimReq (mkDimRequest None LOCAL))
         = Ok (Some "z", Some (-3), st').
Proof.
  assert (∀ f, f ∈ [mkStackFrame 0%nat [] [] false; mkStackFrame 0%nat [] [] false] →
               od_get (name_to_dim (cell (heap owned_stack) f)) "z" = None) as Hmiss.
  { intros f [->|[->|Hin%elem_of_nil]%elem_of_cons]%elem_of_cons; done. }
  split; [done|]. split; [reflexivity|]. split; [reflexivity|].
  destruct (request_by_name_allocates owned_stack "z" LOCAL
              [mkStackFrame 0%nat [] [] false; mkStackFrame 0%nat [] [] false]
              [mkStackFrame 0%nat [] [] false; mkStackFrame 0%nat [] [] false]
              ltac:(done) eq_refl Hmiss eq_refl) as (d & Hff & Hres & _).
  assert (d = -3) as ->.
  { apply (first_free_unique _ _ _ _ Hff). split; [reflexivity|]. split; [simpl; lia|].
    intros x Hx. simpl in Hx.
    assert (x = -2 ∨ x = -1) as [-> | ->] by lia; reflexivity. }
  exact Hres.
Defined.

(** ** LOCAL requests inside a scope *)

Lemma cleanup_enter_other self st owner :
  outermost st = Some owner →
  DimStackCleanupMessenger.__enter__ self st
  = Ok (DimStackCleanupMessenger.super__enter__ self, st).
Proof.
  intros Hown. unfold DimStackCleanupMessenger.__enter__.
  rewrite Hown, (bool_decide_false (Some owner = None)) by done.
  by rewrite andb_false_r.
Qed.

Lemma cleanup_exit_other self st owner :
  outermost st = Some owner → owner ≠ DimStackCleanupMessenger.ident self →
  DimStackCleanupMessenger.__exit__ self st
  = Ok (DimStackCleanupMessenger.super__exit__ self, st).
Proof.
  intros Hown Hne. unfold DimStackCleanupMessenger.__exit__.
  rewrite Hown, (bool_decide_false (Some owner = Some _)) by congruence.
  by rewrite andb_false_r.
Qed.

(** X21: what a LOCAL request binds inside the scope of a messenger
    without [keep] is gone when the scope is left.  The messenger is
    entered, one LOCAL request is made, whether it hits or allocates, and
    the messenger is left: the stack, the boundary, the owner and the
    dictionaries of every frame that existed before are as they were.
    Another messenger owns the global frame. *)
Theorem local_scope_leaves_no_trace self st owner name dim n0 d0
    self1 st1 rn rd st2 self3 st3 :
  LocalNamedMessenger.keep self = false →
  outermost st = Some owner →
  owner ≠ DimStackCleanupMessenger.ident (LocalNamedMessenger.base self) →
  unpack name dim = Ok (n0, d0, LOCAL) →
  LocalNamedMessenger.__enter__ self st = Ok (self1, st1) →
  request st1 name dim = Ok (rn, rd, st2) →
  LocalNamedMessenger.__exit__ self1 st2 = Ok (self3, st3) →
  _stack st3 = _stack st ∧
  _first_available_dim st3 = _first_available_dim st ∧
  outermost st3 = outermost st ∧
  ∀ l : loc, (l < length (heap st))%nat → heap st3 !! l = heap st !! l.
Proof.
  intros Hkeep Hown Hne Hun Hent Hreq Hex.
  unfold LocalNamedMessenger.__enter__ in Hent. rewrite Hkeep in Hent.
  rewrite (cleanup_enter_other _ _ owner) in Hent by done.
  cbn [mbind result_bind] in Hent. injection Hent as <- <-.
  set (frame := mkStackFrame (length (heap st)) _ _ _) in *.
  assert (∀ l : loc, (l < length (heap st))%nat →
                     heap st2 !! l = heap st !! l) as Hheap.
  { intros l Hl.
    destruct (request_Ok_cases _ _ _ _ _ _ Hreq) as [(t & _ & ->)|(n1 & d1 & t & Hread)].
    - cbn [heap push set_heap]. by apply lookup_app_l.
    - destruct (request_miss_Ok _ _ _ _ _ _ _ _ _ Hread Hreq)
        as (cur & glob & n & d & Hc & _ & _ & _ & _ & ->).
      apply request_read_Ok in Hread as (? & ? & ? & Hun' & _).
      rewrite Hun in Hun'. injection Hun' as <- <- <-.
      assert (cur = frame) as ->.
      { unfold current_frame in Hc. cbn [push set_heap _stack] in Hc.
        rewrite last_snoc in Hc. by injection Hc. }
      rewrite (bool_decide_false (LOCAL ≠ LOCAL)) by (by intros []).
      cbn [keep frame app foldl heap set_heap push]. rewrite Hkeep.
      cbn [foldl]. unfold write_frame, frame. cbn [dicts].
      rewrite list_lookup_alter_ne by lia. by apply lookup_app_l. }
  assert (_stack st2 = _stack st ++ [frame] ∧
          _first_available_dim st2 = _first_available_dim st ∧
          outermost st2 = outermost st) as (Hst & Hfa & Hout).
  { destruct (request_Ok_cases _ _ _ _ _ _ Hreq) as [(t & _ & ->)|(n1 & d1 & t & Hread)];
      [done|].
    by destruct (request_miss_Ok _ _ _ _ _ _ _ _ _ Hread Hreq)
      as (? & ? & ? & ? & _ & _ & _ & _ & _ & ->). }
  unfold LocalNamedMessenger.__exit__ in Hex.
  cbn [LocalNamedMessenger.set_base LocalNamedMessenger.keep] in Hex.
  rewrite Hkeep in Hex.
  apply bind_Ok_inv in Hex as ([self' st'] & Hpop & Hex).
  apply bind_Ok_inv in Hpop as ([f st''] & Hpop & [= <- <-]).
  apply pop_Ok in Hpop as (Hst' & _ & Hh & Hfa' & Hout').
  cbn [push set_heap _stack _first_available_dim outermost] in Hst, Hfa, Hout.
  rewrite (cleanup_exit_other _ _ owner) in Hex; [|congruence|done].
  cbn [mbind result_bind] in Hex. injection Hex as <- <-.
  rewrite Hst in Hst'. apply app_inj_tail in Hst' as [Hst' _].
  split; [done|]. split; [congruence|]. split; [congruence|].
  intros l Hl. rewrite Hh. by apply Hheap.
Qed.

Lemma local_scope_leaves_no_trace_witness :
  LocalNamedMessenger.keep inner_messenger = false ∧
  outermost owned_stack = Some 1%nat ∧
  LocalNamedMessenger.__enter__ inner_messenger owned_stack
    = Ok (scope_entered.1, scope_entered.2) ∧
  request scope_entered.2 (NameVal (Some "z")) (DimReq (mkDimRequest None LOCAL))
    = Ok (Some "z", Some (-3), scope_requested.2) ∧
  LocalNamedMessenger.__exit__ scope_entered.1 scope_requested.2
    = Ok (scope_left.1, scope_left.2) ∧
  _stack scope_left.2 = _stack owned_stack ∧
  _first_available_dim scope_left.2 = _first_available_dim owned_stack ∧
  outermost scope_left.2 = outermost owned_stack ∧
  ∀ l : loc, (l < length (heap owned_stack))%nat →
             heap scope_left.2 !! l = heap owned_stack !! l.
Proof.
  assert (LocalNamedMessenger.__enter__ inner_messenger owned_stack
          = Ok (scope_entered.1, scope_entered.2)) as H1 by (vm_compute; reflexivity).
  assert (request scope_entered.2 (NameVal (Some "z")) (DimReq (mkDimRequest None LOCAL))
          = Ok (Some "z", Some (-3), scope_requested.2)) as H2 by (vm_compute; reflexivity).
  assert (LocalNamedMessenger.__exit__ scope_entered.1 scope_requested.2
          = Ok (scope_left.1, scope_left.2)) as H3 by (vm_compute; reflexivity).
  split; [reflexivity|]. split; [reflexivity|]. split; [exact H1|].
  split; [exact H2|]. split; [exact H3|].
  exact (local_scope_leaves_no_trace inner_messenger owned_stack 1%nat
           (NameVal (Some "z")) (DimReq (mkDimRequest None LOCAL)) (Some "z") None
           scope_entered.1 scope_entered.2 (Some "z") (Some (-3)) scope_requested.2
           scope_left.1 scope_left.2
           eq_refl eq_refl ltac:(simpl; lia) eq_refl H1 H2 H3).
Defined.
